(** * A model of the Go package [slices] (jkratz55/slices)

    The package is a collection of generic helpers over Go slices.  A Go
    slice is a three-word header (pointer, length, capacity) onto a backing
    array that other slices may share; several of the helpers ([Remove],
    [Insert], [Replace], [Chunk]) rely on that sharing.  The model therefore
    keeps an explicit store of backing arrays and represents a slice by its
    header.  Run-time panics (index and slice bounds, the explicit [panic]
    calls) are a distinct outcome of every operation.

    Modelling conventions.
    - Go's [int] is the 64-bit two's complement integer: values are [Z] and
      every arithmetic operation of the source is written with its
      wrap-around ([GoInt.add], [GoInt.sub]).
    - The store holds arrays of one element type; a function that touches
      slices of several element types ([Zip], [Chunk], [Concat], [Map],
      [Flatten]) takes one store per element type, and [PartitionBy],
      which writes headers and elements alike, runs on a pair of stores.
    - [==] on a [comparable] type parameter is decidable Leibniz equality.
    - Predicates ([Predicate[T]]) are pure total functions; the callback
      of [TakeIf] and of [ForEachParallel] acts on a world of its own and
      does not reach the store of the slice it is applied to.
    - Memory exhaustion is not modelled: [make] and a growing [append]
      always succeed when the requested length is a valid [int].
    - [ForEachParallel] is the only concurrent function; its goroutines
      are a transition system whose steps are the channel and wait-group
      operations, interleaved in any order.
    - [Shuffle] hands the slice to [math/rand] and is not modelled. *)

From Stdlib Require Import ZArith Lia.
From stdpp Require Import base tactics option list gmap.

Local Open Scope Z_scope.

(** ** Machine integers *)

Module GoInt.

Definition min_int : Z := - 2 ^ 63.
Definition max_int : Z := 2 ^ 63 - 1.

(** Reduction of a mathematical integer to the 64-bit signed range. *)
Definition wrap (z : Z) : Z := (z + 2 ^ 63) mod 2 ^ 64 - 2 ^ 63.

Definition add (a b : Z) : Z := wrap (a + b).
Definition sub (a b : Z) : Z := wrap (a - b).
Definition mul (a b : Z) : Z := wrap (a * b).

Definition in_range (z : Z) : Prop := min_int <= z <= max_int.

End GoInt.

Import GoInt.

(** ** Outcomes and the state-and-panic monad *)

(** [Panic] is a Go run-time panic.  [OutOfFuel] is an artefact of the
    model: loops whose trip count is not fixed on entry carry a fuel
    argument, and the theorems show the fuel supplied suffices. *)
Inductive result (A : Type) : Type :=
| Ok (a : A)
| Panic
| OutOfFuel.

Arguments Ok {A} a.
Arguments Panic {A}.
Arguments OutOfFuel {A}.

Definition M (S A : Type) : Type := S -> result (A * S).

Definition ret {S A} (a : A) : M S A := fun s => Ok (a, s).

Definition bind {S A B} (m : M S A) (k : A -> M S B) : M S B :=
  fun s => match m s with
           | Ok (a, s') => k a s'
           | Panic => Panic
           | OutOfFuel => OutOfFuel
           end.

Definition panic {S A} : M S A := fun _ => Panic.
Definition out_of_fuel {S A} : M S A := fun _ => OutOfFuel.

(** Lift a computation that does not touch the store. *)
Definition lift {S A} (r : result A) : M S A :=
  fun s => match r with
           | Ok a => Ok (a, s)
           | Panic => Panic
           | OutOfFuel => OutOfFuel
           end.

Declare Scope go_scope.
Delimit Scope go_scope with go.
Notation "'let!' x := m 'in' k" := (bind m (fun x => k))
  (at level 10, x name, m at level 200, k at level 200, only parsing) : go_scope.
Notation "'run!' m 'in' k" := (bind m (fun _ => k))
  (at level 10, m at level 200, k at level 200, only parsing) : go_scope.
Local Open Scope go_scope.

(** ** Slices and the store of backing arrays *)

(** The zero value of a Go type, used by [make]. *)
Class Zero (A : Type) : Type := zero : A.

Record Slice : Type := mkSlice {
  arr : option nat;  (** backing array; [None] is the nil pointer *)
  off : Z;           (** index in the array of the slice's element 0 *)
  len : Z;
  cap : Z
}.

Definition nil_slice : Slice := mkSlice None 0 0 0.

(** [s == nil] *)
Definition is_nil (s : Slice) : bool :=
  match arr s with None => true | Some _ => false end.

#[export] Instance slice_zero : Zero Slice := nil_slice.
#[export] Instance Z_zero : Zero Z := 0.
#[export] Instance prod_zero {A B} `{Zero A} `{Zero B} : Zero (A * B) := (zero, zero).

(** The store: backing arrays, addressed by position. *)
Abbreviation heap A := (list (list A)).

Section SliceOps.

Context {A : Type} `{Zero A}.

(** Capacity chosen by a growing [append].  The Go runtime picks it from
    the old capacity and the needed length; the language only guarantees
    that it is sufficient. *)
Variable growcap : Z -> Z -> Z.

Definition array_of (h : heap A) (s : Slice) : list A :=
  match arr s with
  | Some a => default [] (h !! a)
  | None => []
  end.

(** The elements a slice denotes in a store. *)
Definition content (h : heap A) (s : Slice) : list A :=
  take (Z.to_nat (len s)) (drop (Z.to_nat (off s)) (array_of h s)).

(** [s[i]] as an rvalue *)
Definition get (h : heap A) (s : Slice) (i : Z) : result A :=
  if (0 <=? i) && (i <? len s) then
    match array_of h s !! Z.to_nat (off s + i) with
    | Some x => Ok x
    | None => Panic
    end
  else Panic.

Definition index (s : Slice) (i : Z) : M (heap A) A :=
  fun h => lift (get h s i) h.

(** [s[lo:hi]]; the upper bound of a slice expression is the capacity. *)
Definition reslice (s : Slice) (lo hi : Z) : result Slice :=
  if (0 <=? lo) && (lo <=? hi) && (hi <=? cap s) then
    Ok (mkSlice (arr s) (off s + lo) (hi - lo) (cap s - lo))
  else Panic.

(** [s[lo:]] *)
Definition slice_from (s : Slice) (lo : Z) : result Slice :=
  reslice s lo (len s).

(** [s[:hi]] *)
Definition slice_to (s : Slice) (hi : Z) : result Slice :=
  reslice s 0 hi.

Definition write_at (l : list A) (o : nat) (xs : list A) : list A :=
  take o l ++ xs ++ drop (o + length xs) l.

(** Overwrite the elements of the backing array of [s] from slice index
    [i] on with [xs]. *)
Definition write (h : heap A) (s : Slice) (i : Z) (xs : list A) : heap A :=
  match arr s with
  | Some a => <[a := write_at (array_of h s) (Z.to_nat (off s + i)) xs]> h
  | None => h
  end.

(** [s[i] = x] *)
Definition store (s : Slice) (i : Z) (x : A) : M (heap A) unit :=
  fun h =>
    if (0 <=? i) && (i <? len s) then Ok (tt, write h s i [x]) else Panic.

(** [make([]T, n, c)] *)
Definition make (n c : Z) : M (heap A) Slice :=
  fun h =>
    if (0 <=? n) && (n <=? c) && (c <=? max_int) then
      Ok (mkSlice (Some (length h)) 0 n c, h ++ [replicate (Z.to_nat c) zero])
    else Panic.

(** The composite literal [[]T{x1, ..., xn}] *)
Definition slice_lit (xs : list A) : M (heap A) Slice :=
  fun h =>
    let n := Z.of_nat (length xs) in
    Ok (mkSlice (Some (length h)) 0 n n, h ++ [xs]).

(** [copy(dst, src)]: moves [min(len(dst), len(src))] elements; source and
    destination may overlap, the source is read before anything is
    written. *)
Definition copy (dst src : Slice) : M (heap A) Z :=
  fun h =>
    let n := Z.min (len dst) (len src) in
    Ok (n, write h dst 0 (take (Z.to_nat n) (content h src))).

(** [append(s, x1, ..., xn)]: in place when the capacity allows, into a
    fresh array otherwise. *)
Definition append (s : Slice) (xs : list A) : M (heap A) Slice :=
  fun h =>
    let newlen := len s + Z.of_nat (length xs) in
    if newlen <=? cap s then
      Ok (mkSlice (arr s) (off s) newlen (cap s), write h s (len s) xs)
    else if max_int <? newlen then Panic
    else
      let c := growcap (cap s) newlen in
      Ok (mkSlice (Some (length h)) 0 newlen c,
          h ++ [content h s ++ xs ++ replicate (Z.to_nat (c - newlen)) zero]).

(** [append(s, src...)] *)
Definition append_slice (s src : Slice) : M (heap A) Slice :=
  fun h => append s (content h src) h.

(** *** Functions of the package that work on one element type *)

(** [Insert] *)
Definition Insert (slice : Slice) (idx : Z) (item : A) : M (heap A) Slice :=
  let tot := add (len slice) 1 in
  if tot <=? cap slice then
    let! s2 := lift (slice_to slice tot) in
    let! dst := lift (slice_from s2 (add idx 1)) in
    let! src := lift (slice_from slice idx) in
    run! copy dst src in
    let! dst := lift (slice_from s2 idx) in
    let! lit := slice_lit [item] in
    run! copy dst lit in
    ret s2
  else
    let! s2 := make tot tot in
    let! src := lift (slice_to slice idx) in
    run! copy s2 src in
    let! dst := lift (slice_from s2 idx) in
    let! lit := slice_lit [item] in
    run! copy dst lit in
    let! dst := lift (slice_from s2 (add idx 1)) in
    let! src := lift (slice_from slice idx) in
    run! copy dst src in
    ret s2.


(** [Filter] *)
Fixpoint Filter_loop (fuel : nat) (s : Slice) (fn : A -> bool)
    (i : Z) (res : Slice) : M (heap A) Slice :=
  match fuel with
  | O => out_of_fuel
  | S fuel =>
      if i <? len s then
        let! x := index s i in
        if fn x then
          let! y := index s i in
          let! res := append res [y] in
          Filter_loop fuel s fn (add i 1) res
        else Filter_loop fuel s fn (add i 1) res
      else ret res
  end.

Definition Filter (s : Slice) (fn : A -> bool) : M (heap A) Slice :=
  let! res := make 0 0 in
  Filter_loop (S (Z.to_nat (len s))) s fn 0 res.

(** [FindAll] *)
Fixpoint FindAll_loop (fuel : nat) (slice : Slice) (fn : A -> bool)
    (i : Z) (results : Slice) : M (heap A) Slice :=
  match fuel with
  | O => out_of_fuel
  | S fuel =>
      if i <? len slice then
        let! x := index slice i in
        if fn x then
          let! y := index slice i in
          let! results := append results [y] in
          FindAll_loop fuel slice fn (add i 1) results
        else FindAll_loop fuel slice fn (add i 1) results
      else ret results
  end.

Definition FindAll (slice : Slice) (fn : A -> bool) : M (heap A) Slice :=
  let! results := make 0 0 in
  FindAll_loop (S (Z.to_nat (len slice))) slice fn 0 results.

(** [Clone] *)
Definition Clone (slice : Slice) : M (heap A) Slice :=
  if is_nil slice then ret nil_slice
  else
    let! cloned := make (len slice) (len slice) in
    run! copy cloned slice in
    ret cloned.

(** [TakeIf].  The callback [fn] has effects on a world [W] of its own
    (it cannot reach the store of [slice]) and may itself panic. *)
Fixpoint TakeIf_loop {W : Type} (fuel : nat) (h : heap A) (slice : Slice)
    (pred : A -> bool) (fn : A -> M W unit) (i : Z) : M W unit :=
  match fuel with
  | O => out_of_fuel
  | S fuel =>
      if i <? len slice then
        let! x := lift (get h slice i) in
        if pred x then
          let! y := lift (get h slice i) in
          run! fn y in
          TakeIf_loop fuel h slice pred fn (add i 1)
        else TakeIf_loop fuel h slice pred fn (add i 1)
      else ret tt
  end.

Definition TakeIf {W : Type} (h : heap A) (slice : Slice)
    (pred : A -> bool) (fn : A -> M W unit) : M W unit :=
  TakeIf_loop (S (Z.to_nat (len slice))) h slice pred fn 0.

Section Comparable.

Context `{EqDecision A}.

(** [Remove].  The slice variable is reassigned inside the loop, so the
    loop condition reads the current header. *)
Fixpoint Remove_loop (fuel : nat) (slice : Slice) (item : A)
    (i removed : Z) : M (heap A) (Slice * Z) :=
  match fuel with
  | O => out_of_fuel
  | S fuel =>
      if i <? len slice then
        let! x := index slice i in
        if bool_decide (x = item) then
          let removed := add removed 1 in
          let! lo := lift (slice_to slice i) in
          let! hi := lift (slice_from slice (add i 1)) in
          let! slice := append_slice lo hi in
          let i := sub i 1 in
          Remove_loop fuel slice item (add i 1) removed
        else Remove_loop fuel slice item (add i 1) removed
      else ret (slice, removed)
  end.

Definition Remove (slice : Slice) (item : A) : M (heap A) (Slice * Z) :=
  Remove_loop (S (Z.to_nat (len slice))) slice item 0 0.

(** [Replace]; [for i := range in] fixes the trip count on entry. *)
Fixpoint Replace_loop (fuel : nat) (in_ : Slice) (old new : A)
    (i n : Z) : M (heap A) unit :=
  match fuel with
  | O => out_of_fuel
  | S fuel =>
      if i <? len in_ then
        let! x := index in_ i in
        if bool_decide (x = old) && negb (n =? 0) then
          run! store in_ i new in
          Replace_loop fuel in_ old new (add i 1) (sub n 1)
        else Replace_loop fuel in_ old new (add i 1) n
      else ret tt
  end.

Definition Replace (in_ : Slice) (old new : A) (n : Z) : M (heap A) unit :=
  Replace_loop (S (Z.to_nat (len in_))) in_ old new 0 n.

(** [ReplaceAll] *)
Definition ReplaceAll (in_ : Slice) (old new : A) : M (heap A) unit :=
  Replace in_ old new (-1).

(** [Unique]; the map [seen] of type [map[T]struct{}] is a finite set. *)
Context `{Countable A}.

Fixpoint Unique_loop (fuel : nat) (in_ : Slice) (i : Z)
    (seen : gset A) (result : Slice) : M (heap A) Slice :=
  match fuel with
  | O => out_of_fuel
  | S fuel =>
      if i <? len in_ then
        let! item := index in_ i in
        if bool_decide (item ∈ seen) then
          Unique_loop fuel in_ (add i 1) seen result
        else
          let seen := {[ item ]} ∪ seen in
          let! result := append result [item] in
          Unique_loop fuel in_ (add i 1) seen result
      else ret result
  end.

Definition Unique (in_ : Slice) : M (heap A) Slice :=
  let! result := make 0 (len in_) in
  Unique_loop (S (Z.to_nat (len in_))) in_ 0 ∅ result.

End Comparable.

End SliceOps.

(** *** Functions over several element types *)

(** [Pair] *)
Record Pair (T U : Type) : Type := mkPair { First : T; Second : U }.
Arguments mkPair {T U} First Second.
Arguments First {T U} p.
Arguments Second {T U} p.

#[export] Instance Pair_zero {T U} `{Zero T} `{Zero U} : Zero (Pair T U) :=
  mkPair zero zero.

Section Zip.

Context {T U : Type} `{Zero T} `{Zero U}.
Variable growcap : Z -> Z -> Z.

(** [Zip]; [left] and [right] live in the stores [hl] and [hr], the
    result in a store of pairs. *)
Fixpoint Zip_loop (fuel : nat) (hl : heap T) (hr : heap U)
    (left right : Slice) (idx : Z) (pairs : Slice)
    : M (heap (Pair T U)) Slice :=
  match fuel with
  | O => out_of_fuel
  | S fuel =>
      if idx <? len left then
        let! item := lift (get hl left idx) in
        let! r := lift (get hr right idx) in
        let! pairs := append growcap pairs [mkPair item r] in
        Zip_loop fuel hl hr left right (add idx 1) pairs
      else ret pairs
  end.

Definition Zip (hl : heap T) (hr : heap U) (left right : Slice)
    : M (heap (Pair T U)) Slice :=
  if negb (len left =? len right) then panic
  else
    let! pairs := make 0 (len left) in
    Zip_loop (S (Z.to_nat (len left))) hl hr left right 0 pairs.

End Zip.

Section ChunkConcat.

Context {T : Type} `{Zero T}.
Variable growcap : Z -> Z -> Z.

(** [Chunk]; the chunks are slice headers onto the array of [slice],
    kept in a store of headers. *)
Fixpoint Chunk_loop (fuel : nat) (slice : Slice) (size : Z)
    (i : Z) (chunks : Slice) : M (heap Slice) Slice :=
  match fuel with
  | O => out_of_fuel
  | S fuel =>
      if i <? len slice then
        let end_ := add i size in
        let end_ := if end_ >? len slice then len slice else end_ in
        let! c := lift (reslice slice i end_) in
        let! chunks := append growcap chunks [c] in
        Chunk_loop fuel slice size (add i size) chunks
      else ret chunks
  end.

Definition Chunk (slice : Slice) (size : Z) : M (heap Slice) Slice :=
  if size <? 1 then panic
  else
    let! chunks := make 0 0 in
    Chunk_loop (S (Z.to_nat (len slice))) slice size 0 chunks.

(** [Batch] *)
Definition Batch (slice : Slice) (batchSize : Z) : M (heap Slice) Slice :=
  Chunk slice batchSize.

(** [Concat]; the variadic parameter [slices] is a slice of headers in
    the store [hs]. *)
Fixpoint Concat_size (fuel : nat) (hs : heap Slice) (slices : Slice)
    (k : Z) (size : Z) : result Z :=
  match fuel with
  | O => OutOfFuel
  | S fuel =>
      if k <? len slices then
        match get hs slices k with
        | Ok s => Concat_size fuel hs slices (add k 1) (add size (len s))
        | Panic => Panic
        | OutOfFuel => OutOfFuel
        end
      else Ok size
  end.

Fixpoint Concat_inner (fuel : nat) (newSlice s : Slice) (j i : Z)
    : M (heap T) Z :=
  match fuel with
  | O => out_of_fuel
  | S fuel =>
      if j <? len s then
        let! x := index s j in
        run! store newSlice i x in
        Concat_inner fuel newSlice s (add j 1) (add i 1)
      else ret i
  end.

Fixpoint Concat_outer (fuel : nat) (hs : heap Slice) (slices : Slice)
    (newSlice : Slice) (k i : Z) : M (heap T) unit :=
  match fuel with
  | O => out_of_fuel
  | S fuel =>
      if k <? len slices then
        let! s := lift (get hs slices k) in
        let! i := Concat_inner (S (Z.to_nat (len s))) newSlice s 0 i in
        Concat_outer fuel hs slices newSlice (add k 1) i
      else ret tt
  end.

Definition Concat (hs : heap Slice) (slices : Slice) : M (heap T) Slice :=
  let! size := lift (Concat_size (S (Z.to_nat (len slices))) hs slices 0 0) in
  let! newSlice := make size size in
  run! Concat_outer (S (Z.to_nat (len slices))) hs slices newSlice 0 0 in
  ret newSlice.

End ChunkConcat.

(** ** The other functions of the package *)

Section ScanOps.

Context {A : Type} `{Zero A}.

(** [FindFirst]; the named result [res] holds the zero value until a match
    returns. *)
Fixpoint FindFirst_loop (fuel : nat) (slice : Slice) (fn : A -> bool)
    (i : Z) (res : A) : M (heap A) (A * bool) :=
  match fuel with
  | O => out_of_fuel
  | S fuel =>
      if i <? len slice then
        let! x := index slice i in
        if fn x then
          let! y := index slice i in
          ret (y, true)
        else FindFirst_loop fuel slice fn (add i 1) res
      else ret (res, false)
  end.

Definition FindFirst (slice : Slice) (fn : A -> bool) : M (heap A) (A * bool) :=
  FindFirst_loop (S (Z.to_nat (len slice))) slice fn 0 zero.

(** [CountBy] *)
Fixpoint CountBy_loop (fuel : nat) (in_ : Slice) (pred : A -> bool)
    (i count : Z) : M (heap A) Z :=
  match fuel with
  | O => out_of_fuel
  | S fuel =>
      if i <? len in_ then
        let! x := index in_ i in
        if pred x then CountBy_loop fuel in_ pred (add i 1) (add count 1)
        else CountBy_loop fuel in_ pred (add i 1) count
      else ret count
  end.

Definition CountBy (in_ : Slice) (pred : A -> bool) : M (heap A) Z :=
  CountBy_loop (S (Z.to_nat (len in_))) in_ pred 0 0.

(** [Reverse]; in [s[i], s[j] = s[j], s[i]] both right-hand sides are read
    before either element is assigned. *)
Fixpoint Reverse_loop (fuel : nat) (s : Slice) (i j : Z) : M (heap A) unit :=
  match fuel with
  | O => out_of_fuel
  | S fuel =>
      if i <? j then
        let! a := index s j in
        let! b := index s i in
        run! store s i a in
        run! store s j b in
        Reverse_loop fuel s (add i 1) (sub j 1)
      else ret tt
  end.

Definition Reverse (s : Slice) : M (heap A) unit :=
  Reverse_loop (S (Z.to_nat (len s))) s 0 (sub (len s) 1).

(** [ReplaceIf] *)
Fixpoint ReplaceIf_loop (fuel : nat) (in_ : Slice) (newVal : A)
    (pred : A -> bool) (i : Z) : M (heap A) unit :=
  match fuel with
  | O => out_of_fuel
  | S fuel =>
      if i <? len in_ then
        let! x := index in_ i in
        if pred x then
          run! store in_ i newVal in
          ReplaceIf_loop fuel in_ newVal pred (add i 1)
        else ReplaceIf_loop fuel in_ newVal pred (add i 1)
      else ret tt
  end.

Definition ReplaceIf (in_ : Slice) (newVal : A) (pred : A -> bool)
    : M (heap A) unit :=
  ReplaceIf_loop (S (Z.to_nat (len in_))) in_ newVal pred 0.

(** [Reduce]; the accumulator is a value of any type [R]. *)
Fixpoint Reduce_loop {R : Type} (fuel : nat) (slice : Slice)
    (accum : R -> A -> R) (i : Z) (val : R) : M (heap A) R :=
  match fuel with
  | O => out_of_fuel
  | S fuel =>
      if i <? len slice then
        let! item := index slice i in
        Reduce_loop fuel slice accum (add i 1) (accum val item)
      else ret val
  end.

Definition Reduce {R : Type} (slice : Slice) (accum : R -> A -> R) (val : R)
    : M (heap A) R :=
  Reduce_loop (S (Z.to_nat (len slice))) slice accum 0 val.

Section ScanComparable.

Context `{EqDecision A}.

(** [Contains] *)
Fixpoint Contains_loop (fuel : nat) (slice : Slice) (item : A) (i : Z)
    : M (heap A) bool :=
  match fuel with
  | O => out_of_fuel
  | S fuel =>
      if i <? len slice then
        let! x := index slice i in
        if bool_decide (x = item) then ret true
        else Contains_loop fuel slice item (add i 1)
      else ret false
  end.

Definition Contains (slice : Slice) (item : A) : M (heap A) bool :=
  Contains_loop (S (Z.to_nat (len slice))) slice item 0.

(** [Count] *)
Fixpoint Count_loop (fuel : nat) (slice : Slice) (item : A) (i count : Z)
    : M (heap A) Z :=
  match fuel with
  | O => out_of_fuel
  | S fuel =>
      if i <? len slice then
        let! x := index slice i in
        if bool_decide (x = item) then Count_loop fuel slice item (add i 1) (add count 1)
        else Count_loop fuel slice item (add i 1) count
      else ret count
  end.

Definition Count (slice : Slice) (item : A) : M (heap A) Z :=
  Count_loop (S (Z.to_nat (len slice))) slice item 0 0.

(** [Index] *)
Fixpoint Index_loop (fuel : nat) (slice : Slice) (item : A) (i : Z)
    : M (heap A) Z :=
  match fuel with
  | O => out_of_fuel
  | S fuel =>
      if i <? len slice then
        let! x := index slice i in
        if bool_decide (x = item) then ret i
        else Index_loop fuel slice item (add i 1)
      else ret (-1)
  end.

Definition Index (slice : Slice) (item : A) : M (heap A) Z :=
  Index_loop (S (Z.to_nat (len slice))) slice item 0.

(** [Equal] *)
Fixpoint Equal_loop (fuel : nat) (s1 s2 : Slice) (i : Z) : M (heap A) bool :=
  match fuel with
  | O => out_of_fuel
  | S fuel =>
      if i <? len s1 then
        let! x := index s1 i in
        let! y := index s2 i in
        if negb (bool_decide (x = y)) then ret false
        else Equal_loop fuel s1 s2 (add i 1)
      else ret true
  end.

Definition Equal (s1 s2 : Slice) : M (heap A) bool :=
  if negb (len s1 =? len s2) then ret false
  else Equal_loop (S (Z.to_nat (len s1))) s1 s2 0.

End ScanComparable.

End ScanOps.

Section MapOps.

Context {T R : Type} `{Zero R}.
Variable growcap : Z -> Z -> Z.

(** [Map]; the argument lives in the store [ht], the result in a store of
    [R]. *)
Fixpoint Map_loop (fuel : nat) (ht : heap T) (slice : Slice)
    (mapper : T -> R) (i : Z) (results : Slice) : M (heap R) Slice :=
  match fuel with
  | O => out_of_fuel
  | S fuel =>
      if i <? len slice then
        let! x := lift (get ht slice i) in
        let! results := append growcap results [mapper x] in
        Map_loop fuel ht slice mapper (add i 1) results
      else ret results
  end.

Definition Map (ht : heap T) (slice : Slice) (mapper : T -> R)
    : M (heap R) Slice :=
  let! results := make 0 0 in
  Map_loop (S (Z.to_nat (len slice))) ht slice mapper 0 results.

(** [FlatMap]; [mapper] returns a slice of [R], which it may allocate. *)
Fixpoint FlatMap_loop (fuel : nat) (ht : heap T) (slice : Slice)
    (mapper : T -> M (heap R) Slice) (i : Z) (results : Slice)
    : M (heap R) Slice :=
  match fuel with
  | O => out_of_fuel
  | S fuel =>
      if i <? len slice then
        let! x := lift (get ht slice i) in
        let! sub := mapper x in
        let! results := append_slice growcap results sub in
        FlatMap_loop fuel ht slice mapper (add i 1) results
      else ret results
  end.

Definition FlatMap (ht : heap T) (slice : Slice)
    (mapper : T -> M (heap R) Slice) : M (heap R) Slice :=
  let! results := make 0 0 in
  FlatMap_loop (S (Z.to_nat (len slice))) ht slice mapper 0 results.

End MapOps.

Section FlattenOps.

Context {T : Type} `{Zero T}.
Variable growcap : Z -> Z -> Z.

(** [Flatten]; the outer slice of headers lives in the store [hs]. *)
Fixpoint Flatten_loop (fuel : nat) (hs : heap Slice) (slice : Slice)
    (i : Z) (res : Slice) : M (heap T) Slice :=
  match fuel with
  | O => out_of_fuel
  | S fuel =>
      if i <? len slice then
        let! s := lift (get hs slice i) in
        let! res := append_slice growcap res s in
        Flatten_loop fuel hs slice (add i 1) res
      else ret res
  end.

Definition Flatten (hs : heap Slice) (slice : Slice) : M (heap T) Slice :=
  let! res := make 0 0 in
  Flatten_loop (S (Z.to_nat (len slice))) hs slice 0 res.

End FlattenOps.

Section MapResults.

Context {T : Type} `{Zero T}.
Variable growcap : Z -> Z -> Z.

(** [GroupBy]; the result [map[U][]T] is a finite map from keys to
    headers, and reading a missing key gives the nil slice. *)
Fixpoint GroupBy_loop {U : Type} `{Countable U} (fuel : nat) (in_ : Slice)
    (grouper : T -> U) (i : Z) (result : gmap U Slice)
    : M (heap T) (gmap U Slice) :=
  match fuel with
  | O => out_of_fuel
  | S fuel =>
      if i <? len in_ then
        let! item := index in_ i in
        let key := grouper item in
        let! g := append growcap (default nil_slice (result !! key)) [item] in
        GroupBy_loop fuel in_ grouper (add i 1) (<[key := g]> result)
      else ret result
  end.

Definition GroupBy {U : Type} `{Countable U} (in_ : Slice) (grouper : T -> U)
    : M (heap T) (gmap U Slice) :=
  GroupBy_loop (S (Z.to_nat (len in_))) in_ grouper 0 ∅.

(** [Associate]; a later element overwrites the value of an earlier one
    with the same key. *)
Fixpoint Associate_loop {K V : Type} `{Countable K} (fuel : nat) (in_ : Slice)
    (transformer : T -> K * V) (i : Z) (res : gmap K V)
    : M (heap T) (gmap K V) :=
  match fuel with
  | O => out_of_fuel
  | S fuel =>
      if i <? len in_ then
        let! item := index in_ i in
        let '(k, v) := transformer item in
        Associate_loop fuel in_ transformer (add i 1) (<[k := v]> res)
      else ret res
  end.

Definition Associate {K V : Type} `{Countable K} (in_ : Slice)
    (transformer : T -> K * V) : M (heap T) (gmap K V) :=
  Associate_loop (S (Z.to_nat (len in_))) in_ transformer 0 ∅.

End MapResults.

(** [PartitionBy] builds a slice of slices: the outer slice lives in a
    store of headers, the partitions in the store of elements, and the
    function runs on the pair of stores. *)
Section PartitionOps.

Context {T : Type} `{Zero T}.
Variable growcap : Z -> Z -> Z.

(** An operation on the store of headers. *)
Definition on_headers {S1 S2 A} (m : M S1 A) : M (S1 * S2) A :=
  fun s => match m s.1 with
           | Ok (a, s1) => Ok (a, (s1, s.2))
           | Panic => Panic
           | OutOfFuel => OutOfFuel
           end.

(** An operation on the store of elements. *)
Definition on_elements {S1 S2 A} (m : M S2 A) : M (S1 * S2) A :=
  fun s => match m s.2 with
           | Ok (a, s2) => Ok (a, (s.1, s2))
           | Panic => Panic
           | OutOfFuel => OutOfFuel
           end.

(** [idx, ok := seen[key]; if !ok { ... }]: the position of the partition
    of [key], added at the end of [result] when the key is new. *)
Definition PartitionBy_slot {U : Type} `{Countable U} (key : U)
    (result : Slice) (seen : gmap U Z)
    : M (heap Slice * heap T) (Z * Slice * gmap U Z) :=
  match seen !! key with
  | Some idx => ret (idx, result, seen)
  | None =>
      let idx := len result in
      let seen := <[key := idx]> seen in
      let! e := on_elements (make 0 0) in
      let! result := on_headers (append growcap result [e]) in
      ret (idx, result, seen)
  end.

Fixpoint PartitionBy_loop {U : Type} `{Countable U} (fuel : nat) (in_ : Slice)
    (partitioner : T -> U) (i : Z) (result : Slice) (seen : gmap U Z)
    : M (heap Slice * heap T) Slice :=
  match fuel with
  | O => out_of_fuel
  | S fuel =>
      if i <? len in_ then
        let! item := on_elements (index in_ i) in
        let key := partitioner item in
        let! slot := PartitionBy_slot key result seen in
        let idx := slot.1.1 in
        let result := slot.1.2 in
        let seen := slot.2 in
        let! g := on_headers (index result idx) in
        let! g := on_elements (append growcap g [item]) in
        run! on_headers (store result idx g) in
        PartitionBy_loop fuel in_ partitioner (add i 1) result seen
      else ret result
  end.

Definition PartitionBy {U : Type} `{Countable U} (in_ : Slice)
    (partitioner : T -> U) : M (heap Slice * heap T) Slice :=
  let! result := on_headers (make 0 0) in
  PartitionBy_loop (S (Z.to_nat (len in_))) in_ partitioner 0 result ∅.

End PartitionOps.

(** ** [ForEachParallel]: the goroutines as an interleaving system *)

(** [ForEachParallel] starts [parallelism] worker goroutines and one
    producer goroutine, which communicate over a buffered channel, and then
    waits on a [sync.WaitGroup].  Channel operations, [wg.Done] and
    [wg.Wait] are the synchronisation points; the model is the transition
    system whose state holds the channel, the wait-group counter and the
    control point of every goroutine, and whose steps are those operations,
    taken by one goroutine at a time in any order.  The callback is an
    atomic effect on a world [W] shared by the workers (such as an atomic
    counter).  The list [calls] records the completed calls of [fn]; it is
    not part of the program. *)

Section Goroutines.

Context {T W : Type}.

(** Control point of a worker:
    [defer wg.Done(); for v := range queue { fn(v) }]. *)
Inductive worker : Type :=
| Receiving            (** at the receive of [range queue] *)
| Calling (v : T)      (** received [v], [fn(v)] not yet run *)
| Exited.              (** loop over and [wg.Done()] run *)

Record pool : Type := mkPool {
  queue : list T;          (** buffered elements, oldest first *)
  chan_cap : Z;            (** capacity of the channel *)
  closed : bool;           (** [close(queue)] has run *)
  next : Z;                (** the producer's [j] *)
  producer_done : bool;    (** the producer goroutine has finished *)
  workers : list worker;
  wg : Z;                  (** counter of the wait group *)
  world : W;
  calls : list T;
  returned : bool          (** [wg.Wait()] has returned *)
}.

Inductive thread : Type :=
| Producer
| Worker (k : nat)
| Main.

(** The sequential prologue: the check of [parallelism], [wg.Add], the
    size of the channel, [make(chan T, chanSize)] (which panics on a
    negative size) and the [go] statements. *)
Definition ForEachParallel_start (slice : Slice) (parallelism : Z) (w : W)
    : result pool :=
  if parallelism <? 1 then Panic
  else
    let chanSize := mul parallelism 4 in
    let chanSize := if chanSize >? len slice then len slice else chanSize in
    if chanSize <? 0 then Panic
    else
      Ok {| queue := []; chan_cap := chanSize; closed := false;
            next := 0; producer_done := false;
            workers := replicate (Z.to_nat parallelism) Receiving;
            wg := parallelism; world := w; calls := []; returned := false |}.

Variables (h : heap T) (slice : Slice) (fn : T -> W -> W).

(** The producer:
    [for j := 0; j < len(slice); j++ { queue <- slice[j] }; close(queue)].
    A send blocks while the buffer is full. *)
Definition producer_step (st : pool) : option pool :=
  if producer_done st then None
  else if next st <? len slice then
    if Z.of_nat (length (queue st)) <? chan_cap st then
      match get h slice (next st) with
      | Ok v =>
          Some {| queue := queue st ++ [v]; chan_cap := chan_cap st;
                  closed := closed st; next := add (next st) 1;
                  producer_done := false; workers := workers st;
                  wg := wg st; world := world st; calls := calls st;
                  returned := returned st |}
      | _ => None
      end
    else None
  else
    Some {| queue := queue st; chan_cap := chan_cap st; closed := true;
            next := next st; producer_done := true; workers := workers st;
            wg := wg st; world := world st; calls := calls st;
            returned := returned st |}.

(** Worker [k]: a receive takes the oldest element, blocks on an empty open
    channel and ends the loop on an empty closed one, after which the
    deferred [wg.Done()] runs; a call runs [fn] on the element received. *)
Definition worker_step (k : nat) (st : pool) : option pool :=
  match workers st !! k with
  | Some Receiving =>
      match queue st with
      | v :: q =>
          Some {| queue := q; chan_cap := chan_cap st; closed := closed st;
                  next := next st; producer_done := producer_done st;
                  workers := <[k := Calling v]> (workers st);
                  wg := wg st; world := world st; calls := calls st;
                  returned := returned st |}
      | [] =>
          if closed st then
            Some {| queue := []; chan_cap := chan_cap st; closed := true;
                    next := next st; producer_done := producer_done st;
                    workers := <[k := Exited]> (workers st);
                    wg := sub (wg st) 1; world := world st; calls := calls st;
                    returned := returned st |}
          else None
      end
  | Some (Calling v) =>
      Some {| queue := queue st; chan_cap := chan_cap st; closed := closed st;
              next := next st; producer_done := producer_done st;
              workers := <[k := Receiving]> (workers st);
              wg := wg st; world := fn v (world st); calls := calls st ++ [v];
              returned := returned st |}
  | Some Exited | None => None
  end.

(** The caller: [wg.Wait()] returns once the counter is zero. *)
Definition main_step (st : pool) : option pool :=
  if returned st then None
  else if wg st =? 0 then
    Some {| queue := queue st; chan_cap := chan_cap st; closed := closed st;
            next := next st; producer_done := producer_done st;
            workers := workers st; wg := wg st; world := world st;
            calls := calls st; returned := true |}
  else None.

(** One step of the goroutine [t]; [None] when it is blocked or finished. *)
Definition step (t : thread) (st : pool) : option pool :=
  match t with
  | Producer => producer_step st
  | Worker k => worker_step k st
  | Main => main_step st
  end.

(** Running a schedule: the goroutines are given the processor in the order
    of [sched]; one that cannot move leaves the state as it is. *)
Fixpoint exec (sched : list thread) (st : pool) : pool :=
  match sched with
  | [] => st
  | t :: sched' =>
      match step t st with
      | Some st' => exec sched' st'
      | None => exec sched' st
      end
  end.

(** Number of steps actually taken along a schedule. *)
Fixpoint steps_taken (sched : list thread) (st : pool) : nat :=
  match sched with
  | [] => 0
  | t :: sched' =>
      match step t st with
      | Some st' => S (steps_taken sched' st')
      | None => steps_taken sched' st
      end
  end.

(** [ForEachParallel] under the schedule [sched]; the call has returned to
    its caller in the states where [returned] is set. *)
Definition ForEachParallel (sched : list thread) (parallelism : Z) (w : W)
    : result pool :=
  match ForEachParallel_start slice parallelism w with
  | Ok st => Ok (exec sched st)
  | Panic => Panic
  | OutOfFuel => OutOfFuel
  end.

(** Elements received by a worker and not yet processed. *)
Definition payload (wk : worker) : list T :=
  match wk with Calling v => [v] | _ => [] end.

Definition inflight (ws : list worker) : list T := ws ≫= payload.

(** Workers that have not exited. *)
Definition alive (wk : worker) : nat :=
  match wk with Exited => 0 | _ => 1 end.

Definition active (ws : list worker) : nat := sum_list_with alive ws.

(** Steps left before the call returns. *)
Definition remaining (st : pool) : nat :=
  3 * Z.to_nat (len slice - next st) + 2 * length (queue st)
  + length (inflight (workers st))
  + (if producer_done st then 0 else 1)
  + active (workers st)
  + (if returned st then 0 else 1).

(** What holds in every state reached from the start: [xs] is the content
    of [slice], [p] the parallelism and [w0] the initial world. *)
Record pool_inv (xs : list T) (p : Z) (w0 : W) (st : pool) : Prop := {
  inv_next : 0 <= next st <= len slice;
  inv_sent :
    take (Z.to_nat (next st)) xs ≡ₚ calls st ++ inflight (workers st) ++ queue st;
  inv_closed : closed st = producer_done st;
  inv_done : producer_done st = true -> next st = len slice;
  inv_wg : wg st = Z.of_nat (active (workers st));
  inv_workers : length (workers st) = Z.to_nat p;
  inv_exited : Exited ∈ workers st -> closed st = true /\ queue st = [];
  inv_world : world st = foldl (fun w v => fn v w) w0 (calls st);
  inv_returned : returned st = true -> wg st = 0;
  inv_cap : chan_cap st = Z.min (p * 4) (len slice)
}.

(** With a single worker, the elements processed, the one being processed
    and the ones buffered are, in this order, the elements sent so far. *)
Definition in_order (st : pool) : Prop :=
  length (workers st) = 1%nat /\
  0 <= next st <= len slice /\
  calls st ++ inflight (workers st) ++ queue st
  = take (Z.to_nat (next st)) (content h slice).

End Goroutines.

(** ** Well-formed headers and successful runs *)

(** A header is well formed in a store when its window lies inside its
    backing array and its capacity is a valid [int]. *)
Definition wf_slice {A} (h : heap A) (s : Slice) : Prop :=
  0 <= off s /\ 0 <= len s <= cap s /\ cap s <= max_int /\
  off s + cap s <= Z.of_nat (length (array_of h s)) /\
  match arr s with Some a => (a < length h)%nat | None => True end.

(** [frame h h' s]: from [h] to [h'] nothing was allocated and only the
    elements of [s] may have changed: the other arrays, and the elements of
    the backing array of [s] outside [s], are as before. *)
Definition frame {A} (h h' : heap A) (s : Slice) : Prop :=
  length h' = length h /\
  (forall a, arr s <> Some a -> h' !! a = h !! a) /\
  length (array_of h' s) = length (array_of h s) /\
  (forall k : nat, ~ (off s <= Z.of_nat k < off s + len s) ->
     array_of h' s !! k = array_of h s !! k).

(** The invariant of [GroupBy] after the elements [done]: the group of
    every key seen holds the elements of [done] with that key, in order, on
    an array of its own. *)
Definition grouped {T U} `{Countable U} (h : heap T) (in_ : Slice)
    (grouper : T -> U) (done : list T) (result : gmap U Slice) : Prop :=
  (forall k g, result !! k = Some g ->
     wf_slice h g /\
     content h g = filter (fun x => grouper x = k) done /\
     arr g <> None /\ arr g <> arr in_ /\ content h g <> []) /\
  (forall k, result !! k = None -> filter (fun x => grouper x = k) done = []) /\
  (forall k1 k2 g1 g2, result !! k1 = Some g1 -> result !! k2 = Some g2 ->
     arr g1 = arr g2 -> k1 = k2).

(** The header of chunk number [k] of [slice] for chunks of [size]
    elements, and the number of chunks. *)
Definition chunk_at (slice : Slice) (size : Z) (k : nat) : Slice :=
  let lo := Z.of_nat k * size in
  mkSlice (arr slice) (off slice + lo) (Z.min size (len slice - lo)) (cap slice - lo).

Definition chunk_count (slice : Slice) (size : Z) : nat :=
  Z.to_nat ((len slice + size - 1) / size).

(** [returns m s Q]: run from state [s], [m] ends normally with a value and
    a final state that satisfy [Q]. *)
Definition returns {S A} (m : M S A) (s : S) (Q : A -> S -> Prop) : Prop :=
  exists a s', m s = Ok (a, s') /\ Q a s'.

(** The append policy must deliver at least the needed length, within
    [int]. *)
Definition growcap_ok (growcap : Z -> Z -> Z) : Prop :=
  forall c n, 0 <= n <= max_int -> n <= growcap c n <= max_int.

(** The elements denoted, one after the other, by a list of headers. *)
Definition contents {A} (h : heap A) (cs : list Slice) : list A :=
  concat (map (content h) cs).

(** Sum of the lengths of a list of headers. *)
Definition total_len (cs : list Slice) : Z :=
  foldr (fun s acc => len s + acc) 0 cs.

(** Largest length for which the index arithmetic of [Chunk] cannot wrap
    around, whatever the chunk size. *)
Definition max_chunkable : Z := 2 ^ 62.

(** ** Functions on contents, used to state and prove the properties *)

Section ContentFunctions.

Context {A : Type} `{EqDecision A}.

(** Number of occurrences of [x] in [l]. *)
Definition occurrences (x : A) (l : list A) : nat :=
  length (filter (fun y => y = x) l).

(** The loop of [Replace] read as a transformation of the content of the
    slice, with the counter [n] decremented as the source does. *)
Fixpoint replace_scan (old new : A) (n : Z) (l : list A) : list A :=
  match l with
  | [] => []
  | x :: l' =>
      if bool_decide (x = old) && negb (n =? 0)
      then new :: replace_scan old new (sub n 1) l'
      else x :: replace_scan old new n l'
  end.

End ContentFunctions.

Section DedupFunctions.

Context {A : Type} `{Countable A}.

(** Stable removal of duplicates: the head stays and its later copies go;
    every value keeps its first occurrence, in the order of first
    appearance. *)
Fixpoint stable_dedup (l : list A) : list A :=
  match l with
  | [] => []
  | x :: l' => x :: filter (fun y => y <> x) (stable_dedup l')
  end.

(** The loop of [Unique] read on the content of the slice: what is
    appended to [result] while scanning [l] with the set [seen]. *)
Fixpoint unique_scan (seen : gset A) (l : list A) : list A :=
  match l with
  | [] => []
  | x :: l' =>
      if bool_decide (x ∈ seen) then unique_scan seen l'
      else x :: unique_scan ({[ x ]} ∪ seen) l'
  end.

End DedupFunctions.

(** The invariant of [PartitionBy] after the elements [done]: [keys] are
    the keys that have a partition, in the order of the partitions; [seen]
    gives the position of each; the header at that position in [gs] holds
    the elements of [done] with that key, on an array of its own. *)
Definition partitioned {T U} `{Countable U} (hT : heap T) (in_ : Slice)
    (partitioner : T -> U) (done : list T) (keys : list U)
    (gs : list Slice) (seen : gmap U Z) : Prop :=
  length gs = length keys /\
  NoDup keys /\
  (forall k idx, seen !! k = Some idx ->
     exists j : nat, idx = Z.of_nat j /\ keys !! j = Some k) /\
  (forall j k, keys !! j = Some k -> seen !! k = Some (Z.of_nat j)) /\
  (forall j k g, keys !! j = Some k -> gs !! j = Some g ->
     wf_slice hT g /\
     content hT g = filter (fun x => partitioner x = k) done /\
     arr g <> None /\ arr g <> arr in_) /\
  (forall j1 j2 g1 g2, gs !! j1 = Some g1 -> gs !! j2 = Some g2 ->
     arr g1 = arr g2 -> j1 = j2).

(** ** The description of [TakeIf] by [Filter] *)

Section FilterThenEach.

Context {A W : Type} `{Zero A}.
Variable growcap : Z -> Z -> Z.

(** Calling [fn] on the elements of a list, first to last. *)
Fixpoint each (fn : A -> M W unit) (l : list A) : M W unit :=
  match l with
  | [] => ret tt
  | x :: l' => run! fn x in each fn l'
  end.

(** [for i := 0; i < len(r); i++ { fn(r[i]) }] *)
Fixpoint Each_loop (fuel : nat) (h : heap A) (r : Slice)
    (fn : A -> M W unit) (i : Z) : M W unit :=
  match fuel with
  | O => out_of_fuel
  | S fuel =>
      if i <? len r then
        let! x := lift (get h r i) in
        run! fn x in
        Each_loop fuel h r fn (add i 1)
      else ret tt
  end.

(** Build [Filter(slice, pred)], then call [fn] on each of its elements in
    order. *)
Definition FilterThenEach (h : heap A) (slice : Slice)
    (pred : A -> bool) (fn : A -> M W unit) : M W unit :=
  fun w =>
    match Filter growcap slice pred h with
    | Ok (r, h') => Each_loop (S (Z.to_nat (len r))) h' r fn 0 w
    | Panic => Panic
    | OutOfFuel => OutOfFuel
    end.

End FilterThenEach.

(** * Properties *)

(** ** Machine integers *)

Section IntFacts.

Lemma wrap_id z : in_range z -> wrap z = z.
Proof.
  unfold in_range, min_int, max_int, wrap. intros Hz.
  rewrite Z.mod_small; lia.
Qed.

Lemma add_id a b : in_range (a + b) -> add a b = a + b.
Proof. apply wrap_id. Qed.

Lemma sub_id a b : in_range (a - b) -> sub a b = a - b.
Proof. apply wrap_id. Qed.

(** A sum of two non-negative [int]s that leaves the range is negative
    after wrap-around. *)
Lemma add_overflow a b :
  0 <= a <= max_int -> 0 <= b <= max_int -> max_int < a + b -> add a b < 0.
Proof.
  unfold add, wrap, max_int. intros Ha Hb Hab.
  replace (a + b + 2 ^ 63) with ((a + b - 2 ^ 63) + 1 * 2 ^ 64) by lia.
  rewrite Z.mod_add by lia. rewrite Z.mod_small; lia.
Qed.

Lemma max_int_pos : 0 < max_int.
Proof. unfold max_int. lia. Qed.

Lemma min_int_neg : min_int < 0.
Proof. unfold min_int. lia. Qed.

End IntFacts.

(** ** The monad *)

Section MonadFacts.

Context {S A B : Type}.

Lemma returns_ret (a : A) (s : S) (Q : A -> S -> Prop) :
  Q a s -> returns (ret a) s Q.
Proof. intros HQ. exists a, s. split; [reflexivity | exact HQ]. Qed.

Lemma returns_bind (m : M S A) (k : A -> M S B) s (Q : B -> S -> Prop) :
  returns m s (fun a s' => returns (k a) s' Q) -> returns (bind m k) s Q.
Proof.
  intros (a & s' & Hm & b & s'' & Hk & HQ).
  exists b, s''. unfold bind. rewrite Hm. split; assumption.
Qed.

Lemma returns_weaken (m : M S A) s (P Q : A -> S -> Prop) :
  returns m s P -> (forall a s', P a s' -> Q a s') -> returns m s Q.
Proof. intros (a & s' & Hm & HP) HPQ. exists a, s'. eauto. Qed.

Lemma returns_lift (r : result A) (a : A) (s : S) (Q : A -> S -> Prop) :
  r = Ok a -> Q a s -> returns (lift r) s Q.
Proof. intros -> HQ. exists a, s. split; [reflexivity | exact HQ]. Qed.

Lemma returns_inv (m : M S A) s (Q : A -> S -> Prop) a s' :
  returns m s Q -> m s = Ok (a, s') -> Q a s'.
Proof. intros (a0 & s0 & Hm & HQ) Heq. congruence. Qed.

End MonadFacts.

(** ** Lists seen as arrays *)

Section ArrayFacts.

Context {A : Type}.
Implicit Types l xs : list A.

Local Open Scope nat_scope.

Lemma write_at_length l p xs :
  p + length xs <= length l -> length (write_at l p xs) = length l.
Proof.
  intros Hb. unfold write_at.
  rewrite !length_app, length_take, length_drop. lia.
Qed.

Lemma write_at_lookup l p xs k :
  p + length xs <= length l ->
  write_at l p xs !! k =
    if decide (k < p) then l !! k
    else if decide (k < p + length xs) then xs !! (k - p)
    else l !! k.
Proof.
  intros Hb. unfold write_at.
  destruct (decide (k < p)) as [Hlt | Hge].
  - rewrite lookup_app_l by (rewrite length_take; lia).
    apply lookup_take_lt. exact Hlt.
  - rewrite lookup_app_r by (rewrite length_take; lia).
    rewrite length_take, Nat.min_l by lia.
    destruct (decide (k < p + length xs)) as [Hin | Hout].
    + apply lookup_app_l. lia.
    + rewrite lookup_app_r by lia. rewrite lookup_drop. f_equal. lia.
Qed.

Lemma write_at_nil l p : write_at l p [] = l.
Proof.
  unfold write_at. simpl. rewrite Nat.add_0_r. apply take_drop.
Qed.

Lemma write_at_singleton l p x :
  p < length l -> write_at l p [x] = <[p := x]> l.
Proof.
  intros Hp. apply list_eq. intros k.
  rewrite write_at_lookup by (simpl; lia). simpl.
  destruct (decide (k = p)) as [-> | Hne].
  - rewrite list_lookup_insert_eq by exact Hp.
    rewrite decide_False by lia. rewrite decide_True by lia.
    rewrite Nat.sub_diag. reflexivity.
  - rewrite list_lookup_insert_ne by congruence.
    repeat case_decide; try reflexivity; lia.
Qed.

(** Overwriting the tail of [l ++ junk] that starts at [length l]. *)
Lemma write_at_end l junk xs :
  length junk = length xs -> write_at (l ++ junk) (length l) xs = l ++ xs.
Proof.
  intros Hj. unfold write_at.
  rewrite take_app_length. rewrite drop_ge by (rewrite length_app; lia).
  rewrite app_nil_r. reflexivity.
Qed.

End ArrayFacts.

(** ** Slices in a store *)

Section SliceFacts.

Context {A : Type} `{Zero A}.
Implicit Types (h : heap A) (s t : Slice) (xs : list A).

Lemma content_length h s :
  wf_slice h s -> length (content h s) = Z.to_nat (len s).
Proof.
  intros (Ho & Hl & _ & Hb & _). unfold content.
  rewrite length_take, length_drop. lia.
Qed.

Lemma content_lookup h s (k : nat) :
  content h s !! k =
    if decide (k < Z.to_nat (len s))%nat
    then array_of h s !! (Z.to_nat (off s) + k)%nat
    else None.
Proof.
  unfold content. case_decide.
  - rewrite lookup_take_lt by assumption. apply lookup_drop.
  - apply lookup_take_ge. lia.
Qed.

Lemma content_nil h s : len s = 0 -> content h s = [].
Proof. intros Hl. unfold content. rewrite Hl. reflexivity. Qed.

(** Reading inside the length always succeeds. *)
Lemma get_ok h s i :
  wf_slice h s -> 0 <= i < len s ->
  exists x, get h s i = Ok x /\ content h s !! Z.to_nat i = Some x.
Proof.
  intros (Ho & Hl & _ & Hb & _) Hi. unfold get.
  replace ((0 <=? i) && (i <? len s)) with true by (symmetry; apply andb_true_iff; lia).
  rewrite content_lookup. rewrite decide_True by lia.
  replace (Z.to_nat (off s) + Z.to_nat i)%nat with (Z.to_nat (off s + i)) by lia.
  destruct (lookup_lt_is_Some_2 (array_of h s) (Z.to_nat (off s + i))) as [x Hx]; [lia|].
  exists x. rewrite Hx. split; reflexivity.
Qed.

Lemma get_content h s i x :
  wf_slice h s -> 0 <= i < len s ->
  content h s !! Z.to_nat i = Some x -> get h s i = Ok x.
Proof.
  intros Hwf Hi Hx. destruct (get_ok h s i Hwf Hi) as (y & Hg & Hy). congruence.
Qed.

Lemma get_out_of_range h s i : ¬ (0 <= i < len s) -> get h s i = Panic.
Proof.
  intros Hi. unfold get.
  replace ((0 <=? i) && (i <? len s)) with false; [reflexivity|].
  symmetry. apply andb_false_iff. lia.
Qed.

(** *** Slice expressions *)

Lemma reslice_ok s lo hi :
  0 <= lo <= hi -> hi <= cap s ->
  reslice s lo hi = Ok (mkSlice (arr s) (off s + lo) (hi - lo) (cap s - lo)).
Proof.
  intros Hlo Hhi. unfold reslice.
  replace ((0 <=? lo) && (lo <=? hi) && (hi <=? cap s)) with true; [reflexivity|].
  symmetry. rewrite !andb_true_iff. lia.
Qed.

Lemma reslice_panic s lo hi :
  ¬ (0 <= lo <= hi /\ hi <= cap s) -> reslice s lo hi = Panic.
Proof.
  intros Hb. unfold reslice.
  replace ((0 <=? lo) && (lo <=? hi) && (hi <=? cap s)) with false; [reflexivity|].
  symmetry. rewrite !andb_false_iff. lia.
Qed.

Lemma wf_reslice h s lo hi :
  wf_slice h s -> 0 <= lo <= hi -> hi <= cap s ->
  wf_slice h (mkSlice (arr s) (off s + lo) (hi - lo) (cap s - lo)).
Proof.
  intros (Ho & Hl & Hc & Hb & Ha) Hlo Hhi.
  unfold wf_slice, array_of in *. simpl. repeat split; try lia. exact Ha.
Qed.

(** Within the length, a slice expression selects a segment of the
    content. *)
Lemma content_reslice h s lo hi :
  wf_slice h s -> 0 <= lo <= hi -> hi <= len s ->
  content h (mkSlice (arr s) (off s + lo) (hi - lo) (cap s - lo)) =
  take (Z.to_nat (hi - lo)) (drop (Z.to_nat lo) (content h s)).
Proof.
  intros (Ho & Hl & _ & Hb & _) Hlo Hhi. apply list_eq. intros k.
  rewrite content_lookup. unfold array_of at 1. simpl.
  fold (array_of h s).
  destruct (decide (k < Z.to_nat (hi - lo))%nat) as [Hk | Hk].
  - rewrite lookup_take_lt by assumption. rewrite lookup_drop, content_lookup.
    rewrite decide_True by lia. f_equal. lia.
  - symmetry. apply lookup_take_ge. lia.
Qed.

(** *** Writes *)

Lemma write_length h s i xs : length (write h s i xs) = length h.
Proof. unfold write. destruct (arr s); [apply length_insert | reflexivity]. Qed.

Lemma array_of_write_same h s t i xs :
  wf_slice h s -> arr t = arr s ->
  off s + i + Z.of_nat (length xs) <= Z.of_nat (length (array_of h s)) ->
  0 <= off s + i ->
  array_of (write h s i xs) t = write_at (array_of h s) (Z.to_nat (off s + i)) xs.
Proof.
  intros (_ & _ & _ & _ & Ha) Ht Hb Hi. unfold write, array_of in *. rewrite Ht.
  destruct (arr s) as [a|].
  - rewrite list_lookup_insert_eq by exact Ha. reflexivity.
  - simpl in Hb. assert (xs = []) as -> by (destruct xs; [reflexivity | simpl in Hb; lia]).
    rewrite write_at_nil. reflexivity.
Qed.

Lemma array_of_write_other h s t i xs :
  arr t <> arr s -> array_of (write h s i xs) t = array_of h t.
Proof.
  intros Hne. unfold write, array_of.
  destruct (arr s) as [a|]; [|reflexivity].
  destruct (arr t) as [b|]; [|reflexivity].
  rewrite list_lookup_insert_ne by congruence. reflexivity.
Qed.

Lemma content_write_other h s t i xs :
  arr t <> arr s -> content (write h s i xs) t = content h t.
Proof. intros Hne. unfold content. rewrite array_of_write_other by exact Hne. reflexivity. Qed.

Lemma wf_write_other h s t i xs :
  arr t <> arr s -> wf_slice h t -> wf_slice (write h s i xs) t.
Proof.
  intros Hne (Ho & Hl & Hc & Hb & Ha). unfold wf_slice.
  rewrite array_of_write_other by exact Hne. rewrite write_length.
  repeat split; try lia. exact Ha.
Qed.

Lemma wf_write_same h s t i xs :
  wf_slice h s -> arr t = arr s ->
  off s + i + Z.of_nat (length xs) <= Z.of_nat (length (array_of h s)) ->
  0 <= off s + i ->
  0 <= off t -> 0 <= len t <= cap t -> cap t <= max_int ->
  off t + cap t <= Z.of_nat (length (array_of h s)) ->
  wf_slice (write h s i xs) t.
Proof.
  intros Hwf Ht Hb Hi Ho Hl Hc Hbt. unfold wf_slice.
  rewrite (array_of_write_same h s t i xs) by assumption.
  rewrite write_at_length by lia. rewrite write_length.
  repeat split; try lia. rewrite Ht. apply Hwf.
Qed.

(** A write through [s] that falls inside the window of [t], a slice onto
    the same array, is a write into the content of [t]. *)
Lemma content_write_within h s t i xs :
  wf_slice h s -> wf_slice h t -> arr t = arr s ->
  off t <= off s + i ->
  off s + i + Z.of_nat (length xs) <= off t + len t ->
  content (write h s i xs) t =
  write_at (content h t) (Z.to_nat (off s + i - off t)) xs.
Proof.
  intros Hs Ht Harr Hlo Hhi.
  assert (array_of h t = array_of h s) as Hsame by (unfold array_of; rewrite Harr; reflexivity).
  pose proof Ht as (Ho & Hl & _ & Hb & _).
  apply list_eq. intros k.
  rewrite write_at_lookup by (rewrite content_length by assumption; lia).
  rewrite !content_lookup.
  rewrite (array_of_write_same h s t i xs) by (try assumption; rewrite <- ?Hsame; lia).
  rewrite write_at_lookup by (rewrite <- Hsame; lia).
  rewrite Hsame.
  repeat case_decide; try reflexivity; try lia.
  f_equal. lia.
Qed.

(** *** Allocation *)

Lemma array_of_alloc h s l :
  wf_slice h s -> array_of (h ++ [l]) s = array_of h s.
Proof.
  intros (_ & _ & _ & _ & Ha). unfold array_of.
  destruct (arr s) as [a|]; [|reflexivity].
  rewrite lookup_app_l by exact Ha. reflexivity.
Qed.

Lemma content_alloc h s l :
  wf_slice h s -> content (h ++ [l]) s = content h s.
Proof. intros Hwf. unfold content. rewrite array_of_alloc by exact Hwf. reflexivity. Qed.

Lemma wf_alloc h s l : wf_slice h s -> wf_slice (h ++ [l]) s.
Proof.
  intros Hwf. pose proof Hwf as (Ho & Hl & Hc & Hb & Ha). unfold wf_slice.
  rewrite array_of_alloc by exact Hwf. repeat split; try lia.
  destruct (arr s); [|exact I]. rewrite length_app. simpl. lia.
Qed.

Lemma array_of_fresh h l o n c :
  array_of (h ++ [l]) (mkSlice (Some (length h)) o n c) = l.
Proof.
  unfold array_of. simpl. rewrite lookup_app_r by lia.
  rewrite Nat.sub_diag. reflexivity.
Qed.

Lemma wf_fresh h l n c :
  0 <= n <= c -> c <= max_int -> c <= Z.of_nat (length l) ->
  wf_slice (h ++ [l]) (mkSlice (Some (length h)) 0 n c).
Proof.
  intros Hn Hc Hl. unfold wf_slice. rewrite array_of_fresh. simpl.
  repeat split; try lia. rewrite length_app. simpl. lia.
Qed.

Lemma content_fresh h l n c :
  content (h ++ [l]) (mkSlice (Some (length h)) 0 n c) = take (Z.to_nat n) l.
Proof. unfold content. rewrite array_of_fresh. reflexivity. Qed.

(** A well-formed header never points at the next array to be
    allocated. *)
Lemma wf_not_fresh h s : wf_slice h s -> arr s <> Some (length h).
Proof.
  intros (_ & _ & _ & _ & Ha) Heq. rewrite Heq in Ha. lia.
Qed.

End SliceFacts.

(** ** The built-in operations *)

Section BuiltinFacts.

Context {A : Type} `{Zero A}.
Variable growcap : Z -> Z -> Z.
Hypothesis growcap_good : growcap_ok growcap.
Implicit Types (h : heap A) (s t : Slice) (xs : list A).

Lemma index_spec h s i (Q : A -> heap A -> Prop) :
  wf_slice h s -> 0 <= i < len s ->
  (forall x, content h s !! Z.to_nat i = Some x -> Q x h) ->
  returns (index s i) h Q.
Proof.
  intros Hwf Hi HQ. destruct (get_ok h s i Hwf Hi) as (x & Hg & Hx).
  exists x, h. unfold index. rewrite Hg. split; [reflexivity | auto].
Qed.

Lemma make_ok h n c :
  0 <= n <= c -> c <= max_int ->
  make n c h = Ok (mkSlice (Some (length h)) 0 n c, h ++ [replicate (Z.to_nat c) zero]).
Proof.
  intros Hn Hc. unfold make.
  replace ((0 <=? n) && (n <=? c) && (c <=? max_int)) with true; [reflexivity|].
  symmetry. rewrite !andb_true_iff. lia.
Qed.

Lemma store_ok h s i x :
  0 <= i < len s -> store s i x h = Ok (tt, write h s i [x]).
Proof.
  intros Hi. unfold store.
  replace ((0 <=? i) && (i <? len s)) with true; [reflexivity|].
  symmetry. rewrite andb_true_iff. lia.
Qed.

Lemma content_store h s i x :
  wf_slice h s -> 0 <= i < len s ->
  content (write h s i [x]) s = <[Z.to_nat i := x]> (content h s).
Proof.
  intros Hwf Hi. pose proof Hwf as (Ho & Hl & _ & Hb & _).
  rewrite content_write_within by (try assumption; try reflexivity; simpl; lia).
  replace (off s + i - off s) with i by lia.
  apply write_at_singleton. rewrite content_length by assumption. lia.
Qed.

Lemma wf_store h s t i x :
  wf_slice h s -> wf_slice h t -> 0 <= i < len s ->
  wf_slice (write h s i [x]) t.
Proof.
  intros Hs Ht Hi. pose proof Hs as (Ho & Hl & _ & Hb & _).
  destruct (decide (arr t = arr s)) as [Heq | Hne].
  - pose proof Ht as (Ho' & Hl' & Hc' & Hb' & _).
    assert (array_of h t = array_of h s) as Hsame by (unfold array_of; rewrite Heq; reflexivity).
    apply wf_write_same; try assumption; simpl; try lia.
    rewrite <- Hsame. lia.
  - apply wf_write_other; assumption.
Qed.

Lemma wf_write h s t i xs :
  wf_slice h s -> wf_slice h t -> 0 <= off s + i ->
  off s + i + Z.of_nat (length xs) <= Z.of_nat (length (array_of h s)) ->
  wf_slice (write h s i xs) t.
Proof.
  intros Hs Ht Hi Hb.
  destruct (decide (arr t = arr s)) as [Heq | Hne].
  - pose proof Ht as (Ho' & Hl' & Hc' & Hb' & _).
    assert (array_of h t = array_of h s) as Hsame by (unfold array_of; rewrite Heq; reflexivity).
    apply wf_write_same; try assumption. rewrite <- Hsame. lia.
  - apply wf_write_other; assumption.
Qed.

Lemma append_in_place h s xs :
  len s + Z.of_nat (length xs) <= cap s ->
  append growcap s xs h =
  Ok (mkSlice (arr s) (off s) (len s + Z.of_nat (length xs)) (cap s),
      write h s (len s) xs).
Proof.
  intros Hfit. unfold append.
  replace (len s + Z.of_nat (length xs) <=? cap s) with true; [reflexivity|].
  symmetry. apply Z.leb_le. exact Hfit.
Qed.

(** The content of a slice extended into its spare capacity. *)
Lemma content_extend h s n :
  wf_slice h s -> 0 <= n -> len s + n <= cap s ->
  exists junk,
    length junk = Z.to_nat n /\
    content h (mkSlice (arr s) (off s) (len s + n) (cap s)) = content h s ++ junk.
Proof.
  intros (Ho & Hl & _ & Hb & _) Hn Hfit.
  exists (take (Z.to_nat n) (drop (Z.to_nat (len s)) (drop (Z.to_nat (off s)) (array_of h s)))).
  split.
  - rewrite length_take, !length_drop. lia.
  - unfold content, array_of. simpl. rewrite take_take_drop. f_equal. lia.
Qed.

Lemma content_append_in_place h s xs :
  wf_slice h s -> len s + Z.of_nat (length xs) <= cap s ->
  content (write h s (len s) xs)
          (mkSlice (arr s) (off s) (len s + Z.of_nat (length xs)) (cap s)) =
  content h s ++ xs.
Proof.
  intros Hwf Hfit. pose proof Hwf as (Ho & Hl & Hc & Hb & Ha).
  destruct (content_extend h s (Z.of_nat (length xs)) Hwf) as (junk & Hj & Hext); [lia | lia |].
  rewrite content_write_within; simpl; try assumption; try reflexivity; try lia.
  - rewrite Hext. replace (Z.to_nat (off s + len s - off s)) with (length (content h s))
      by (rewrite content_length by assumption; lia).
    apply write_at_end. lia.
  - unfold wf_slice, array_of in *. simpl. repeat split; try lia. exact Ha.
Qed.

Lemma wf_append_in_place h s xs :
  wf_slice h s -> len s + Z.of_nat (length xs) <= cap s ->
  wf_slice (write h s (len s) xs)
           (mkSlice (arr s) (off s) (len s + Z.of_nat (length xs)) (cap s)).
Proof.
  intros Hwf Hfit. pose proof Hwf as (Ho & Hl & Hc & Hb & Ha).
  apply wf_write_same; simpl; try assumption; try reflexivity; lia.
Qed.

(** What [append] guarantees: the result denotes the old content followed
    by the new elements, it shares its array with the argument or sits in
    a fresh one, and slices onto other arrays are untouched. *)
Lemma append_spec h s xs :
  wf_slice h s -> len s + Z.of_nat (length xs) <= max_int ->
  returns (append growcap s xs) h (fun s' h' =>
    wf_slice h' s' /\
    content h' s' = content h s ++ xs /\
    len s' = len s + Z.of_nat (length xs) /\
    (arr s' = arr s \/ arr s' = Some (length h)) /\
    (arr s <> None -> arr s' <> None) /\
    (forall t, wf_slice h t -> arr t <> arr s ->
               wf_slice h' t /\ content h' t = content h t)).
Proof.
  intros Hwf Hmax. pose proof Hwf as (Ho & Hl & Hc & Hb & Ha).
  destruct (decide (len s + Z.of_nat (length xs) <= cap s)) as [Hfit | Hgrow].
  - eexists _, _. split; [apply append_in_place; exact Hfit|].
    split; [apply wf_append_in_place; assumption|].
    split; [apply content_append_in_place; assumption|].
    split; [reflexivity|]. split; [left; reflexivity|]. split; [auto|].
    intros t Ht Hne. split.
    + apply wf_write_other; assumption.
    + apply content_write_other; assumption.
  - unfold returns, append.
    replace (len s + Z.of_nat (length xs) <=? cap s) with false
      by (symmetry; apply Z.leb_gt; lia).
    replace (max_int <? len s + Z.of_nat (length xs)) with false
      by (symmetry; apply Z.ltb_ge; lia).
    eexists _, _. split; [reflexivity|].
    specialize (growcap_good (cap s) (len s + Z.of_nat (length xs))).
    set (c := growcap (cap s) (len s + Z.of_nat (length xs))) in *.
    assert (length (content h s) = Z.to_nat (len s)) as Hlen
      by (apply content_length; exact Hwf).
    split.
    { apply wf_fresh; try lia.
      rewrite !length_app, length_replicate. lia. }
    split.
    { rewrite content_fresh.
      rewrite app_assoc. rewrite take_app_length'; [reflexivity|].
      rewrite length_app. lia. }
    split; [reflexivity|]. split; [right; reflexivity|].
    split; [discriminate|].
    intros t Ht _. split; [apply wf_alloc | apply content_alloc]; exact Ht.
Qed.

(** [append] within the capacity: the header keeps its array and nothing
    is allocated, whatever the growth policy. *)
Lemma append_fits_spec h s xs :
  wf_slice h s -> len s + Z.of_nat (length xs) <= cap s ->
  returns (append growcap s xs) h (fun s' h' =>
    s' = mkSlice (arr s) (off s) (len s + Z.of_nat (length xs)) (cap s) /\
    wf_slice h' s' /\
    content h' s' = content h s ++ xs /\
    length h' = length h /\
    (forall t, wf_slice h t -> arr t <> arr s ->
               wf_slice h' t /\ content h' t = content h t)).
Proof.
  intros Hwf Hfit.
  eexists _, _. split; [apply append_in_place; exact Hfit|].
  split; [reflexivity|].
  split; [apply wf_append_in_place; assumption|].
  split; [apply content_append_in_place; assumption|].
  split; [apply write_length|].
  intros t Ht Hne. split.
  - apply wf_write_other; assumption.
  - apply content_write_other; assumption.
Qed.

Lemma copy_ok h dst src :
  copy dst src h =
  Ok (Z.min (len dst) (len src),
      write h dst 0 (take (Z.to_nat (Z.min (len dst) (len src))) (content h src))).
Proof. reflexivity. Qed.

Lemma slice_lit_ok h xs :
  slice_lit xs h =
  Ok (mkSlice (Some (length h)) 0 (Z.of_nat (length xs)) (Z.of_nat (length xs)), h ++ [xs]).
Proof. reflexivity. Qed.

End BuiltinFacts.

(** ** [Insert] *)

Section InsertFacts.

Context {A : Type} `{Zero A}.
Implicit Types (h : heap A) (c junk : list A).

Local Open Scope nat_scope.

(** The two copies of the in-place branch, on the content. *)
Lemma insert_shift c junk (idx : nat) (item : A) :
  idx <= length c -> length junk = 1 ->
  write_at (write_at (c ++ junk) (S idx) (drop idx c)) idx [item] =
  take idx c ++ item :: drop idx c.
Proof.
  intros Hidx Hj. apply list_eq. intros k.
  assert (S idx + length (drop idx c) <= length (c ++ junk)) as Hb1
    by (rewrite length_app, length_drop; lia).
  rewrite write_at_lookup by (rewrite write_at_length by exact Hb1; rewrite length_app; simpl; lia).
  rewrite write_at_lookup by exact Hb1. simpl.
  destruct (decide (k < idx)) as [Hlt | Hge].
  - rewrite decide_True by lia. rewrite (lookup_app_l c) by lia.
    rewrite (lookup_app_l (take idx c)) by (rewrite length_take; lia).
    rewrite lookup_take_lt by exact Hlt. reflexivity.
  - rewrite (lookup_app_r (take idx c)) by (rewrite length_take; lia).
    rewrite length_take, Nat.min_l by lia.
    destruct (decide (k < idx + 1)) as [Heq | Hgt].
    + replace (k - idx) with 0 by lia. reflexivity.
    + rewrite decide_False by lia.
      destruct (k - idx) as [|m] eqn:Hm; [lia|]. simpl.
      rewrite length_drop. case_decide.
      * f_equal. lia.
      * rewrite lookup_drop. rewrite !lookup_ge_None_2; [reflexivity | lia |].
        rewrite length_app. lia.
Qed.

(** The three copies of the allocating branch, on the content. *)
Lemma insert_fill c (z : list A) (idx : nat) (item : A) :
  idx <= length c -> length z = S (length c) ->
  write_at (write_at (write_at z 0 (take idx c)) idx [item]) (S idx) (drop idx c) =
  take idx c ++ item :: drop idx c.
Proof.
  intros Hidx Hz.
  assert (length (write_at z 0 (take idx c)) = length z) as L1
    by (apply write_at_length; rewrite length_take; lia).
  assert (length (write_at (write_at z 0 (take idx c)) idx [item]) = length z) as L2
    by (rewrite write_at_length; [exact L1 | rewrite L1; simpl; lia]).
  apply list_eq. intros k.
  rewrite write_at_lookup by (rewrite L2, length_drop; lia).
  rewrite write_at_lookup by (rewrite L1; simpl; lia).
  rewrite write_at_lookup by (rewrite length_take; lia).
  rewrite length_drop, length_take, Nat.min_l by lia. cbn [length].
  destruct (decide (k < idx)) as [Hlt | Hge].
  - rewrite (lookup_app_l (take idx c)) by (rewrite length_take; lia).
    repeat case_decide; try lia. f_equal. lia.
  - rewrite (lookup_app_r (take idx c)) by (rewrite length_take; lia).
    rewrite length_take, Nat.min_l by lia.
    destruct (decide (k = idx)) as [-> | Hne].
    + rewrite Nat.sub_diag. repeat case_decide; try lia. reflexivity.
    + destruct (k - idx) as [|m] eqn:Hm; [lia|]. cbn [lookup list_lookup].
      repeat case_decide; try lia.
      * f_equal. lia.
      * transitivity (@None A); [|symmetry];
          apply lookup_ge_None_2; rewrite ?length_drop; lia.
Qed.

End InsertFacts.

(** Arithmetic side conditions over named headers. *)
Ltac slia :=
  repeat match goal with x := mkSlice _ _ _ _ |- _ => progress unfold x in * end;
  cbn [arr off len cap] in *; lia.

(** Reduce the projections of a named header in the goal. *)
Ltac renorm x := unfold x; cbn [arr off len cap]; fold x.

Section InsertCorrect.

Context {A : Type} `{Zero A}.
Implicit Types (h : heap A).

Lemma returns_eq {S B} (m : M S B) (s s' : S) (b : B) (Q : B -> S -> Prop) :
  m s = Ok (b, s') -> Q b s' -> returns m s Q.
Proof. intros Hm HQ. exists b, s'. split; assumption. Qed.

Lemma content_reslice_from h s lo :
  wf_slice h s -> 0 <= lo <= len s ->
  content h (mkSlice (arr s) (off s + lo) (len s - lo) (cap s - lo)) =
  drop (Z.to_nat lo) (content h s).
Proof.
  intros Hwf Hlo. rewrite content_reslice by (try assumption; lia).
  apply take_ge. rewrite length_drop, content_length by assumption. lia.
Qed.

Lemma content_reslice_to h s hi :
  wf_slice h s -> 0 <= hi <= len s ->
  content h (mkSlice (arr s) (off s + 0) (hi - 0) (cap s - 0)) =
  take (Z.to_nat hi) (content h s).
Proof.
  intros Hwf Hhi. rewrite content_reslice by (try assumption; lia).
  rewrite Z.sub_0_r. reflexivity.
Qed.

(** With spare capacity [Insert] shifts the tail inside the array of its
    argument. *)
Lemma Insert_in_place h slice idx item :
  wf_slice h slice -> len slice + 1 <= cap slice -> 0 <= idx <= len slice ->
  returns (Insert slice idx item) h (fun s2 h' =>
    wf_slice h' s2 /\ len s2 = len slice + 1 /\ arr s2 = arr slice /\
    content h' s2 =
      take (Z.to_nat idx) (content h slice) ++ item :: drop (Z.to_nat idx) (content h slice)).
Proof.
  intros Hwf Hcap Hidx. pose proof Hwf as (Ho & Hl & Hc & Hb & Ha).
  pose proof max_int_pos as Hmax.
  unfold Insert. rewrite add_id by (unfold in_range, min_int; lia).
  replace (len slice + 1 <=? cap slice) with true by (symmetry; apply Z.leb_le; lia).
  set (c := content h slice).
  assert (length c = Z.to_nat (len slice)) as Hlenc by (apply content_length; exact Hwf).
  (* s2 := slice[:tot] *)
  apply returns_bind. eapply returns_lift; [apply reslice_ok; lia|].
  rewrite Z.add_0_r, !Z.sub_0_r.
  set (s2 := mkSlice (arr slice) (off slice) (len slice + 1) (cap slice)).
  assert (wf_slice h s2) as Hwf2.
  { unfold wf_slice, array_of in *. simpl. repeat split; try lia. exact Ha. }
  (* s2[idx+1:] and slice[idx:] *)
  rewrite add_id by (unfold in_range, min_int; lia).
  apply returns_bind. eapply returns_lift; [apply reslice_ok; simpl; lia|].
  apply returns_bind. eapply returns_lift; [apply reslice_ok; simpl; lia|].
  simpl.
  set (d1 := mkSlice (arr slice) (off slice + (idx + 1)) (len slice + 1 - (idx + 1))
                     (cap slice - (idx + 1))).
  set (src := mkSlice (arr slice) (off slice + idx) (len slice - idx) (cap slice - idx)).
  assert (wf_slice h d1) as Hwfd1 by (apply (wf_reslice h s2); simpl; try assumption; lia).
  assert (content h src = drop (Z.to_nat idx) c) as Hsrc
    by (apply content_reslice_from; [exact Hwf | lia]).
  apply returns_bind. eapply returns_eq; [apply copy_ok|].
  simpl. replace (Z.min (len slice + 1 - (idx + 1)) (len slice - idx)) with (len slice - idx) by lia.
  rewrite Hsrc. rewrite take_ge by (rewrite length_drop; lia).
  set (h1 := write h d1 0 (drop (Z.to_nat idx) c)).
  assert (array_of h d1 = array_of h slice) as Hsame by reflexivity.
  assert (wf_slice h1 s2) as Hwf2'.
  { apply wf_write_same; simpl; try assumption; try reflexivity;
      rewrite ?Hsame, ?length_drop; lia. }
  assert (content h1 s2 = write_at (content h s2) (S (Z.to_nat idx)) (drop (Z.to_nat idx) c)) as Hc1.
  { unfold h1. rewrite content_write_within; simpl; try assumption; try reflexivity;
      rewrite ?length_drop; try lia.
    f_equal. lia. }
  (* s2[idx:] and the literal *)
  apply returns_bind. eapply returns_lift; [apply reslice_ok; simpl; lia|].
  simpl.
  set (d2 := mkSlice (arr slice) (off slice + idx) (len slice + 1 - idx) (cap slice - idx)).
  apply returns_bind. eapply returns_eq; [apply slice_lit_ok|].
  change (Z.of_nat (length [item])) with 1.
  assert (wf_slice h1 d2) as Hwfd2 by (apply (wf_reslice h1 s2); simpl; try assumption; lia).
  apply returns_bind. eapply returns_eq; [apply copy_ok|].
  simpl. replace (Z.min (len slice + 1 - idx) 1) with 1 by lia.
  rewrite content_fresh. simpl.
  apply returns_ret.
  assert (array_of (h1 ++ [[item]]) d2 = array_of h1 s2) as Hsame2
    by (rewrite array_of_alloc by exact Hwfd2; reflexivity).
  pose proof Hwf2' as (_ & _ & _ & Hb2 & Ha2).
  assert (wf_slice (h1 ++ [[item]]) s2) as Hwf2a by (apply wf_alloc; exact Hwf2').
  split.
  { apply wf_store; [apply wf_alloc; exact Hwfd2 | exact Hwf2a | simpl; lia]. }
  split; [reflexivity|]. split; [reflexivity|].
  rewrite content_write_within; simpl; try assumption; try reflexivity; try lia;
    [| apply wf_alloc; exact Hwfd2].
  rewrite content_alloc by exact Hwf2'.
  rewrite Hc1.
  destruct (content_extend h slice 1 Hwf) as (junk & Hj & Hext); [lia | lia |].
  fold s2 in Hext. rewrite Hext.
  replace (Z.to_nat (off slice + idx + 0 - off slice)) with (Z.to_nat idx) by lia.
  apply insert_shift; fold c; lia.
Qed.

(** Without spare capacity [Insert] builds the result in a fresh array. *)
Lemma Insert_alloc h slice idx item :
  wf_slice h slice -> len slice < max_int -> cap slice < len slice + 1 ->
  0 <= idx <= len slice ->
  returns (Insert slice idx item) h (fun s2 h' =>
    wf_slice h' s2 /\ len s2 = len slice + 1 /\ arr s2 = Some (length h) /\
    content h' s2 =
      take (Z.to_nat idx) (content h slice) ++ item :: drop (Z.to_nat idx) (content h slice)).
Proof.
  intros Hwf Hlen Hcap Hidx. pose proof Hwf as (Ho & Hl & Hc & Hb & Ha).
  unfold Insert. rewrite add_id by (unfold in_range, min_int; lia).
  replace (len slice + 1 <=? cap slice) with false by (symmetry; apply Z.leb_gt; lia).
  set (c := content h slice).
  assert (length c = Z.to_nat (len slice)) as Hlenc by (apply content_length; exact Hwf).
  (* s2 := make([]T, tot) *)
  apply returns_bind. eapply returns_eq; [apply make_ok; lia|].
  set (z := replicate (Z.to_nat (len slice + 1)) zero).
  set (s2 := mkSlice (Some (length h)) 0 (len slice + 1) (len slice + 1)).
  set (h1 := h ++ [z]).
  assert (length z = S (length c)) as Hz by (unfold z; rewrite length_replicate; lia).
  assert (wf_slice h1 s2) as W1 by (apply wf_fresh; lia).
  assert (wf_slice h1 slice) as W1s by (apply wf_alloc; exact Hwf).
  assert (content h1 s2 = z) as C1.
  { unfold h1, s2. rewrite content_fresh. apply take_ge. lia. }
  assert (arr slice <> arr s2) as Hne by (apply wf_not_fresh; exact Hwf).
  (* copy(s2, slice[:idx]) *)
  apply returns_bind. eapply returns_lift; [apply reslice_ok; lia|].
  apply returns_bind. eapply returns_eq; [apply copy_ok|].
  assert (content h1 slice = c) as C1s by (apply content_alloc; exact Hwf).
  renorm s2.
  replace (Z.min (len slice + 1) (idx - 0)) with idx by lia.
  rewrite (content_reslice_to h1 slice idx W1s) by lia.
  rewrite C1s, take_take, Nat.min_id.
  set (h2 := write h1 s2 0 (take (Z.to_nat idx) c)).
  assert (off s2 + 0 + Z.of_nat (length (take (Z.to_nat idx) c))
          <= Z.of_nat (length (array_of h1 s2))) as B2.
  { unfold h1, s2. rewrite array_of_fresh, length_take. cbn [off]. lia. }
  assert (wf_slice h2 s2) as W2 by (apply wf_write; try assumption; slia).
  assert (wf_slice h2 slice) as W2s by (apply wf_write_other; assumption).
  assert (content h2 s2 = write_at z 0 (take (Z.to_nat idx) c)) as C2.
  { unfold h2. rewrite content_write_within; try assumption; try reflexivity;
      rewrite ?length_take; try slia.
    rewrite C1. reflexivity. }
  (* copy(s2[idx:], []T{item}) *)
  apply returns_bind. eapply returns_lift; [apply reslice_ok; slia|].
  renorm s2.
  set (d := mkSlice (Some (length h)) (0 + idx) (len slice + 1 - idx) (len slice + 1 - idx)).
  assert (wf_slice h2 d) as W2d by (apply (wf_reslice h2 s2); try assumption; slia).
  apply returns_bind. eapply returns_eq; [apply slice_lit_ok|].
  change (Z.of_nat (length [item])) with 1.
  apply returns_bind. eapply returns_eq; [apply copy_ok|].
  renorm d. replace (Z.min (len slice + 1 - idx) 1) with 1 by lia.
  rewrite content_fresh. replace (take (Z.to_nat 1) (take (Z.to_nat 1) [item])) with [item] by reflexivity.
  set (h3 := h2 ++ [[item]]).
  set (h4 := write h3 d 0 [item]).
  assert (wf_slice h3 s2) as W3 by (apply wf_alloc; exact W2).
  assert (wf_slice h3 d) as W3d by (apply wf_alloc; exact W2d).
  assert (wf_slice h3 slice) as W3s by (apply wf_alloc; exact W2s).
  assert (wf_slice h4 s2) as W4 by (apply wf_store; try assumption; slia).
  assert (wf_slice h4 slice) as W4s by (apply wf_write_other; assumption).
  assert (content h4 s2 = write_at (write_at z 0 (take (Z.to_nat idx) c)) (Z.to_nat idx) [item]) as C4.
  { unfold h4. rewrite content_write_within; try assumption; try reflexivity;
      cbn [length]; try slia.
    unfold h3. rewrite content_alloc by exact W2. rewrite C2. f_equal. slia. }
  (* copy(s2[idx+1:], slice[idx:]) *)
  rewrite add_id by (unfold in_range, min_int; lia).
  apply returns_bind. eapply returns_lift; [apply reslice_ok; slia|].
  apply returns_bind. eapply returns_lift; [apply reslice_ok; lia|].
  renorm s2.
  set (d' := mkSlice (Some (length h)) (0 + (idx + 1)) (len slice + 1 - (idx + 1))
                     (len slice + 1 - (idx + 1))).
  assert (wf_slice h4 d') as W4d by (apply (wf_reslice h4 s2); try assumption; slia).
  apply returns_bind. eapply returns_eq; [apply copy_ok|].
  renorm d'. replace (Z.min (len slice + 1 - (idx + 1)) (len slice - idx)) with (len slice - idx) by lia.
  rewrite content_reslice_from by (try assumption; lia).
  assert (content h4 slice = c) as C4s.
  { unfold h4. rewrite content_write_other by assumption.
    unfold h3. rewrite content_alloc by exact W2s.
    unfold h2. rewrite content_write_other by assumption.
    apply content_alloc. exact Hwf. }
  rewrite C4s. rewrite take_ge by (rewrite length_drop; lia).
  apply returns_ret.
  assert (array_of h4 d' = array_of h4 s2) as Hsame by reflexivity.
  pose proof W4 as (_ & _ & _ & B4 & _). cbn [off cap] in B4.
  split.
  { apply wf_write; try assumption; try slia.
    rewrite Hsame, length_drop. slia. }
  split; [reflexivity|]. split; [reflexivity|].
  rewrite content_write_within; try assumption; try reflexivity;
    rewrite ?length_drop; try slia.
  rewrite C4.
  replace (Z.to_nat (off d' + 0 - off s2)) with (S (Z.to_nat idx)) by slia.
  apply insert_fill; lia.
Qed.

(** [Insert] at a valid position, whichever branch runs. *)
Lemma Insert_ok h slice idx item :
  wf_slice h slice -> len slice < max_int -> 0 <= idx <= len slice ->
  returns (Insert slice idx item) h (fun s2 h' =>
    wf_slice h' s2 /\ len s2 = len slice + 1 /\
    content h' s2 =
      take (Z.to_nat idx) (content h slice) ++ item :: drop (Z.to_nat idx) (content h slice)).
Proof.
  intros Hwf Hlen Hidx.
  destruct (decide (len slice + 1 <= cap slice)) as [Hfit | Hgrow].
  - eapply returns_weaken; [apply Insert_in_place; assumption|].
    cbv beta. intros s2 h' (W & L & _ & C). auto.
  - eapply returns_weaken; [apply Insert_alloc; try assumption; lia|].
    cbv beta. intros s2 h' (W & L & _ & C). auto.
Qed.

End InsertCorrect.

Section InsertPanics.

Context {A : Type} `{Zero A}.
Implicit Types (h : heap A).

Lemma add_max_int : add max_int 1 = min_int.
Proof. reflexivity. Qed.

(** Out of range, the first slice expression that mentions [idx] panics,
    in either branch. *)
Lemma Insert_out_of_range h slice idx item :
  wf_slice h slice -> len slice < max_int -> in_range idx ->
  idx < 0 \/ len slice < idx ->
  Insert slice idx item h = Panic.
Proof.
  intros Hwf Hlen Hidx Hout. pose proof Hwf as (Ho & Hl & Hc & Hb & Ha).
  unfold Insert. rewrite add_id by (unfold in_range, min_int; lia).
  destruct (Z.leb_spec (len slice + 1) (cap slice)) as [Hfit | Hgrow].
  - unfold bind at 1, lift at 1, slice_to.
    rewrite reslice_ok by lia.
    unfold bind at 1, lift at 1, slice_from at 1. cbn [len].
    destruct (decide (idx = max_int)) as [-> | Hnm].
    { rewrite add_max_int. rewrite reslice_panic; [reflexivity|].
      unfold min_int. lia. }
    rewrite add_id by (unfold in_range, min_int, max_int in *; lia).
    destruct (decide (idx = -1)) as [-> | Hn1].
    + rewrite reslice_ok by (cbn [cap]; lia).
      unfold bind at 1, lift at 1, slice_from.
      rewrite reslice_panic; [reflexivity | lia].
    + rewrite reslice_panic; [reflexivity|]. cbn [cap]. lia.
  - unfold bind at 1. rewrite make_ok by lia.
    unfold bind at 1, lift at 1, slice_to.
    rewrite reslice_panic; [reflexivity | lia].
Qed.

End InsertPanics.

(** C2.  [Insert] panics exactly when the index is negative or exceeds the
    length of the slice; an out-of-range call never produces a result, and
    an in-range call never panics.  The slice is well formed and one
    element can still be added to its length within [int]. *)
Theorem Insert_panics_iff_out_of_range {A : Type} `{Zero A}
    (h : heap A) (slice : Slice) (idx : Z) (item : A) :
  wf_slice h slice -> len slice < max_int -> in_range idx ->
  (Insert slice idx item h = Panic <-> (idx < 0 \/ len slice < idx)) /\
  (forall r, Insert slice idx item h = Ok r -> 0 <= idx <= len slice) /\
  (0 <= idx <= len slice -> exists r, Insert slice idx item h = Ok r).
Proof.
  intros Hwf Hlen Hidx.
  assert (0 <= idx <= len slice -> exists r, Insert slice idx item h = Ok r) as Hin.
  { intros Hr. destruct (Insert_ok h slice idx item Hwf Hlen Hr) as (s2 & h' & Heq & _).
    exists (s2, h'). exact Heq. }
  split; [split|split].
  - intros Hp. destruct (decide (0 <= idx <= len slice)) as [Hr | Hr]; [|lia].
    destruct (Hin Hr) as (r & Heq). congruence.
  - intros Hout. apply Insert_out_of_range; assumption.
  - intros r Hr. destruct (decide (0 <= idx <= len slice)) as [Hok | Hbad]; [exact Hok|].
    rewrite Insert_out_of_range in Hr by (try assumption; lia). discriminate.
  - exact Hin.
Qed.

Lemma Insert_panics_iff_out_of_range_witness :
  let h : heap Z := [[10; 20; 30; 0]] in
  let s := mkSlice (Some 0%nat) 0 3 4 in
  (Insert s 5 7 h = Panic <-> (5 < 0 \/ len s < 5)) /\
  (forall r, Insert s 5 7 h = Ok r -> 0 <= 5 <= len s) /\
  (0 <= 5 <= len s -> exists r, Insert s 5 7 h = Ok r).
Proof.
  intros h s.
  apply (Insert_panics_iff_out_of_range h s 5 7).
  - unfold wf_slice, max_int, h, s; cbn; repeat split; lia.
  - unfold s, max_int; cbn; lia.
  - unfold in_range, min_int, max_int; lia.
Defined.

(** C3.  At a valid position of a well-formed slice whose length can grow
    by one, [Insert] returns a slice one longer than its argument, holding
    [item] at [idx], the elements before [idx] where they were and those
    from [idx] on one place to the right. *)
Theorem Insert_inserts {A : Type} `{Zero A}
    (h : heap A) (slice : Slice) (idx : Z) (item : A) :
  wf_slice h slice -> len slice < max_int -> 0 <= idx <= len slice ->
  exists s2 h',
    Insert slice idx item h = Ok (s2, h') /\
    len s2 = len slice + 1 /\
    length (content h' s2) = S (length (content h slice)) /\
    content h' s2 !! Z.to_nat idx = Some item /\
    (forall k, (k < Z.to_nat idx)%nat ->
               content h' s2 !! k = content h slice !! k) /\
    (forall k, (Z.to_nat idx <= k)%nat ->
               content h' s2 !! S k = content h slice !! k).
Proof.
  intros Hwf Hlen Hidx.
  destruct (Insert_ok h slice idx item Hwf Hlen Hidx) as (s2 & h' & Heq & W & L & C).
  exists s2, h'. split; [exact Heq|]. split; [exact L|].
  assert (length (content h slice) = Z.to_nat (len slice)) as Hc
    by (apply content_length; exact Hwf).
  assert (length (take (Z.to_nat idx) (content h slice)) = Z.to_nat idx) as Ht
    by (rewrite length_take; lia).
  rewrite C. split; [|split; [|split]].
  - rewrite length_app. cbn [length]. rewrite Ht, length_drop. lia.
  - rewrite lookup_app_r by lia. rewrite Ht, Nat.sub_diag. reflexivity.
  - intros k Hk. rewrite lookup_app_l by lia. apply lookup_take_lt. exact Hk.
  - intros k Hk. rewrite lookup_app_r by lia. rewrite Ht.
    replace (S k - Z.to_nat idx)%nat with (S (k - Z.to_nat idx)) by lia.
    transitivity (drop (Z.to_nat idx) (content h slice) !! (k - Z.to_nat idx)%nat);
      [reflexivity|].
    rewrite lookup_drop. f_equal. lia.
Qed.

Lemma Insert_inserts_witness :
  let h : heap Z := [[10; 20; 30]] in
  let s := mkSlice (Some 0%nat) 0 3 3 in
  exists s2 h',
    Insert s 1 7 h = Ok (s2, h') /\
    len s2 = len s + 1 /\
    length (content h' s2) = S (length (content h s)) /\
    content h' s2 !! Z.to_nat 1 = Some 7 /\
    (forall k, (k < Z.to_nat 1)%nat -> content h' s2 !! k = content h s !! k) /\
    (forall k, (Z.to_nat 1 <= k)%nat -> content h' s2 !! S k = content h s !! k).
Proof.
  intros h s.
  apply (Insert_inserts h s 1 7).
  - unfold wf_slice, max_int, h, s; cbn; repeat split; lia.
  - unfold s, max_int; cbn; lia.
  - unfold s; cbn; lia.
Defined.

(** ** [Remove] *)

Section RemoveFacts.

Context {A : Type} `{Zero A} `{EqDecision A}.
Variable growcap : Z -> Z -> Z.
Implicit Types (h : heap A) (kept rest : list A).

(** Deleting element [i]: [append(slice[:i], slice[i+1:]...)] never needs
    to grow and shifts the tail one place to the left. *)
Lemma delete_at h slice kept x rest :
  wf_slice h slice -> content h slice = kept ++ x :: rest ->
  let i := Z.of_nat (length kept) in
  let lo := mkSlice (arr slice) (off slice + 0) (i - 0) (cap slice - 0) in
  let hi := mkSlice (arr slice) (off slice + (i + 1)) (len slice - (i + 1))
                    (cap slice - (i + 1)) in
  exists s1 h1,
    append_slice growcap lo hi h = Ok (s1, h1) /\
    wf_slice h1 s1 /\ content h1 s1 = kept ++ rest /\
    arr s1 = arr slice /\ off s1 = off slice /\ cap s1 = cap slice.
Proof.
  intros Hwf Hc i lo hi. pose proof Hwf as (Ho & Hl & Hcap & Hb & Ha).
  assert (length (content h slice) = Z.to_nat (len slice)) as Hlen
    by (apply content_length; exact Hwf).
  rewrite Hc, length_app in Hlen. cbn [length] in Hlen.
  assert (wf_slice h lo) as Wlo by (apply wf_reslice; [exact Hwf | lia | lia]).
  assert (content h lo = kept) as Clo.
  { unfold lo. rewrite content_reslice_to by (try assumption; unfold i; lia).
    rewrite Hc. apply take_app_length'. unfold i. lia. }
  assert (content h hi = rest) as Chi.
  { unfold hi. rewrite content_reslice_from by (try assumption; unfold i; lia).
    rewrite Hc. replace (kept ++ x :: rest) with ((kept ++ [x]) ++ rest)
      by (rewrite <- app_assoc; reflexivity).
    apply drop_app_length'. rewrite length_app. unfold i. cbn [length]. lia. }
  assert (len lo + Z.of_nat (length rest) <= cap lo) as Hfit by (unfold lo, i; cbn; lia).
  unfold append_slice. rewrite Chi.
  eexists _, _. split; [apply append_in_place; exact Hfit|].
  split; [apply wf_append_in_place; assumption|].
  split; [rewrite content_append_in_place by assumption; rewrite Clo; reflexivity|].
  unfold lo, i. cbn. repeat split; lia.
Qed.

(** Loop invariant: the slice holds the survivors [kept] of the part already
    scanned, followed by the part [rest] still to scan, and [i] is the
    length of [kept]. *)
Lemma Remove_loop_spec item rest :
  forall fuel kept slice h removed,
    wf_slice h slice -> content h slice = kept ++ rest ->
    (length rest < fuel)%nat ->
    0 <= removed -> removed + Z.of_nat (length rest) <= max_int ->
    returns (Remove_loop growcap fuel slice item (Z.of_nat (length kept)) removed) h
      (fun p h' =>
         wf_slice h' p.1 /\
         content h' p.1 = kept ++ filter (fun y => y <> item) rest /\
         p.2 = removed + Z.of_nat (length rest)
               - Z.of_nat (length (filter (fun y => y <> item) rest)) /\
         arr p.1 = arr slice /\ off p.1 = off slice /\ cap p.1 = cap slice /\
         (item ∉ rest -> p.1 = slice /\ p.2 = removed /\ h' = h)).
Proof.
  induction rest as [|x rest IH]; intros fuel kept slice h removed Hwf Hc Hfuel Hr Hmax.
  - destruct fuel as [|fuel]; [cbn in Hfuel; lia|]. cbn [Remove_loop].
    assert (length (content h slice) = Z.to_nat (len slice)) as Hlen
      by (apply content_length; exact Hwf).
    rewrite Hc, app_nil_r in Hlen. pose proof Hwf as (Ho & Hl & Hw).
    replace (Z.of_nat (length kept) <? len slice) with false
      by (symmetry; apply Z.ltb_ge; lia).
    apply returns_ret. cbn.
    split; [exact Hwf|]. split; [exact Hc|]. split; [lia|].
    repeat split; reflexivity.
  - destruct fuel as [|fuel]; [cbn in Hfuel; lia|]. cbn [Remove_loop].
    cbn [length] in Hfuel, Hmax.
    pose proof Hwf as (Ho & Hl & Hcap & Hb & Ha).
    assert (length (content h slice) = Z.to_nat (len slice)) as Hlen
      by (apply content_length; exact Hwf).
    rewrite Hc, length_app in Hlen. cbn [length] in Hlen.
    replace (Z.of_nat (length kept) <? len slice) with true
      by (symmetry; apply Z.ltb_lt; lia).
    apply returns_bind. apply index_spec; [exact Hwf | lia |].
    intros y Hy. rewrite Hc, Nat2Z.id, list_lookup_middle in Hy by reflexivity.
    injection Hy as <-.
    pose proof max_int_pos as Hmp.
    destruct (decide (x = item)) as [Heq | Hne].
    + rewrite bool_decide_eq_true_2 by exact Heq.
      rewrite (add_id removed) by (unfold in_range, min_int; lia).
      rewrite (add_id (Z.of_nat (length kept))) by (unfold in_range, min_int; lia).
      apply returns_bind. eapply returns_lift; [apply reslice_ok; lia|].
      apply returns_bind. eapply returns_lift; [apply reslice_ok; lia|].
      destruct (delete_at h slice kept x rest Hwf Hc)
        as (s1 & h1 & Happ & W1 & C1 & A1 & O1 & K1).
      apply returns_bind. eapply returns_eq; [exact Happ|].
      rewrite sub_id by (unfold in_range, min_int; lia).
      rewrite add_id by (unfold in_range, min_int; lia).
      replace (Z.of_nat (length kept) - 1 + 1) with (Z.of_nat (length kept)) by lia.
      eapply returns_weaken; [apply (IH fuel kept s1 h1 (removed + 1)); try assumption; lia|].
      cbv beta. intros p h' (W & C & R & Ar & Of & Ca & _).
      rewrite filter_cons_False by (intros Hx; apply Hx; exact Heq).
      split; [exact W|]. split; [exact C|].
      split; [rewrite R; cbn [length]; lia|].
      split; [congruence|]. split; [congruence|]. split; [congruence|].
      intros Hnotin. exfalso. apply Hnotin. subst x. apply list_elem_of_here.
    + rewrite bool_decide_eq_false_2 by exact Hne.
      rewrite add_id by (unfold in_range, min_int; lia).
      replace (Z.of_nat (length kept) + 1) with (Z.of_nat (length (kept ++ [x])))
        by (rewrite length_app; cbn [length]; lia).
      eapply returns_weaken;
        [apply (IH fuel (kept ++ [x]) slice h removed); try assumption; try lia;
         rewrite <- app_assoc; exact Hc|].
      cbv beta. intros p h' (W & C & R & Ar & Of & Ca & Un).
      rewrite filter_cons_True by exact Hne.
      split; [exact W|]. split; [rewrite C, <- app_assoc; reflexivity|].
      split; [rewrite R; cbn [length]; lia|].
      split; [exact Ar|]. split; [exact Of|]. split; [exact Ca|].
      intros Hnotin. apply Un. intros Hin. apply Hnotin.
      apply list_elem_of_further. exact Hin.
Qed.

End RemoveFacts.

(** C1.  On a well-formed slice [Remove] returns the elements different
    from [item] in their original order (so no occurrence of [item] is
    left, wherever the occurrences were), together with the number of
    elements dropped; the length of the result plus that number is the
    original length; when [item] does not occur, the slice and the store
    come back unchanged with count 0. *)
Theorem Remove_removes_every_occurrence {A : Type} `{Zero A} `{EqDecision A}
    (growcap : Z -> Z -> Z) (h : heap A) (slice : Slice) (item : A) :
  wf_slice h slice ->
  exists s' removed h',
    Remove growcap slice item h = Ok ((s', removed), h') /\
    content h' s' = filter (fun y => y <> item) (content h slice) /\
    (item ∉ content h' s') /\
    sublist (content h' s') (content h slice) /\
    len s' + removed = len slice /\
    Z.of_nat (length (content h' s')) + removed = Z.of_nat (length (content h slice)) /\
    (item ∉ content h slice -> s' = slice /\ removed = 0 /\ h' = h).
Proof.
  intros Hwf. pose proof Hwf as (Ho & Hl & Hcap & Hb & Ha).
  assert (length (content h slice) = Z.to_nat (len slice)) as Hlen
    by (apply content_length; exact Hwf).
  destruct (Remove_loop_spec growcap item (content h slice)
              (S (Z.to_nat (len slice))) [] slice h 0)
    as ([s' removed] & h' & Heq & W & C & R & _ & _ & _ & Un);
    [exact Hwf | reflexivity | lia | lia | lia |].
  cbn [fst snd app length] in *.
  pose proof (length_filter (fun y => y <> item) (content h slice)) as Hle.
  assert (length (content h' s') = Z.to_nat (len s')) as Hlen'
    by (apply content_length; exact W).
  destruct W as (_ & Hl' & _).
  exists s', removed, h'. split; [exact Heq|]. split; [exact C|].
  split; [rewrite C, list_elem_of_filter; intros [Hne _]; apply Hne; reflexivity|].
  split; [rewrite C; apply sublist_filter|].
  split; [rewrite C in Hlen'; lia|].
  split; [rewrite C; lia|].
  exact Un.
Qed.

Lemma Remove_removes_every_occurrence_witness :
  let h : heap Z := [[1; 1; 2; 1; 3; 1]] in
  let s := mkSlice (Some 0%nat) 0 6 6 in
  exists s' removed h',
    Remove (fun c n => n) s 1 h = Ok ((s', removed), h') /\
    content h' s' = filter (fun y => y <> 1) (content h s) /\
    (1 ∉ content h' s') /\
    sublist (content h' s') (content h s) /\
    len s' + removed = len s /\
    Z.of_nat (length (content h' s')) + removed = Z.of_nat (length (content h s)) /\
    (1 ∉ content h s -> s' = s /\ removed = 0 /\ h' = h).
Proof.
  intros h s.
  apply (Remove_removes_every_occurrence (fun c n => n) h s 1).
  unfold wf_slice, max_int, h, s; cbn; repeat split; lia.
Defined.

(** Adjacent matches and matches at the tail, run on the model. *)
Example Remove_adjacent_and_tail :
  let h : heap Z := [[1; 1; 2; 2; 3; 3; 1; 1]] in
  let s := mkSlice (Some 0%nat) 0 8 8 in
  match Remove (fun c n => n) s 1 h with
  | Ok ((s', removed), h') => content h' s' = [2; 2; 3; 3] /\ removed = 4
  | _ => False
  end.
Proof. vm_compute. split; reflexivity. Qed.

(** ** [Replace] *)

Section ReplaceFacts.

Context {A : Type} `{Zero A} `{EqDecision A}.
Implicit Types (h : heap A) (l done rest : list A).

(** The store after the loop: the scanned prefix is final, the rest is
    transformed by [replace_scan]; only the array of [in_] is written and
    nothing is allocated. *)
Lemma Replace_loop_spec in_ old new rest :
  forall fuel done h n,
    wf_slice h in_ -> content h in_ = done ++ rest ->
    (length rest < fuel)%nat ->
    returns (Replace_loop fuel in_ old new (Z.of_nat (length done)) n) h
      (fun _ h' =>
         wf_slice h' in_ /\
         content h' in_ = done ++ replace_scan old new n rest /\
         length h' = length h /\
         (forall t, arr t <> arr in_ -> content h' t = content h t)).
Proof.
  induction rest as [|x rest IH]; intros fuel done h n Hwf Hc Hfuel.
  - destruct fuel as [|fuel]; [cbn in Hfuel; lia|]. cbn [Replace_loop].
    assert (length (content h in_) = Z.to_nat (len in_)) as Hlen
      by (apply content_length; exact Hwf).
    rewrite Hc, app_nil_r in Hlen. pose proof Hwf as (Ho & Hl & Hw).
    replace (Z.of_nat (length done) <? len in_) with false
      by (symmetry; apply Z.ltb_ge; lia).
    apply returns_ret. cbn. auto.
  - destruct fuel as [|fuel]; [cbn in Hfuel; lia|]. cbn [Replace_loop].
    cbn [length] in Hfuel.
    pose proof Hwf as (Ho & Hl & Hcap & Hb & Ha).
    assert (length (content h in_) = Z.to_nat (len in_)) as Hlen
      by (apply content_length; exact Hwf).
    rewrite Hc, length_app in Hlen. cbn [length] in Hlen.
    replace (Z.of_nat (length done) <? len in_) with true
      by (symmetry; apply Z.ltb_lt; lia).
    apply returns_bind. apply index_spec; [exact Hwf | lia |].
    intros y Hy. rewrite Hc, Nat2Z.id, list_lookup_middle in Hy by reflexivity.
    injection Hy as <-.
    pose proof max_int_pos as Hmp.
    rewrite add_id by (unfold in_range, min_int; lia).
    replace (Z.of_nat (length done) + 1) with (Z.of_nat (length (done ++ [x])))
      by (rewrite length_app; cbn [length]; lia).
    cbn [replace_scan].
    destruct (bool_decide (x = old) && negb (n =? 0)).
    + apply returns_bind. eapply returns_eq; [apply store_ok; lia|].
      replace (Z.of_nat (length (done ++ [x]))) with (Z.of_nat (length (done ++ [new])))
        by (rewrite !length_app; reflexivity).
      assert (content (write h in_ (Z.of_nat (length done)) [new]) in_
              = (done ++ [new]) ++ rest) as Hc'.
      { rewrite content_store by (try assumption; lia).
        rewrite Hc, Nat2Z.id. rewrite insert_app_r_alt by lia.
        rewrite Nat.sub_diag. cbn. rewrite <- app_assoc. reflexivity. }
      eapply returns_weaken;
        [apply (IH fuel (done ++ [new]) _ (sub n 1));
         [apply wf_store; try assumption; lia | exact Hc' | lia]|].
      cbv beta. intros _ h' (W & C & L & F).
      split; [exact W|]. split; [rewrite C, <- app_assoc; reflexivity|].
      split; [rewrite L; apply write_length|].
      intros t Ht. rewrite F by exact Ht. apply content_write_other. exact Ht.
    + eapply returns_weaken;
        [apply (IH fuel (done ++ [x]) h n);
         [exact Hwf | rewrite <- app_assoc; exact Hc | lia]|].
      cbv beta. intros _ h' (W & C & L & F).
      split; [exact W|]. split; [rewrite C, <- app_assoc; reflexivity|].
      split; [exact L | exact F].
Qed.

(** *** [replace_scan] on lists *)

Lemma replace_scan_length old new l : forall n,
  length (replace_scan old new n l) = length l.
Proof.
  induction l as [|x l IH]; intros n; [reflexivity|]. cbn [replace_scan].
  destruct (bool_decide (x = old) && negb (n =? 0)); cbn [length]; rewrite IH; reflexivity.
Qed.

Lemma replace_scan_zero old new l : replace_scan old new 0 l = l.
Proof.
  induction l as [|x l IH]; [reflexivity|]. cbn [replace_scan].
  rewrite Z.eqb_refl, andb_false_r, IH. reflexivity.
Qed.

(** An element different from [old] is never modified, whatever [n]. *)
Lemma replace_scan_other old new l : forall n i x,
  l !! i = Some x -> x <> old -> replace_scan old new n l !! i = Some x.
Proof.
  induction l as [|y l IH]; intros n i x Hi Hne; [discriminate|].
  cbn [replace_scan]. destruct i as [|i]; cbn in Hi.
  - injection Hi as ->. rewrite bool_decide_eq_false_2 by exact Hne. reflexivity.
  - destruct (bool_decide (y = old) && negb (n =? 0)); cbn; apply IH; assumption.
Qed.

(** With a positive budget [n], an occurrence of [old] is replaced exactly
    when fewer than [n] occurrences precede it. *)
Lemma replace_scan_positive old new l : forall n i,
  0 <= n <= max_int -> l !! i = Some old ->
  replace_scan old new n l !! i =
    Some (if decide (Z.of_nat (occurrences old (take i l)) < n) then new else old).
Proof.
  induction l as [|y l IH]; intros n i Hn Hi; [discriminate|].
  cbn [replace_scan]. destruct i as [|i].
  - cbn in Hi. injection Hi as ->. rewrite bool_decide_eq_true_2 by reflexivity.
    cbn [take occurrences]. unfold occurrences. cbn.
    destruct (Z.eqb_spec n 0) as [-> | Hn0]; cbn.
    + rewrite decide_False by lia. reflexivity.
    + rewrite decide_True by lia. reflexivity.
  - change (l !! i = Some old) in Hi.
    cbn [take]. unfold occurrences. rewrite filter_cons.
    destruct (decide (y = old)) as [-> | Hne].
    + rewrite bool_decide_eq_true_2 by reflexivity. cbn [length].
      destruct (Z.eqb_spec n 0) as [-> | Hn0]; cbn [andb negb].
      * change ((old :: replace_scan old new 0 l) !! S i)
          with (replace_scan old new 0 l !! i).
        rewrite replace_scan_zero, Hi. rewrite decide_False by lia. reflexivity.
      * change ((new :: replace_scan old new (sub n 1) l) !! S i)
          with (replace_scan old new (sub n 1) l !! i).
        rewrite sub_id by (unfold in_range, min_int; lia).
        rewrite IH by (try assumption; lia). unfold occurrences.
        f_equal. repeat case_decide; try reflexivity; lia.
    + rewrite bool_decide_eq_false_2 by exact Hne. cbn [andb].
      change ((y :: replace_scan old new n l) !! S i)
        with (replace_scan old new n l !! i).
      rewrite IH by assumption. reflexivity.
Qed.

(** A negative counter that cannot wrap around within the list never
    reaches zero: every occurrence is replaced. *)
Lemma replace_scan_negative old new l : forall n,
  n < 0 -> min_int <= n - Z.of_nat (length l) ->
  replace_scan old new n l = (fun x => if decide (x = old) then new else x) <$> l.
Proof.
  induction l as [|y l IH]; intros n Hn Hmin; [reflexivity|].
  cbn [replace_scan fmap list_fmap]. cbn [length] in Hmin.
  replace (n =? 0) with false by (symmetry; apply Z.eqb_neq; lia).
  destruct (decide (y = old)) as [-> | Hne].
  - rewrite bool_decide_eq_true_2 by reflexivity. cbn [andb negb].
    rewrite sub_id by (unfold in_range, max_int; lia).
    f_equal. apply IH; lia.
  - rewrite bool_decide_eq_false_2 by exact Hne. cbn [andb].
    f_equal. apply IH; lia.
Qed.

End ReplaceFacts.

(** C6.  [Replace] rewrites the slice in place, scanning from the left: an
    element different from [old] is never modified; with [n = 0] the
    content is unchanged; with [n > 0] an occurrence of [old] becomes [new]
    exactly when fewer than [n] occurrences precede it, that is, the first
    [min n (occurrences old)] occurrences are replaced; with [n = -1] every
    occurrence is replaced, which is also what [ReplaceAll] does.  Nothing
    is allocated and slices onto other arrays keep their content. *)
Theorem Replace_replaces_first_n {A : Type} `{Zero A} `{EqDecision A}
    (h : heap A) (in_ : Slice) (old new : A) (n : Z) :
  wf_slice h in_ -> in_range n ->
  exists h',
    Replace in_ old new n h = Ok (tt, h') /\
    length (content h' in_) = length (content h in_) /\
    length h' = length h /\
    (forall t, arr t <> arr in_ -> content h' t = content h t) /\
    (forall i x, content h in_ !! i = Some x -> x <> old ->
                 content h' in_ !! i = Some x) /\
    (n = 0 -> content h' in_ = content h in_) /\
    (0 < n -> forall i, content h in_ !! i = Some old ->
       content h' in_ !! i =
         Some (if decide (Z.of_nat (occurrences old (take i (content h in_))) < n)
               then new else old)) /\
    (n = -1 ->
       content h' in_ = (fun x => if decide (x = old) then new else x) <$> content h in_ /\
       ReplaceAll in_ old new h = Ok (tt, h')).
Proof.
  intros Hwf Hn.
  assert (length (content h in_) = Z.to_nat (len in_)) as Hlen
    by (apply content_length; exact Hwf).
  pose proof Hwf as (Ho & Hl & Hcap & Hb & Ha).
  destruct (Replace_loop_spec in_ old new (content h in_)
              (S (Z.to_nat (len in_))) [] h n Hwf eq_refl)
    as ([] & h' & Heq & W & C & L & F); [lia|].
  cbn [app length] in *. change (Z.of_nat 0) with 0 in Heq.
  exists h'. split; [exact Heq|]. rewrite C.
  split; [apply replace_scan_length|]. split; [exact L|]. split; [exact F|].
  split; [intros i x Hi Hne; apply replace_scan_other; assumption|].
  split; [intros ->; apply replace_scan_zero|].
  split.
  - intros Hpos i Hi. apply replace_scan_positive; [|exact Hi].
    unfold in_range in Hn. lia.
  - intros ->. split.
    + apply replace_scan_negative; [lia|]. unfold min_int, max_int in *. lia.
    + exact Heq.
Qed.

Lemma Replace_replaces_first_n_witness :
  let h : heap Z := [[0; 3; 2; 3; 0; 3]] in
  let s := mkSlice (Some 0%nat) 0 6 6 in
  exists h',
    Replace s 3 4 2 h = Ok (tt, h') /\
    length (content h' s) = length (content h s) /\
    length h' = length h /\
    (forall t, arr t <> arr s -> content h' t = content h t) /\
    (forall i x, content h s !! i = Some x -> x <> 3 -> content h' s !! i = Some x) /\
    (2 = 0 -> content h' s = content h s) /\
    (0 < 2 -> forall i, content h s !! i = Some 3 ->
       content h' s !! i =
         Some (if decide (Z.of_nat (occurrences 3 (take i (content h s))) < 2)
               then 4 else 3)) /\
    (2 = -1 ->
       content h' s = (fun x => if decide (x = 3) then 4 else x) <$> content h s /\
       ReplaceAll s 3 4 h = Ok (tt, h')).
Proof.
  intros h s.
  apply (Replace_replaces_first_n h s 3 4 2).
  - unfold wf_slice, max_int, h, s; cbn; repeat split; lia.
  - unfold in_range, min_int, max_int; lia.
Defined.

(** The cases of the package's own test for [Replace], and [ReplaceAll]. *)
Example Replace_twice :
  let h : heap Z := [[0; 1; 2; 3; 0; 1; 2; 3; 0; 1; 2; 3]] in
  let s := mkSlice (Some 0%nat) 0 12 12 in
  match Replace s 3 4 2 h with
  | Ok (_, h') => content h' s = [0; 1; 2; 4; 0; 1; 2; 4; 0; 1; 2; 3]
  | _ => False
  end.
Proof. vm_compute. reflexivity. Qed.

Example ReplaceAll_all :
  let h : heap Z := [[0; 1; 2; 3; 0; 1; 2; 3; 0; 1; 2; 3]] in
  let s := mkSlice (Some 0%nat) 0 12 12 in
  match ReplaceAll s 3 4 h with
  | Ok (_, h') => content h' s = [0; 1; 2; 4; 0; 1; 2; 4; 0; 1; 2; 4]
  | _ => False
  end.
Proof. vm_compute. reflexivity. Qed.

(** ** [Filter], [FindAll], [Clone] *)

Section FilterFacts.

Context {A : Type} `{Zero A}.
Variable growcap : Z -> Z -> Z.
Hypothesis growcap_good : growcap_ok growcap.
Implicit Types (h : heap A) (done rest : list A).

(** Loop invariant: [res] is a non-nil slice onto an array other than that
    of [s], holding the elements of the scanned part that satisfy [fn]. *)
Lemma Filter_loop_spec s fn rest :
  forall fuel done res h,
    wf_slice h s -> wf_slice h res ->
    arr res <> arr s -> arr res <> None ->
    content h s = done ++ rest ->
    len res <= Z.of_nat (length done) ->
    (length rest < fuel)%nat ->
    returns (Filter_loop growcap fuel s fn (Z.of_nat (length done)) res) h
      (fun res' h' =>
         wf_slice h' res' /\ wf_slice h' s /\
         content h' s = content h s /\
         content h' res' = content h res ++ filter (fun x => fn x = true) rest /\
         arr res' <> None).
Proof.
  induction rest as [|x rest IH];
    intros fuel done res h Hwf Hres Hne Hnn Hc Hlr Hfuel.
  - destruct fuel as [|fuel]; [cbn in Hfuel; lia|]. cbn [Filter_loop].
    assert (length (content h s) = Z.to_nat (len s)) as Hlen
      by (apply content_length; exact Hwf).
    rewrite Hc, app_nil_r in Hlen. pose proof Hwf as (Ho & Hl & Hw).
    replace (Z.of_nat (length done) <? len s) with false
      by (symmetry; apply Z.ltb_ge; lia).
    apply returns_ret. cbn. rewrite app_nil_r. auto.
  - destruct fuel as [|fuel]; [cbn in Hfuel; lia|]. cbn [Filter_loop].
    cbn [length] in Hfuel.
    pose proof Hwf as (Ho & Hl & Hcap & Hb & Ha).
    assert (length (content h s) = Z.to_nat (len s)) as Hlen
      by (apply content_length; exact Hwf).
    rewrite Hc, length_app in Hlen. cbn [length] in Hlen.
    replace (Z.of_nat (length done) <? len s) with true
      by (symmetry; apply Z.ltb_lt; lia).
    assert (content h s !! Z.to_nat (Z.of_nat (length done)) = Some x) as Hx
      by (rewrite Hc, Nat2Z.id; apply list_lookup_middle; reflexivity).
    apply returns_bind. apply index_spec; [exact Hwf | lia |].
    intros y Hy. assert (y = x) as -> by congruence.
    pose proof max_int_pos as Hmp.
    rewrite add_id by (unfold in_range, min_int; lia).
    replace (Z.of_nat (length done) + 1) with (Z.of_nat (length (done ++ [x])))
      by (rewrite length_app; cbn [length]; lia).
    rewrite filter_cons.
    destruct (fn x) eqn:Hfn.
    + rewrite decide_True by reflexivity.
      apply returns_bind. apply index_spec; [exact Hwf | lia |].
      intros y Hy'. assert (y = x) as -> by congruence.
      apply returns_bind.
      eapply returns_weaken;
        [apply (append_spec growcap growcap_good h res [x] Hres); cbn [length]; lia|].
      cbv beta. intros res1 h1 (W1 & C1 & L1 & A1 & N1 & F1).
      destruct (F1 s Hwf (not_eq_sym Hne)) as (Ws1 & Cs1).
      eapply returns_weaken;
        [apply (IH fuel (done ++ [x]) res1 h1); try assumption|].
      * destruct A1 as [-> | ->]; [exact Hne|].
        apply not_eq_sym, wf_not_fresh. exact Hwf.
      * auto.
      * rewrite Cs1, Hc, <- app_assoc. reflexivity.
      * rewrite L1, length_app. cbn [length]. lia.
      * lia.
      * cbv beta. intros res' h' (W & Ws & Cs & C & N).
        split; [exact W|]. split; [exact Ws|]. split; [congruence|].
        split; [rewrite C, C1, <- app_assoc; reflexivity | exact N].
    + rewrite decide_False by discriminate.
      eapply returns_weaken;
        [apply (IH fuel (done ++ [x]) res h); try assumption|].
      * rewrite <- app_assoc. exact Hc.
      * rewrite length_app. lia.
      * lia.
      * cbv beta. auto.
Qed.

Lemma Filter_spec h s fn :
  wf_slice h s ->
  returns (Filter growcap s fn) h (fun res h' =>
    wf_slice h' res /\ wf_slice h' s /\ content h' s = content h s /\
    content h' res = filter (fun x => fn x = true) (content h s) /\
    is_nil res = false).
Proof.
  intros Hwf. unfold Filter. pose proof max_int_pos as Hmp.
  apply returns_bind. eapply returns_eq; [apply make_ok; lia|].
  assert (length (content h s) = Z.to_nat (len s)) as Hlen
    by (apply content_length; exact Hwf).
  eapply returns_weaken;
    [apply (Filter_loop_spec s fn (content h s) _ []); cbn [length app]|].
  - apply wf_alloc. exact Hwf.
  - apply wf_fresh; cbn [length]; lia.
  - cbn [arr]. apply not_eq_sym, wf_not_fresh. exact Hwf.
  - discriminate.
  - apply content_alloc. exact Hwf.
  - cbn [len]. lia.
  - lia.
  - cbv beta. intros res h' (W & Ws & Cs & C & N).
    split; [exact W|]. split; [exact Ws|].
    split; [rewrite Cs; apply content_alloc; exact Hwf|].
    split.
    + rewrite C, content_fresh. reflexivity.
    + unfold is_nil. destruct (arr res); [reflexivity | congruence].
Qed.

(** [FindAll] is the same code as [Filter], up to the names of its
    variables. *)
Lemma FindAll_eq_Filter slice fn : FindAll growcap slice fn = Filter growcap slice fn.
Proof. reflexivity. Qed.

Lemma FindAll_spec h slice fn :
  wf_slice h slice ->
  returns (FindAll growcap slice fn) h (fun res h' =>
    wf_slice h' res /\ wf_slice h' slice /\ content h' slice = content h slice /\
    content h' res = filter (fun x => fn x = true) (content h slice) /\
    is_nil res = false).
Proof. rewrite FindAll_eq_Filter. apply Filter_spec. Qed.

(** [Clone] hands a nil slice back as nil. *)
Lemma Clone_nil h slice :
  is_nil slice = true -> Clone slice h = Ok (nil_slice, h).
Proof. intros Hn. unfold Clone. rewrite Hn. reflexivity. Qed.

(** [Clone] of a non-nil slice is a non-nil slice in a fresh array with the
    same content. *)
Lemma Clone_spec h slice :
  wf_slice h slice -> is_nil slice = false ->
  returns (Clone slice) h (fun cloned h' =>
    wf_slice h' cloned /\ is_nil cloned = false /\
    arr cloned = Some (length h) /\
    content h' cloned = content h slice /\ content h' slice = content h slice).
Proof.
  intros Hwf Hn. pose proof Hwf as (Ho & Hl & Hcap & Hb & Ha).
  assert (length (content h slice) = Z.to_nat (len slice)) as Hlen
    by (apply content_length; exact Hwf).
  unfold Clone. rewrite Hn.
  apply returns_bind. eapply returns_eq; [apply make_ok; lia|].
  apply returns_bind. eapply returns_eq; [apply copy_ok|].
  apply returns_ret. cbn [len].
  rewrite Z.min_id, content_alloc by exact Hwf.
  rewrite take_ge by lia.
  set (cloned := mkSlice (Some (length h)) 0 (len slice) (len slice)).
  set (h1 := h ++ [replicate (Z.to_nat (len slice)) zero]).
  assert (wf_slice h1 cloned) as W1
    by (apply wf_fresh; rewrite ?length_replicate; lia).
  assert (arr slice <> arr cloned) as Hne by (apply wf_not_fresh; exact Hwf).
  assert (off cloned + 0 + Z.of_nat (length (content h slice))
          <= Z.of_nat (length (array_of h1 cloned))) as Hb1.
  { unfold h1, cloned. rewrite array_of_fresh, length_replicate. cbn [off]. lia. }
  split; [apply wf_write; try assumption; slia|].
  split; [reflexivity|]. split; [reflexivity|]. split.
  - rewrite content_write_within; try assumption; try reflexivity; try slia.
    replace (Z.to_nat (off cloned + 0 - off cloned)) with 0%nat by lia.
    unfold write_at. rewrite take_0. cbn [app].
    rewrite drop_ge; [apply app_nil_r|].
    rewrite content_length by exact W1. slia.
  - rewrite content_write_other by exact Hne. apply content_alloc. exact Hwf.
Qed.

End FilterFacts.

Lemma filter_none {A : Type} (fn : A -> bool) (l : list A) :
  (forall x, x ∈ l -> fn x = false) -> filter (fun x => fn x = true) l = [].
Proof.
  induction l as [|x l IH]; intros Hall; [reflexivity|].
  rewrite filter_cons_False.
  - apply IH. intros y Hy. apply Hall. apply list_elem_of_further. exact Hy.
  - rewrite (Hall x) by apply list_elem_of_here. discriminate.
Qed.

Lemma content_of_nil {A : Type} (h : heap A) (s : Slice) :
  is_nil s = true -> content h s = [].
Proof.
  unfold is_nil, content, array_of. destruct (arr s); [discriminate|].
  intros _. rewrite drop_nil. apply take_nil.
Qed.

Lemma growcap_exact_ok : growcap_ok (fun _ n => n).
Proof. intros c n Hn. lia. Qed.

(** C9.  [Filter] and [FindAll] always return a non-nil slice: it holds the
    elements that satisfy the predicate, and is empty (length 0) but still
    not nil when the input is nil or nothing matches.  [Clone] returns nil
    for a nil input. *)
Theorem Filter_FindAll_never_nil_Clone_keeps_nil {A : Type} `{Zero A}
    (growcap : Z -> Z -> Z) (h : heap A) (s : Slice) (fn : A -> bool) :
  growcap_ok growcap -> wf_slice h s ->
  (exists res h',
      Filter growcap s fn h = Ok (res, h') /\ is_nil res = false /\
      content h' res = filter (fun x => fn x = true) (content h s) /\
      (is_nil s = true \/ (forall x, x ∈ content h s -> fn x = false) ->
       len res = 0 /\ content h' res = [])) /\
  (exists res h',
      FindAll growcap s fn h = Ok (res, h') /\ is_nil res = false /\
      content h' res = filter (fun x => fn x = true) (content h s) /\
      (is_nil s = true \/ (forall x, x ∈ content h s -> fn x = false) ->
       len res = 0 /\ content h' res = [])) /\
  (is_nil s = true ->
   exists res, Clone s h = Ok (res, h) /\ is_nil res = true).
Proof.
  intros Hgc Hwf.
  assert (exists res h',
      Filter growcap s fn h = Ok (res, h') /\ is_nil res = false /\
      content h' res = filter (fun x => fn x = true) (content h s) /\
      (is_nil s = true \/ (forall x, x ∈ content h s -> fn x = false) ->
       len res = 0 /\ content h' res = [])) as HF.
  { destruct (Filter_spec growcap Hgc h s fn Hwf) as (res & h' & Heq & W & _ & _ & C & N).
    exists res, h'. split; [exact Heq|]. split; [exact N|]. split; [exact C|].
    intros Hempty.
    assert (content h' res = []) as Hnil.
    { rewrite C. destruct Hempty as [Hn | Hnone].
      - rewrite (content_of_nil h s Hn). reflexivity.
      - apply filter_none. exact Hnone. }
    split; [|exact Hnil].
    pose proof (content_length h' res W) as Hlen. rewrite Hnil in Hlen.
    destruct W as (_ & Hl & _). cbn [length] in Hlen. lia. }
  split; [exact HF|]. split; [rewrite FindAll_eq_Filter; exact HF|].
  intros Hn. exists nil_slice. split; [apply Clone_nil; exact Hn | reflexivity].
Qed.

Lemma Filter_FindAll_never_nil_Clone_keeps_nil_witness :
  let h : heap Z := [] in
  let fn := fun x : Z => 0 <? x in
  let gc := fun _ n : Z => n in
  (exists res h',
      Filter gc nil_slice fn h = Ok (res, h') /\ is_nil res = false /\
      content h' res = filter (fun x => fn x = true) (content h nil_slice) /\
      (is_nil nil_slice = true \/ (forall x, x ∈ content h nil_slice -> fn x = false) ->
       len res = 0 /\ content h' res = [])) /\
  (exists res h',
      FindAll gc nil_slice fn h = Ok (res, h') /\ is_nil res = false /\
      content h' res = filter (fun x => fn x = true) (content h nil_slice) /\
      (is_nil nil_slice = true \/ (forall x, x ∈ content h nil_slice -> fn x = false) ->
       len res = 0 /\ content h' res = [])) /\
  (is_nil nil_slice = true ->
   exists res, Clone nil_slice h = Ok (res, h) /\ is_nil res = true).
Proof.
  intros h fn gc.
  apply (Filter_FindAll_never_nil_Clone_keeps_nil gc h nil_slice fn).
  - intros c n Hn. unfold gc. lia.
  - unfold wf_slice, max_int, h; cbn; repeat split; lia.
Defined.

(** The nil cases, run on the model. *)
Example Filter_nil_is_empty_not_nil :
  Filter (fun _ n => n) nil_slice (fun x : Z => 0 <? x) [] =
  Ok (mkSlice (Some 0%nat) 0 0 0, [[]]).
Proof. reflexivity. Qed.

Example Clone_nil_is_nil : Clone nil_slice ([] : heap Z) = Ok (nil_slice, []).
Proof. reflexivity. Qed.

(** ** [TakeIf] *)

Section TakeIfFacts.

Context {A W : Type} `{Zero A}.
Implicit Types (h : heap A) (done rest : list A) (w : W).

Lemma TakeIf_loop_spec h slice pred (fn : A -> M W unit) rest :
  forall fuel done w,
    wf_slice h slice -> content h slice = done ++ rest ->
    (length rest < fuel)%nat ->
    TakeIf_loop fuel h slice pred fn (Z.of_nat (length done)) w =
    each fn (filter (fun x => pred x = true) rest) w.
Proof.
  induction rest as [|x rest IH]; intros fuel done w Hwf Hc Hfuel.
  - destruct fuel as [|fuel]; [cbn in Hfuel; lia|]. cbn [TakeIf_loop].
    assert (length (content h slice) = Z.to_nat (len slice)) as Hlen
      by (apply content_length; exact Hwf).
    rewrite Hc, app_nil_r in Hlen. pose proof Hwf as (Ho & Hl & Hw).
    replace (Z.of_nat (length done) <? len slice) with false
      by (symmetry; apply Z.ltb_ge; lia).
    reflexivity.
  - destruct fuel as [|fuel]; [cbn in Hfuel; lia|]. cbn [TakeIf_loop].
    cbn [length] in Hfuel.
    pose proof Hwf as (Ho & Hl & Hcap & Hb & Ha).
    assert (length (content h slice) = Z.to_nat (len slice)) as Hlen
      by (apply content_length; exact Hwf).
    rewrite Hc, length_app in Hlen. cbn [length] in Hlen.
    replace (Z.of_nat (length done) <? len slice) with true
      by (symmetry; apply Z.ltb_lt; lia).
    assert (get h slice (Z.of_nat (length done)) = Ok x) as Hget.
    { apply get_content; [exact Hwf | lia |].
      rewrite Hc, Nat2Z.id. apply list_lookup_middle. reflexivity. }
    pose proof max_int_pos as Hmp.
    rewrite add_id by (unfold in_range, min_int; lia).
    replace (Z.of_nat (length done) + 1) with (Z.of_nat (length (done ++ [x])))
      by (rewrite length_app; cbn [length]; lia).
    assert (content h slice = (done ++ [x]) ++ rest) as Hc'
      by (rewrite <- app_assoc; exact Hc).
    unfold bind at 1. rewrite Hget. cbn [lift]. rewrite filter_cons.
    destruct (pred x) eqn:Hp.
    + rewrite decide_True by reflexivity.
      unfold bind at 1. cbn [lift each].
      unfold bind. destruct (fn x w) as [[[] w']| |]; try reflexivity.
      apply IH; [exact Hwf | exact Hc' | lia].
    + rewrite decide_False by discriminate.
      apply IH; [exact Hwf | exact Hc' | lia].
Qed.

Lemma Each_loop_spec h r (fn : A -> M W unit) rest :
  forall fuel done w,
    wf_slice h r -> content h r = done ++ rest ->
    (length rest < fuel)%nat ->
    Each_loop fuel h r fn (Z.of_nat (length done)) w = each fn rest w.
Proof.
  induction rest as [|x rest IH]; intros fuel done w Hwf Hc Hfuel.
  - destruct fuel as [|fuel]; [cbn in Hfuel; lia|]. cbn [Each_loop].
    assert (length (content h r) = Z.to_nat (len r)) as Hlen
      by (apply content_length; exact Hwf).
    rewrite Hc, app_nil_r in Hlen. pose proof Hwf as (Ho & Hl & Hw).
    replace (Z.of_nat (length done) <? len r) with false
      by (symmetry; apply Z.ltb_ge; lia).
    reflexivity.
  - destruct fuel as [|fuel]; [cbn in Hfuel; lia|]. cbn [Each_loop].
    cbn [length] in Hfuel.
    pose proof Hwf as (Ho & Hl & Hcap & Hb & Ha).
    assert (length (content h r) = Z.to_nat (len r)) as Hlen
      by (apply content_length; exact Hwf).
    rewrite Hc, length_app in Hlen. cbn [length] in Hlen.
    replace (Z.of_nat (length done) <? len r) with true
      by (symmetry; apply Z.ltb_lt; lia).
    assert (get h r (Z.of_nat (length done)) = Ok x) as Hget.
    { apply get_content; [exact Hwf | lia |].
      rewrite Hc, Nat2Z.id. apply list_lookup_middle. reflexivity. }
    pose proof max_int_pos as Hmp.
    rewrite add_id by (unfold in_range, min_int; lia).
    replace (Z.of_nat (length done) + 1) with (Z.of_nat (length (done ++ [x])))
      by (rewrite length_app; cbn [length]; lia).
    unfold bind at 1. rewrite Hget. cbn [lift each].
    unfold bind. destruct (fn x w) as [[[] w']| |]; try reflexivity.
    apply IH; [exact Hwf | rewrite <- app_assoc; exact Hc | lia].
Qed.

End TakeIfFacts.

(** C10.  [TakeIf] calls [fn] on exactly the elements of the slice that
    satisfy [pred], once each and in slice order: its effect on the world of
    the callback is that of [fn] applied in turn to the list of those
    elements.  This is also the effect of building [Filter(slice, pred)]
    and calling [fn] on each of its elements; [TakeIf] itself does not
    touch the store. *)
Theorem TakeIf_is_each_of_Filter {A W : Type} `{Zero A}
    (growcap : Z -> Z -> Z) (h : heap A) (slice : Slice)
    (pred : A -> bool) (fn : A -> M W unit) (w : W) :
  growcap_ok growcap -> wf_slice h slice ->
  TakeIf h slice pred fn w =
    each fn (filter (fun x => pred x = true) (content h slice)) w /\
  TakeIf h slice pred fn w = FilterThenEach growcap h slice pred fn w.
Proof.
  intros Hgc Hwf.
  assert (length (content h slice) = Z.to_nat (len slice)) as Hlen
    by (apply content_length; exact Hwf).
  assert (TakeIf h slice pred fn w =
          each fn (filter (fun x => pred x = true) (content h slice)) w) as HT.
  { unfold TakeIf. apply (TakeIf_loop_spec h slice pred fn (content h slice) _ []);
      [exact Hwf | reflexivity | lia]. }
  split; [exact HT|]. rewrite HT. unfold FilterThenEach.
  destruct (Filter_spec growcap Hgc h slice pred Hwf) as (r & h' & Heq & W' & _ & _ & C & _).
  rewrite Heq. rewrite <- C. symmetry.
  apply (Each_loop_spec h' r fn (content h' r) _ []); [exact W' | reflexivity |].
  rewrite content_length by exact W'. lia.
Qed.

Lemma TakeIf_is_each_of_Filter_witness :
  let h : heap Z := [[5; -1; 7; 0; 9]] in
  let s := mkSlice (Some 0%nat) 0 5 5 in
  let pred := fun x : Z => 0 <? x in
  let fn := fun (x : Z) (log : list Z) => Ok (tt, log ++ [x]) in
  let gc := fun _ n : Z => n in
  TakeIf h s pred fn [] =
    each fn (filter (fun x => pred x = true) (content h s)) [] /\
  TakeIf h s pred fn [] = FilterThenEach gc h s pred fn [].
Proof.
  intros h s pred fn gc.
  apply (TakeIf_is_each_of_Filter gc h s pred fn []).
  - intros c n Hn. unfold gc. lia.
  - unfold wf_slice, max_int, h, s; cbn; repeat split; lia.
Defined.

(** With a callback that logs its argument, as in the package's test. *)
Example TakeIf_log :
  TakeIf (W := list Z) [[5; -1; 7; 0; 9]] (mkSlice (Some 0%nat) 0 5 5)
         (fun x => 0 <? x) (fun x log => Ok (tt, log ++ [x])) [] =
  Ok (tt, [5; 7; 9]).
Proof. reflexivity. Qed.

(** ** [Unique] *)

Section UniqueFacts.

Context {A : Type} `{Zero A} `{Countable A}.
Variable growcap : Z -> Z -> Z.
Implicit Types (h : heap A) (l done rest : list A) (seen : gset A).

(** *** The scan on lists *)

Lemma unique_scan_elem seen l x :
  x ∈ unique_scan seen l <-> (x ∉ seen) /\ x ∈ l.
Proof.
  revert seen. induction l as [|y l IH]; intros seen; cbn [unique_scan].
  - rewrite elem_of_nil. tauto.
  - destruct (decide (y ∈ seen)) as [Hin | Hout].
    + rewrite bool_decide_eq_true_2 by exact Hin.
      rewrite IH, elem_of_cons. split; [tauto|].
      intros [Hx [-> | Hl]]; [contradiction | tauto].
    + rewrite bool_decide_eq_false_2 by exact Hout.
      rewrite !elem_of_cons, IH, elem_of_union, elem_of_singleton.
      split.
      * intros [-> | [Hx Hl]]; [tauto|]. split; [tauto | right; exact Hl].
      * intros [Hx [-> | Hl]]; [left; reflexivity|].
        destruct (decide (x = y)) as [-> | Hne]; [left; reflexivity|].
        right. split; [intros [?|?]; contradiction | exact Hl].
Qed.

Lemma unique_scan_NoDup seen l : NoDup (unique_scan seen l).
Proof.
  revert seen. induction l as [|y l IH]; intros seen; cbn [unique_scan].
  - apply NoDup_nil_2.
  - destruct (bool_decide (y ∈ seen)); [apply IH|].
    apply NoDup_cons_2; [|apply IH].
    rewrite unique_scan_elem. intros [Hy _]. apply Hy.
    apply elem_of_union_l, elem_of_singleton. reflexivity.
Qed.

(** The scan leaves a duplicate-free list with no element in [seen] as it
    is. *)
Lemma unique_scan_id seen l :
  NoDup l -> (forall x, x ∈ l -> x ∉ seen) -> unique_scan seen l = l.
Proof.
  revert seen. induction l as [|y l IH]; intros seen Hnd Hdis; [reflexivity|].
  cbn [unique_scan]. apply NoDup_cons in Hnd as [Hy Hnd].
  rewrite bool_decide_eq_false_2 by (apply Hdis, list_elem_of_here).
  f_equal. apply IH; [exact Hnd|].
  intros x Hx. rewrite elem_of_union, elem_of_singleton.
  intros [-> | Hs]; [contradiction|].
  exact (Hdis x (list_elem_of_further _ _ _ Hx) Hs).
Qed.

Lemma unique_scan_sublist seen l : sublist (unique_scan seen l) l.
Proof.
  revert seen. induction l as [|y l IH]; intros seen; cbn [unique_scan].
  - apply sublist_nil.
  - destruct (bool_decide (y ∈ seen)).
    + apply sublist_cons. apply IH.
    + apply sublist_skip. apply IH.
Qed.

(** The scan computes the stable removal of duplicates, restricted to the
    values outside [seen]. *)
Lemma unique_scan_stable_dedup seen l :
  unique_scan seen l = filter (fun y => y ∉ seen) (stable_dedup l).
Proof.
  revert seen. induction l as [|x l IH]; intros seen; [reflexivity|].
  cbn [unique_scan stable_dedup]. rewrite filter_cons.
  destruct (decide (x ∈ seen)) as [Hin | Hout].
  - rewrite bool_decide_eq_true_2 by exact Hin.
    rewrite decide_False by tauto.
    rewrite IH, list_filter_filter. apply list_filter_iff.
    intros y. split; [|tauto]. intros Hy. split; [exact Hy | congruence].
  - rewrite bool_decide_eq_false_2 by exact Hout.
    rewrite decide_True by exact Hout. f_equal.
    rewrite IH, list_filter_filter. apply list_filter_iff.
    intros y. rewrite elem_of_union, elem_of_singleton. tauto.
Qed.

Lemma unique_scan_empty l : unique_scan ∅ l = stable_dedup l.
Proof.
  rewrite unique_scan_stable_dedup.
  induction (stable_dedup l) as [|x l' IH]; [reflexivity|].
  rewrite filter_cons_True by apply not_elem_of_empty. f_equal. exact IH.
Qed.

(** *** The loop *)

(** Loop invariant: [result] sits in its own array, which has room for
    every element of [in_]; it holds what the scan has kept so far. *)
Lemma Unique_loop_spec in_ rest :
  forall fuel done seen result h,
    wf_slice h in_ -> wf_slice h result ->
    arr result <> arr in_ ->
    content h in_ = done ++ rest ->
    len result <= Z.of_nat (length done) -> cap result = len in_ ->
    (length rest < fuel)%nat ->
    returns (Unique_loop growcap fuel in_ (Z.of_nat (length done)) seen result) h
      (fun result' h' =>
         wf_slice h' result' /\ wf_slice h' in_ /\
         content h' in_ = content h in_ /\
         content h' result' = content h result ++ unique_scan seen rest /\
         arr result' = arr result /\ length h' = length h).
Proof.
  induction rest as [|x rest IH];
    intros fuel done seen result h Hwf Hres Hne Hc Hlr Hcr Hfuel.
  - destruct fuel as [|fuel]; [cbn in Hfuel; lia|]. cbn [Unique_loop].
    assert (length (content h in_) = Z.to_nat (len in_)) as Hlen
      by (apply content_length; exact Hwf).
    rewrite Hc, app_nil_r in Hlen. pose proof Hwf as (Ho & Hl & Hw).
    replace (Z.of_nat (length done) <? len in_) with false
      by (symmetry; apply Z.ltb_ge; lia).
    apply returns_ret. cbn. rewrite app_nil_r. auto 10.
  - destruct fuel as [|fuel]; [cbn in Hfuel; lia|]. cbn [Unique_loop].
    cbn [length] in Hfuel.
    pose proof Hwf as (Ho & Hl & Hcap & Hb & Ha).
    assert (length (content h in_) = Z.to_nat (len in_)) as Hlen
      by (apply content_length; exact Hwf).
    rewrite Hc, length_app in Hlen. cbn [length] in Hlen.
    replace (Z.of_nat (length done) <? len in_) with true
      by (symmetry; apply Z.ltb_lt; lia).
    assert (content h in_ !! Z.to_nat (Z.of_nat (length done)) = Some x) as Hx
      by (rewrite Hc, Nat2Z.id; apply list_lookup_middle; reflexivity).
    apply returns_bind. apply index_spec; [exact Hwf | lia |].
    intros y Hy. assert (y = x) as -> by congruence.
    pose proof max_int_pos as Hmp.
    rewrite add_id by (unfold in_range, min_int; lia).
    replace (Z.of_nat (length done) + 1) with (Z.of_nat (length (done ++ [x])))
      by (rewrite length_app; cbn [length]; lia).
    cbn [unique_scan].
    destruct (bool_decide (x ∈ seen)).
    + eapply returns_weaken;
        [apply (IH fuel (done ++ [x]) seen result h); try assumption|].
      * rewrite <- app_assoc. exact Hc.
      * rewrite length_app. lia.
      * lia.
      * cbv beta. auto.
    + apply returns_bind.
      eapply returns_weaken;
        [apply (append_fits_spec growcap h result [x] Hres); cbn [length]; lia|].
      cbv beta. intros res1 h1 (E1 & W1 & C1 & L1 & F1).
      destruct (F1 in_ Hwf (not_eq_sym Hne)) as (Ws1 & Cs1).
      eapply returns_weaken;
        [apply (IH fuel (done ++ [x]) ({[x]} ∪ seen) res1 h1); try assumption|].
      * rewrite E1. exact Hne.
      * rewrite Cs1, Hc, <- app_assoc. reflexivity.
      * rewrite E1, length_app. cbn [len length]. lia.
      * rewrite E1. exact Hcr.
      * lia.
      * cbv beta. intros res' h' (W & Ws & Cs & C & Ar & L).
        split; [exact W|]. split; [exact Ws|]. split; [congruence|].
        split; [rewrite C, C1, <- app_assoc; reflexivity|].
        split; [rewrite Ar, E1; reflexivity | congruence].
Qed.

Lemma Unique_spec h in_ :
  wf_slice h in_ ->
  returns (Unique growcap in_) h (fun result h' =>
    wf_slice h' result /\ wf_slice h' in_ /\
    content h' in_ = content h in_ /\
    content h' result = unique_scan ∅ (content h in_)).
Proof.
  intros Hwf. unfold Unique. pose proof Hwf as (Ho & Hl & Hcap & Hb & Ha).
  apply returns_bind. eapply returns_eq; [apply make_ok; lia|].
  assert (length (content h in_) = Z.to_nat (len in_)) as Hlen
    by (apply content_length; exact Hwf).
  eapply returns_weaken;
    [apply (Unique_loop_spec in_ (content h in_) _ []); cbn [length app]|].
  - apply wf_alloc. exact Hwf.
  - apply wf_fresh; rewrite ?length_replicate; lia.
  - cbn [arr]. apply not_eq_sym, wf_not_fresh. exact Hwf.
  - apply content_alloc. exact Hwf.
  - cbn [len]. lia.
  - reflexivity.
  - lia.
  - cbv beta. intros res h' (W & Ws & Cs & C & _ & _).
    split; [exact W|]. split; [exact Ws|].
    split; [rewrite Cs; apply content_alloc; exact Hwf|].
    rewrite C, content_fresh. reflexivity.
Qed.

End UniqueFacts.

(** C8.  [Unique] is idempotent on the content: applied to its own result
    it returns the same sequence.  Its result is the stable removal of
    duplicates of the input: no value twice, the same values as the input,
    each at its first occurrence and in the order of first appearance. *)
Theorem Unique_idempotent_stable {A : Type} `{Zero A} `{Countable A}
    (growcap : Z -> Z -> Z) (h : heap A) (in_ : Slice) :
  wf_slice h in_ ->
  exists r1 h1 r2 h2,
    Unique growcap in_ h = Ok (r1, h1) /\
    Unique growcap r1 h1 = Ok (r2, h2) /\
    content h2 r2 = content h1 r1 /\
    content h1 r1 = stable_dedup (content h in_) /\
    NoDup (content h1 r1) /\
    (forall x, x ∈ content h1 r1 <-> x ∈ content h in_) /\
    sublist (content h1 r1) (content h in_).
Proof.
  intros Hwf.
  destruct (Unique_spec growcap h in_ Hwf) as (r1 & h1 & E1 & W1 & _ & _ & C1).
  destruct (Unique_spec growcap h1 r1 W1) as (r2 & h2 & E2 & _ & _ & _ & C2).
  exists r1, h1, r2, h2. split; [exact E1|]. split; [exact E2|].
  split.
  { rewrite C2, C1. apply unique_scan_id; [apply unique_scan_NoDup|].
    intros x _. apply not_elem_of_empty. }
  split; [rewrite C1; apply unique_scan_empty|].
  split; [rewrite C1; apply unique_scan_NoDup|].
  split; [|rewrite C1; apply unique_scan_sublist].
  intros x. rewrite C1, unique_scan_elem. split; [tauto|].
  intros Hx. split; [apply not_elem_of_empty | exact Hx].
Qed.

Lemma Unique_idempotent_stable_witness :
  let h : heap Z := [[3; 1; 3; 2; 1; 3]] in
  let s := mkSlice (Some 0%nat) 0 6 6 in
  let gc := fun _ n : Z => n in
  exists r1 h1 r2 h2,
    Unique gc s h = Ok (r1, h1) /\
    Unique gc r1 h1 = Ok (r2, h2) /\
    content h2 r2 = content h1 r1 /\
    content h1 r1 = stable_dedup (content h s) /\
    NoDup (content h1 r1) /\
    (forall x, x ∈ content h1 r1 <-> x ∈ content h s) /\
    sublist (content h1 r1) (content h s).
Proof.
  intros h s gc.
  apply (Unique_idempotent_stable gc h s).
  unfold wf_slice, max_int, h, s; cbn; repeat split; lia.
Defined.

Example Unique_first_occurrences :
  match Unique (fun _ n => n) (mkSlice (Some 0%nat) 0 6 6) [[3; 1; 3; 2; 1; 3]] with
  | Ok (r, h') => content h' r = [3; 1; 2]
  | _ => False
  end.
Proof. vm_compute. reflexivity. Qed.

(** ** [Zip] *)

Section ZipFacts.

Context {T U : Type} `{Zero T} `{Zero U}.
Variable growcap : Z -> Z -> Z.
Implicit Types (hl : heap T) (hr : heap U) (hp : heap (Pair T U)).

Lemma Zip_loop_spec hl hr left right restl :
  forall restr fuel donel doner pairs hp,
    wf_slice hl left -> wf_slice hr right -> wf_slice hp pairs ->
    content hl left = donel ++ restl -> content hr right = doner ++ restr ->
    length donel = length doner -> length restl = length restr ->
    len pairs = Z.of_nat (length donel) -> cap pairs = len left ->
    (length restl < fuel)%nat ->
    returns (Zip_loop growcap fuel hl hr left right (Z.of_nat (length donel)) pairs) hp
      (fun pairs' hp' =>
         wf_slice hp' pairs' /\
         content hp' pairs' = content hp pairs ++ zip_with mkPair restl restr /\
         len pairs' = len left).
Proof.
  induction restl as [|x restl IH];
    intros restr fuel donel doner pairs hp Wl Wr Wp Cl Cr Hd Hrest Hlp Hcp Hfuel.
  - destruct fuel as [|fuel]; [cbn in Hfuel; lia|]. cbn [Zip_loop].
    assert (length (content hl left) = Z.to_nat (len left)) as Hlen
      by (apply content_length; exact Wl).
    rewrite Cl, app_nil_r in Hlen. pose proof Wl as (Ho & Hl & Hw).
    replace (Z.of_nat (length donel) <? len left) with false
      by (symmetry; apply Z.ltb_ge; lia).
    apply returns_ret. cbn. rewrite app_nil_r.
    split; [exact Wp|]. split; [reflexivity | lia].
  - destruct restr as [|y restr]; [discriminate|].
    destruct fuel as [|fuel]; [cbn in Hfuel; lia|]. cbn [Zip_loop].
    cbn [length] in Hfuel, Hrest.
    pose proof Wl as (Ho & Hl & Hcap & Hb & Ha).
    pose proof Wr as (Hor & Hlr & _).
    assert (length (content hl left) = Z.to_nat (len left)) as Hlen
      by (apply content_length; exact Wl).
    rewrite Cl, length_app in Hlen. cbn [length] in Hlen.
    assert (length (content hr right) = Z.to_nat (len right)) as Hlenr
      by (apply content_length; exact Wr).
    rewrite Cr, length_app in Hlenr. cbn [length] in Hlenr.
    replace (Z.of_nat (length donel) <? len left) with true
      by (symmetry; apply Z.ltb_lt; lia).
    assert (get hl left (Z.of_nat (length donel)) = Ok x) as Hgl.
    { apply get_content; [exact Wl | lia |].
      rewrite Cl, Nat2Z.id. apply list_lookup_middle. reflexivity. }
    assert (get hr right (Z.of_nat (length donel)) = Ok y) as Hgr.
    { apply get_content; [exact Wr | lia |].
      rewrite Cr, Nat2Z.id. apply list_lookup_middle. exact Hd. }
    apply returns_bind. eapply returns_lift; [exact Hgl|].
    apply returns_bind. eapply returns_lift; [exact Hgr|].
    apply returns_bind.
    eapply returns_weaken;
      [apply (append_fits_spec growcap hp pairs [mkPair x y] Wp); cbn [length]; lia|].
    cbv beta. intros p1 hp1 (E1 & W1 & C1 & _ & _).
    pose proof max_int_pos as Hmp.
    rewrite add_id by (unfold in_range, min_int; lia).
    replace (Z.of_nat (length donel) + 1) with (Z.of_nat (length (donel ++ [x])))
      by (rewrite length_app; cbn [length]; lia).
    eapply returns_weaken;
      [apply (IH restr fuel (donel ++ [x]) (doner ++ [y]) p1 hp1); try assumption|].
    + rewrite <- app_assoc. exact Cl.
    + rewrite <- app_assoc. exact Cr.
    + rewrite !length_app. cbn [length]. lia.
    + lia.
    + rewrite E1, length_app. cbn [len length]. lia.
    + rewrite E1. exact Hcp.
    + lia.
    + cbv beta. intros pairs' hp' (W & C & L).
      split; [exact W|]. split; [|exact L].
      rewrite C, C1, <- app_assoc. reflexivity.
Qed.

Lemma Zip_mismatch hl hr left right hp :
  len left <> len right -> Zip growcap hl hr left right hp = Panic.
Proof.
  intros Hne. unfold Zip.
  replace (len left =? len right) with false by (symmetry; apply Z.eqb_neq; exact Hne).
  reflexivity.
Qed.

Lemma Zip_spec hl hr left right hp :
  wf_slice hl left -> wf_slice hr right -> len left = len right ->
  returns (Zip growcap hl hr left right) hp (fun pairs hp' =>
    wf_slice hp' pairs /\ len pairs = len left /\
    content hp' pairs = zip_with mkPair (content hl left) (content hr right)).
Proof.
  intros Wl Wr Heq. unfold Zip. rewrite Heq, Z.eqb_refl. cbn [negb].
  rewrite <- Heq. pose proof Wl as (Ho & Hl & Hcap & Hb & Ha).
  assert (length (content hl left) = Z.to_nat (len left)) as Hlen
    by (apply content_length; exact Wl).
  assert (length (content hr right) = Z.to_nat (len right)) as Hlenr
    by (apply content_length; exact Wr).
  apply returns_bind. eapply returns_eq; [apply make_ok; lia|].
  eapply returns_weaken;
    [apply (Zip_loop_spec hl hr left right (content hl left) (content hr right) _ [] []);
     cbn [length app]; try assumption; try reflexivity|].
  - apply wf_fresh; rewrite ?length_replicate; lia.
  - lia.
  - lia.
  - cbv beta. intros pairs hp' (W & C & L).
    split; [exact W|]. split; [exact L|].
    rewrite C, content_fresh. reflexivity.
Qed.

End ZipFacts.

(** C5.  [Zip] panics exactly when the two slices differ in length.  When
    the lengths agree it returns a slice of that same length whose element
    at each index is the pair of the elements of [left] and [right] at that
    index. *)
Theorem Zip_strict {T U : Type} `{Zero T} `{Zero U}
    (growcap : Z -> Z -> Z) (hl : heap T) (hr : heap U)
    (left right : Slice) (hp : heap (Pair T U)) :
  wf_slice hl left -> wf_slice hr right ->
  (Zip growcap hl hr left right hp = Panic <-> len left <> len right) /\
  (len left = len right ->
   exists pairs hp',
     Zip growcap hl hr left right hp = Ok (pairs, hp') /\
     len pairs = len left /\
     length (content hp' pairs) = length (content hl left) /\
     forall i x y,
       content hl left !! i = Some x -> content hr right !! i = Some y ->
       content hp' pairs !! i = Some (mkPair x y)).
Proof.
  intros Wl Wr.
  assert (len left = len right ->
          exists pairs hp',
            Zip growcap hl hr left right hp = Ok (pairs, hp') /\
            len pairs = len left /\
            length (content hp' pairs) = length (content hl left) /\
            forall i x y,
              content hl left !! i = Some x -> content hr right !! i = Some y ->
              content hp' pairs !! i = Some (mkPair x y)) as Hok.
  { intros Heq.
    destruct (Zip_spec growcap hl hr left right hp Wl Wr Heq)
      as (pairs & hp' & E & W & L & C).
    exists pairs, hp'. split; [exact E|]. split; [exact L|].
    split.
    - rewrite (content_length hp' pairs W), (content_length hl left Wl), L. reflexivity.
    - intros i x y Hx Hy. rewrite C, lookup_zip_with, Hx, Hy. reflexivity. }
  split; [|exact Hok]. split.
  - intros Hp Heq. destruct (Hok Heq) as (pairs & hp' & E & _). congruence.
  - apply Zip_mismatch.
Qed.

Lemma Zip_strict_witness :
  let hl : heap Z := [[1; 2; 3]] in
  let hr : heap bool := [[true; false]] in
  let left := mkSlice (Some 0%nat) 0 3 3 in
  let right := mkSlice (Some 0%nat) 0 2 2 in
  let gc := fun _ n : Z => n in
  let hp : heap (Pair Z bool) := [] in
  (Zip (H0 := false) gc hl hr left right hp = Panic <-> len left <> len right) /\
  (len left = len right ->
   exists pairs hp',
     Zip (H0 := false) gc hl hr left right hp = Ok (pairs, hp') /\
     len pairs = len left /\
     length (content hp' pairs) = length (content hl left) /\
     forall i x y,
       content hl left !! i = Some x -> content hr right !! i = Some y ->
       content hp' pairs !! i = Some (mkPair x y)).
Proof.
  intros hl hr left right gc hp.
  apply (Zip_strict (H0 := false) gc hl hr left right hp).
  - unfold wf_slice, max_int, hl, left; cbn; repeat split; lia.
  - unfold wf_slice, max_int, hr, right; cbn; repeat split; lia.
Defined.

(** The cases of the package's own test: three against five panics, equal
    lengths pair up. *)
Example Zip_different_lengths :
  Zip (H0 := false) (fun _ n => n) [[1; 2; 3]] [[true; false; true; true; false]]
      (mkSlice (Some 0%nat) 0 3 3) (mkSlice (Some 0%nat) 0 5 5) [] = Panic.
Proof. reflexivity. Qed.

Example Zip_equal_lengths :
  match Zip (H0 := false) (fun _ n => n) [[1; 2]] [[true; false]]
            (mkSlice (Some 0%nat) 0 2 2) (mkSlice (Some 0%nat) 0 2 2) [] with
  | Ok (pairs, hp') => content hp' pairs = [mkPair 1 true; mkPair 2 false]
  | _ => False
  end.
Proof. vm_compute. reflexivity. Qed.

(** ** [Chunk] and [Concat] *)

Section ChunkFacts.

Context {T : Type} `{Zero T}.
Variable growcap : Z -> Z -> Z.
Hypothesis growcap_good : growcap_ok growcap.
Variables (hT : heap T) (slice : Slice) (size : Z).
Hypothesis Wslice : wf_slice hT slice.
Hypothesis Hsize : 1 <= size <= max_int.
Hypothesis Hbound : len slice <= max_chunkable.

(** One chunk and what is left after it. *)
Lemma chunk_split (i end_ : Z) :
  0 <= i < len slice ->
  end_ = (if i + size >? len slice then len slice else i + size) ->
  content hT (mkSlice (arr slice) (off slice + i) (end_ - i) (cap slice - i))
    ++ drop (Z.to_nat (i + size)) (content hT slice)
  = drop (Z.to_nat i) (content hT slice).
Proof.
  intros Hi He. pose proof Wslice as (Ho & Hl & _).
  assert (length (content hT slice) = Z.to_nat (len slice)) as Hlen
    by (apply content_length; exact Wslice).
  destruct (Z.gtb_spec (i + size) (len slice)) as [Hgt | Hle]; subst end_.
  - rewrite content_reslice_from by (try assumption; lia).
    rewrite (drop_ge _ (Z.to_nat (i + size))) by lia. apply app_nil_r.
  - rewrite content_reslice by (try assumption; lia).
    replace (Z.to_nat (i + size)) with (Z.to_nat i + Z.to_nat (i + size - i))%nat by lia.
    rewrite <- drop_drop. apply take_drop.
Qed.

(** Loop invariant: the headers appended from [i] on are well formed in the
    store of [slice] and denote, in order, the content of [slice] from [i]
    on. *)
Lemma Chunk_loop_spec :
  forall fuel i chunks (hs : heap Slice),
    wf_slice hs chunks -> 0 <= i -> i = 0 \/ size <= i ->
    i < len slice + size -> len chunks <= i ->
    (Z.to_nat (len slice - i) < fuel)%nat ->
    returns (Chunk_loop growcap fuel slice size i chunks) hs
      (fun chunks' hs' =>
         wf_slice hs' chunks' /\
         exists new,
           content hs' chunks' = content hs chunks ++ new /\
           Forall (wf_slice hT) new /\
           contents hT new = drop (Z.to_nat i) (content hT slice)).
Proof.
  pose proof Wslice as (Ho & Hl & Hcap & Hb & Ha).
  assert (length (content hT slice) = Z.to_nat (len slice)) as Hlen
    by (apply content_length; exact Wslice).
  unfold max_chunkable in Hbound.
  induction fuel as [|fuel IH]; intros i chunks hs Wc Hi Hmul Hlt Hlc Hfuel; [lia|].
  cbn [Chunk_loop].
  destruct (Z.ltb_spec i (len slice)) as [Hin | Hout].
  - assert (in_range (i + size)) as Hr by (unfold in_range, min_int, max_int in *; lia).
    rewrite !add_id by exact Hr.
    set (end_ := if i + size >? len slice then len slice else i + size).
    assert (i < end_ <= len slice) as He
      by (unfold end_; destruct (Z.gtb_spec (i + size) (len slice)); lia).
    apply returns_bind. eapply returns_lift; [apply reslice_ok; lia|].
    set (c := mkSlice (arr slice) (off slice + i) (end_ - i) (cap slice - i)).
    assert (wf_slice hT c) as Wch by (apply wf_reslice; [exact Wslice | lia | lia]).
    apply returns_bind.
    eapply returns_weaken;
      [apply (append_spec growcap growcap_good hs chunks [c] Wc);
       cbn [length]; unfold max_int; lia|].
    cbv beta. intros chunks1 hs1 (W1 & C1 & L1 & _).
    eapply returns_weaken; [apply (IH (i + size) chunks1 hs1); try assumption; try lia|].
    + rewrite L1. cbn [length]. lia.
    + cbv beta. intros chunks' hs' (W' & new & C' & Fn & Cn).
      split; [exact W'|]. exists (c :: new).
      split; [rewrite C', C1, <- app_assoc; reflexivity|].
      split; [apply Forall_cons; split; assumption|].
      unfold contents in *. cbn [map concat]. rewrite Cn.
      apply chunk_split; [lia | reflexivity].
  - apply returns_ret. split; [exact Wc|]. exists [].
    split; [rewrite app_nil_r; reflexivity|]. split; [apply Forall_nil_2|].
    unfold contents. cbn [map concat]. symmetry. apply drop_ge. lia.
Qed.

Lemma Chunk_spec (hs : heap Slice) :
  returns (Chunk growcap slice size) hs (fun chunks hs' =>
    wf_slice hs' chunks /\
    Forall (wf_slice hT) (content hs' chunks) /\
    contents hT (content hs' chunks) = content hT slice).
Proof.
  pose proof Wslice as (Ho & Hl & Hcap & Hb & Ha).
  unfold Chunk. replace (size <? 1) with false by (symmetry; apply Z.ltb_ge; lia).
  pose proof max_int_pos as Hmp.
  apply returns_bind. eapply returns_eq; [apply make_ok; lia|].
  eapply returns_weaken; [apply Chunk_loop_spec; cbn [len]; try lia|].
  - apply wf_fresh; cbn [length]; lia.
  - cbv beta. intros chunks hs' (W & new & C & Fn & Cn).
    rewrite content_fresh in C. cbn in C. rewrite C.
    split; [exact W|]. split; [exact Fn | exact Cn].
Qed.

End ChunkFacts.

Section ConcatFacts.

Context {T : Type} `{Zero T}.
Implicit Types (h : heap T) (hs : heap Slice) (cs rest : list Slice).

Lemma total_len_contents h cs :
  Forall (wf_slice h) cs -> Z.of_nat (length (contents h cs)) = total_len cs.
Proof.
  induction 1 as [|s cs Ws _ IH]; [reflexivity|].
  unfold contents in *. cbn [map concat total_len foldr].
  rewrite length_app, Nat2Z.inj_add, IH.
  rewrite (content_length h s Ws). destruct Ws as (_ & Hl & _).
  unfold total_len. lia.
Qed.

Lemma total_len_nonneg h cs : Forall (wf_slice h) cs -> 0 <= total_len cs.
Proof. intros Hf. rewrite <- (total_len_contents h cs Hf). lia. Qed.

(** The first loop of [Concat] adds up the lengths. *)
Lemma Concat_size_spec h hs slices rest :
  forall fuel done acc,
    wf_slice hs slices -> content hs slices = done ++ rest ->
    Forall (wf_slice h) rest ->
    0 <= acc -> acc + total_len rest <= max_int ->
    (length rest < fuel)%nat ->
    Concat_size fuel hs slices (Z.of_nat (length done)) acc = Ok (acc + total_len rest).
Proof.
  induction rest as [|s rest IH]; intros fuel done acc Ws Hc Hf Hacc Hmax Hfuel.
  - destruct fuel as [|fuel]; [cbn in Hfuel; lia|]. cbn [Concat_size].
    assert (length (content hs slices) = Z.to_nat (len slices)) as Hlen
      by (apply content_length; exact Ws).
    rewrite Hc, app_nil_r in Hlen. pose proof Ws as (Ho & Hl & Hw).
    replace (Z.of_nat (length done) <? len slices) with false
      by (symmetry; apply Z.ltb_ge; lia).
    cbn. f_equal. lia.
  - destruct fuel as [|fuel]; [cbn in Hfuel; lia|]. cbn [Concat_size].
    cbn [length] in Hfuel. cbn [total_len foldr] in *. fold (total_len rest) in *.
    apply Forall_cons in Hf as [Wsl Hf].
    pose proof (total_len_nonneg h rest Hf) as Hnn.
    pose proof Wsl as (_ & Hls & _).
    pose proof Ws as (Ho & Hl & Hcap & _).
    assert (length (content hs slices) = Z.to_nat (len slices)) as Hlen
      by (apply content_length; exact Ws).
    rewrite Hc, length_app in Hlen. cbn [length] in Hlen.
    replace (Z.of_nat (length done) <? len slices) with true
      by (symmetry; apply Z.ltb_lt; lia).
    rewrite (get_content hs slices _ s Ws);
      [| lia | rewrite Hc, Nat2Z.id; apply list_lookup_middle; reflexivity].
    pose proof max_int_pos as Hmp.
    rewrite !add_id by (unfold in_range, min_int; lia).
    replace (Z.of_nat (length done) + 1) with (Z.of_nat (length (done ++ [s])))
      by (rewrite length_app; cbn [length]; lia).
    rewrite (IH fuel (done ++ [s]) (acc + len s)); try assumption; try lia.
    + f_equal. lia.
    + rewrite <- app_assoc. exact Hc.
Qed.

(** The inner loop copies the elements of [s] into [newSlice] from index
    [i] on. *)
Lemma Concat_inner_spec newSlice s (rest : list T) :
  forall fuel ds filled tail h,
    wf_slice h s -> wf_slice h newSlice -> arr s <> arr newSlice ->
    content h s = ds ++ rest -> content h newSlice = filled ++ tail ->
    (length rest <= length tail)%nat -> (length rest < fuel)%nat ->
    returns (Concat_inner fuel newSlice s (Z.of_nat (length ds)) (Z.of_nat (length filled))) h
      (fun i' h' =>
         i' = Z.of_nat (length (filled ++ rest)) /\
         wf_slice h' newSlice /\
         content h' newSlice = (filled ++ rest) ++ drop (length rest) tail /\
         (forall t, arr t <> arr newSlice ->
                    content h' t = content h t /\ (wf_slice h t -> wf_slice h' t))).
Proof.
  induction rest as [|x rest IH];
    intros fuel ds filled tail h Ws Wn Hne Hc Hn Hroom Hfuel.
  - destruct fuel as [|fuel]; [cbn in Hfuel; lia|]. cbn [Concat_inner].
    assert (length (content h s) = Z.to_nat (len s)) as Hlen
      by (apply content_length; exact Ws).
    rewrite Hc, app_nil_r in Hlen. pose proof Ws as (Ho & Hl & Hw).
    replace (Z.of_nat (length ds) <? len s) with false
      by (symmetry; apply Z.ltb_ge; lia).
    apply returns_ret. rewrite app_nil_r. cbn [length drop].
    split; [reflexivity|]. split; [exact Wn|]. split; [exact Hn|]. auto.
  - destruct fuel as [|fuel]; [cbn in Hfuel; lia|]. cbn [Concat_inner].
    cbn [length] in Hfuel, Hroom.
    destruct tail as [|y tail]; [cbn in Hroom; lia|]. cbn [length] in Hroom.
    pose proof Ws as (Ho & Hl & Hcap & _).
    pose proof Wn as (Hon & Hln & Hcapn & _).
    assert (length (content h s) = Z.to_nat (len s)) as Hlen
      by (apply content_length; exact Ws).
    rewrite Hc, length_app in Hlen. cbn [length] in Hlen.
    assert (length (content h newSlice) = Z.to_nat (len newSlice)) as Hlenn
      by (apply content_length; exact Wn).
    rewrite Hn, length_app in Hlenn. cbn [length] in Hlenn.
    replace (Z.of_nat (length ds) <? len s) with true
      by (symmetry; apply Z.ltb_lt; lia).
    assert (content h s !! Z.to_nat (Z.of_nat (length ds)) = Some x) as Hx
      by (rewrite Hc, Nat2Z.id; apply list_lookup_middle; reflexivity).
    apply returns_bind. apply index_spec; [exact Ws | lia |].
    intros x' Hx'. assert (x' = x) as -> by congruence.
    apply returns_bind. eapply returns_eq; [apply store_ok; lia|].
    set (h1 := write h newSlice (Z.of_nat (length filled)) [x]).
    assert (wf_slice h1 newSlice) as Wn1 by (apply wf_store; try assumption; lia).
    assert (wf_slice h1 s) as Ws1 by (apply wf_store; try assumption; lia).
    assert (content h1 s = ds ++ x :: rest) as Hc1
      by (unfold h1; rewrite content_write_other by exact Hne; exact Hc).
    assert (content h1 newSlice = (filled ++ [x]) ++ tail) as Hn1.
    { unfold h1. rewrite content_store by (try assumption; lia).
      rewrite Hn, Nat2Z.id. rewrite insert_app_r_alt by lia.
      rewrite Nat.sub_diag. cbn. rewrite <- app_assoc. reflexivity. }
    pose proof max_int_pos as Hmp.
    rewrite !add_id by (unfold in_range, min_int; lia).
    replace (Z.of_nat (length ds) + 1) with (Z.of_nat (length (ds ++ [x])))
      by (rewrite length_app; cbn [length]; lia).
    replace (Z.of_nat (length filled) + 1) with (Z.of_nat (length (filled ++ [x])))
      by (rewrite length_app; cbn [length]; lia).
    eapply returns_weaken;
      [apply (IH fuel (ds ++ [x]) (filled ++ [x]) tail h1); try assumption; try lia;
       rewrite <- app_assoc; exact Hc1|].
    cbv beta. intros i' h' (Ei & W' & C' & F').
    split; [rewrite Ei, <- app_assoc; reflexivity|]. split; [exact W'|].
    split; [rewrite C', <- !app_assoc; reflexivity|].
    intros t Ht. destruct (F' t Ht) as (Ct & Wt). split.
    + rewrite Ct. apply content_write_other. exact Ht.
    + intros Wt0. apply Wt. apply wf_write_other; assumption.
Qed.

(** The outer loop copies the slices one after the other. *)
Lemma Concat_outer_spec hs slices newSlice rest :
  forall fuel done filled tail h,
    wf_slice hs slices -> content hs slices = done ++ rest ->
    Forall (fun t => wf_slice h t /\ arr t <> arr newSlice) rest ->
    wf_slice h newSlice -> content h newSlice = filled ++ tail ->
    length tail = length (contents h rest) ->
    (length rest < fuel)%nat ->
    returns (Concat_outer fuel hs slices newSlice
               (Z.of_nat (length done)) (Z.of_nat (length filled))) h
      (fun _ h' =>
         wf_slice h' newSlice /\
         content h' newSlice = filled ++ contents h rest /\
         (forall t, arr t <> arr newSlice ->
                    content h' t = content h t /\ (wf_slice h t -> wf_slice h' t))).
Proof.
  induction rest as [|s rest IH];
    intros fuel done filled tail h Ws Hc Hf Wn Hn Htail Hfuel.
  - destruct fuel as [|fuel]; [cbn in Hfuel; lia|]. cbn [Concat_outer].
    assert (length (content hs slices) = Z.to_nat (len slices)) as Hlen
      by (apply content_length; exact Ws).
    rewrite Hc, app_nil_r in Hlen. pose proof Ws as (Ho & Hl & Hw).
    replace (Z.of_nat (length done) <? len slices) with false
      by (symmetry; apply Z.ltb_ge; lia).
    apply returns_ret. unfold contents in *. cbn [map concat length] in *.
    destruct tail; [|discriminate].
    split; [exact Wn|]. split; [exact Hn|]. auto.
  - destruct fuel as [|fuel]; [cbn in Hfuel; lia|]. cbn [Concat_outer].
    cbn [length] in Hfuel.
    apply Forall_cons in Hf as [[Wsl Hne] Hf].
    pose proof Ws as (Ho & Hl & Hcap & _).
    assert (length (content hs slices) = Z.to_nat (len slices)) as Hlen
      by (apply content_length; exact Ws).
    rewrite Hc, length_app in Hlen. cbn [length] in Hlen.
    replace (Z.of_nat (length done) <? len slices) with true
      by (symmetry; apply Z.ltb_lt; lia).
    apply returns_bind. eapply returns_lift.
    { apply get_content; [exact Ws | lia |].
      rewrite Hc, Nat2Z.id. apply list_lookup_middle. reflexivity. }
    unfold contents in Htail. cbn [map concat] in Htail.
    rewrite length_app in Htail. fold (contents h rest) in Htail.
    assert (length (content h s) = Z.to_nat (len s)) as Hlens
      by (apply content_length; exact Wsl).
    apply returns_bind.
    eapply returns_weaken;
      [apply (Concat_inner_spec newSlice s (content h s) _ [] filled tail h);
       try assumption; try reflexivity; lia|].
    cbv beta. intros i' h1 (Ei & Wn1 & Cn1 & F1).
    pose proof max_int_pos as Hmp.
    rewrite add_id by (unfold in_range, min_int; lia).
    replace (Z.of_nat (length done) + 1) with (Z.of_nat (length (done ++ [s])))
      by (rewrite length_app; cbn [length]; lia).
    rewrite Ei.
    assert (contents h1 rest = contents h rest) as Hsame.
    { unfold contents. f_equal. clear -Hf F1.
      induction Hf as [|t rest [_ Ht] _ IHf]; [reflexivity|].
      cbn [map]. rewrite IHf. f_equal. apply F1. exact Ht. }
    eapply returns_weaken;
      [apply (IH fuel (done ++ [s]) (filled ++ content h s)
                 (drop (length (content h s)) tail) h1); try assumption|].
    + rewrite <- app_assoc. exact Hc.
    + eapply Forall_impl; [exact Hf|]. cbv beta. intros t [Wt Ht].
      split; [apply F1; assumption | exact Ht].
    + rewrite Hsame, length_drop. lia.
    + lia.
    + cbv beta. intros _ h' (W' & C' & F').
      split; [exact W'|].
      split.
      { rewrite C', Hsame. unfold contents. cbn [map concat].
        rewrite <- app_assoc. reflexivity. }
      intros t Ht. destruct (F' t Ht) as (Ct & Wt). destruct (F1 t Ht) as (Ct1 & Wt1).
      split; [congruence | auto].
Qed.

Lemma contents_alloc h cs (l : list T) :
  Forall (wf_slice h) cs -> contents (h ++ [l]) cs = contents h cs.
Proof.
  intros Hf. unfold contents. f_equal.
  induction Hf as [|t cs Wt _ IHf]; [reflexivity|].
  cbn [map]. rewrite IHf. f_equal. apply content_alloc. exact Wt.
Qed.

(** [Concat] returns, in a fresh array, the elements of its arguments in
    order. *)
Lemma Concat_spec h hs slices :
  wf_slice hs slices -> Forall (wf_slice h) (content hs slices) ->
  total_len (content hs slices) <= max_int ->
  returns (Concat hs slices) h (fun newSlice h' =>
    wf_slice h' newSlice /\
    content h' newSlice = contents h (content hs slices) /\
    len newSlice = total_len (content hs slices)).
Proof.
  intros Ws Hf Hmax. unfold Concat.
  assert (length (content hs slices) = Z.to_nat (len slices)) as Hlen
    by (apply content_length; exact Ws).
  pose proof (total_len_nonneg h _ Hf) as Hnn.
  apply returns_bind. eapply returns_lift.
  { apply (Concat_size_spec h hs slices (content hs slices) _ [] 0);
      try assumption; try reflexivity; lia. }
  rewrite Z.add_0_l.
  set (n := total_len (content hs slices)) in *.
  apply returns_bind. eapply returns_eq; [apply make_ok; lia|].
  set (z := replicate (Z.to_nat n) zero).
  set (newSlice := mkSlice (Some (length h)) 0 n n).
  apply returns_bind.
  eapply returns_weaken;
    [apply (Concat_outer_spec hs slices newSlice (content hs slices) _ [] [] z (h ++ [z]));
     try assumption; try reflexivity|].
  - eapply Forall_impl; [exact Hf|]. cbv beta. intros t Wt.
    split; [apply wf_alloc; exact Wt | apply wf_not_fresh; exact Wt].
  - apply wf_fresh; unfold z; rewrite ?length_replicate; lia.
  - unfold newSlice. rewrite content_fresh. cbn [app]. apply take_ge.
    unfold z. rewrite length_replicate. lia.
  - assert (Forall (wf_slice (h ++ [z])) (content hs slices)) as Hf'
      by (eapply Forall_impl; [exact Hf|]; intros t Wt; apply wf_alloc; exact Wt).
    pose proof (total_len_contents _ _ Hf') as Ht. fold n in Ht.
    assert (length z = Z.to_nat n) as Hz by (unfold z; apply length_replicate).
    lia.
  - lia.
  - cbv beta. intros _ h' (W' & C' & _). apply returns_ret.
    split; [exact W'|]. split; [|reflexivity].
    rewrite C'. cbn [app]. apply contents_alloc. exact Hf.
Qed.

End ConcatFacts.

(** C4.  For a well-formed slice of at most [2^62] elements and a chunk
    size of at least 1, [Chunk] succeeds, [Concat] applied to the chunks
    succeeds, and the result holds exactly the elements of the slice in
    order; the chunks themselves denote, one after the other, the content
    of the slice.  (Beyond [2^62] elements [i + size] can leave the range
    of [int].) *)
Theorem Concat_Chunk_roundtrip {T : Type} `{Zero T}
    (growcap : Z -> Z -> Z) (hT : heap T) (slice : Slice) (size : Z)
    (hs : heap Slice) :
  growcap_ok growcap -> wf_slice hT slice ->
  1 <= size <= max_int -> len slice <= max_chunkable ->
  exists chunks hs' r hT',
    Chunk growcap slice size hs = Ok (chunks, hs') /\
    Concat hs' chunks hT = Ok (r, hT') /\
    content hT' r = content hT slice /\
    contents hT (content hs' chunks) = content hT slice.
Proof.
  intros Hgc Wslice Hsize Hbound.
  destruct (Chunk_spec growcap Hgc hT slice size Wslice Hsize Hbound hs)
    as (chunks & hs' & Ec & Wc & Fc & Cc).
  assert (total_len (content hs' chunks) <= max_int) as Hmax.
  { rewrite <- (total_len_contents hT _ Fc), Cc.
    rewrite (content_length hT slice Wslice).
    destruct Wslice as (_ & Hl & Hcap & _). lia. }
  destruct (Concat_spec hT hs' chunks Wc Fc Hmax) as (r & hT' & Er & _ & Cr & _).
  exists chunks, hs', r, hT'. split; [exact Ec|]. split; [exact Er|].
  split; [rewrite Cr; exact Cc | exact Cc].
Qed.

Lemma Concat_Chunk_roundtrip_witness :
  let hT : heap Z := [[1; 2; 3; 4; 5; 6; 7]] in
  let s := mkSlice (Some 0%nat) 0 7 7 in
  let gc := fun _ n : Z => n in
  exists chunks hs' r hT',
    Chunk gc s 3 [] = Ok (chunks, hs') /\
    Concat hs' chunks hT = Ok (r, hT') /\
    content hT' r = content hT s /\
    contents hT (content hs' chunks) = content hT s.
Proof.
  intros hT s gc.
  apply (Concat_Chunk_roundtrip gc hT s 3 []).
  - intros c n Hn. unfold gc. lia.
  - unfold wf_slice, max_int, hT, s; cbn; repeat split; lia.
  - unfold max_int. lia.
  - unfold max_chunkable, s. cbn. lia.
Defined.

(** The scenario of the specification: fifteen elements in chunks of
    four. *)
Example Chunk_fifteen_by_four :
  let hT : heap Z := [[1; 2; 3; 4; 5; 6; 7; 8; 9; 10; 11; 12; 13; 14; 15]] in
  match Chunk (fun _ n => n) (mkSlice (Some 0%nat) 0 15 15) 4 [] with
  | Ok (chunks, hs') =>
      map (content hT) (content hs' chunks) =
      [[1; 2; 3; 4]; [5; 6; 7; 8]; [9; 10; 11; 12]; [13; 14; 15]]
  | _ => False
  end.
Proof. vm_compute. reflexivity. Qed.

Example Chunk_size_zero_panics :
  Chunk (fun _ n => n) (mkSlice (Some 0%nat) 0 3 3) 0 [] = Panic.
Proof. reflexivity. Qed.

(** ** [ForEachParallel] *)

(** Reduce the projections of an explicit state. *)
Ltac pcbn :=
  cbn [queue chan_cap closed next producer_done workers wg world calls returned].

Tactic Notation "pcbn" "in" hyp(H) :=
  cbn [queue chan_cap closed next producer_done workers wg world calls returned] in H.

Section GoroutineFacts.

Context {T W : Type}.
Variables (h : heap T) (slice : Slice) (fn : T -> W -> W).
Variables (p : Z) (w0 : W).
Hypothesis Wslice : wf_slice h slice.
Hypothesis Hp : 1 <= p.
Hypothesis Hp4 : p * 4 <= max_int.

Local Abbreviation xs := (content h slice).
Local Abbreviation inv := (pool_inv slice fn xs p w0).
Local Abbreviation run_step := (step h slice fn).

(** *** Lists of workers *)

Lemma workers_split (ws : list (@worker T)) k wk :
  ws !! k = Some wk ->
  exists l1 l2, ws = l1 ++ wk :: l2 /\ forall wk', <[k := wk']> ws = l1 ++ wk' :: l2.
Proof.
  intros Hk. exists (take k ws), (drop (S k) ws). split.
  - symmetry. apply take_drop_middle. exact Hk.
  - intros wk'. apply insert_take_drop. apply lookup_lt_Some in Hk. exact Hk.
Qed.

Lemma inflight_middle (l1 l2 : list (@worker T)) wk :
  inflight (l1 ++ wk :: l2) = inflight l1 ++ payload wk ++ inflight l2.
Proof. unfold inflight. rewrite bind_app, bind_cons. reflexivity. Qed.

Lemma active_middle (l1 l2 : list (@worker T)) wk :
  active (l1 ++ wk :: l2) = (active l1 + alive wk + active l2)%nat.
Proof. unfold active. rewrite sum_list_with_app. cbn. lia. Qed.

Lemma active_le_length (ws : list (@worker T)) : (active ws <= length ws)%nat.
Proof.
  induction ws as [|wk ws IH]; [reflexivity|].
  unfold active in *. cbn. destruct wk; cbn; lia.
Qed.

Lemma active_zero (ws : list (@worker T)) :
  active ws = 0%nat -> Forall (fun wk => wk = Exited) ws.
Proof.
  induction ws as [|wk ws IH]; intros Ha; [apply Forall_nil_2|].
  unfold active in *. cbn in Ha.
  apply Forall_cons. split.
  - destruct wk; cbn in Ha; try lia. reflexivity.
  - apply IH. lia.
Qed.

Lemma active_pos (ws : list (@worker T)) :
  (0 < active ws)%nat -> exists k wk, ws !! k = Some wk /\ wk <> Exited.
Proof.
  induction ws as [|wk ws IH]; intros Ha; [cbn in Ha; lia|].
  destruct (decide (alive wk = 0%nat)) as [Hz | Hnz].
  - unfold active in *. cbn in Ha. destruct IH as (k & wk' & Hk & Hne); [lia|].
    exists (S k), wk'. split; [exact Hk | exact Hne].
  - exists 0%nat, wk. split; [reflexivity|]. intros ->. apply Hnz. reflexivity.
Qed.

Lemma active_replicate_receiving n :
  active (replicate n (@Receiving T)) = n.
Proof.
  induction n as [|n IH]; [reflexivity|].
  unfold active in *. cbn. rewrite IH. reflexivity.
Qed.

Lemma inflight_replicate_receiving n :
  inflight (replicate n (@Receiving T)) = [].
Proof. induction n as [|n IH]; [reflexivity | exact IH]. Qed.

(** *** The start *)

Lemma start_ok :
  @ForEachParallel_start T W slice p w0 =
  Ok {| queue := []; chan_cap := Z.min (p * 4) (len slice); closed := false;
        next := 0; producer_done := false;
        workers := replicate (Z.to_nat p) Receiving;
        wg := p; world := w0; calls := []; returned := false |}.
Proof.
  pose proof Wslice as (_ & Hl & _).
  unfold ForEachParallel_start.
  replace (p <? 1) with false by (symmetry; apply Z.ltb_ge; lia).
  unfold mul. rewrite wrap_id by (unfold in_range, min_int; lia).
  assert ((if p * 4 >? len slice then len slice else p * 4) = Z.min (p * 4) (len slice)) as ->
    by (destruct (Z.gtb_spec (p * 4) (len slice)); lia).
  replace (Z.min (p * 4) (len slice) <? 0) with false
    by (symmetry; apply Z.ltb_ge; lia).
  reflexivity.
Qed.

Lemma inv_start st :
  @ForEachParallel_start T W slice p w0 = Ok st -> inv st.
Proof.
  rewrite start_ok. intros [= <-]. pose proof Wslice as (_ & Hl & _).
  split; pcbn.
  - lia.
  - rewrite inflight_replicate_receiving. reflexivity.
  - reflexivity.
  - discriminate.
  - rewrite active_replicate_receiving. lia.
  - apply length_replicate.
  - intros Hin. apply elem_of_replicate_inv in Hin. discriminate.
  - reflexivity.
  - discriminate.
  - reflexivity.
Qed.

(** *** One step *)

Local Ltac rem_solve :=
  unfold remaining; pcbn;
  repeat match goal with
         | Hi : forall wk', <[_ := wk']> _ = _ |- _ => rewrite Hi
         | Hw : workers _ = _ |- _ => rewrite Hw
         | Hq : queue _ = _ |- _ => rewrite Hq
         | Hb : producer_done _ = _ |- _ => rewrite Hb
         | Hb : returned _ = _ |- _ => rewrite Hb
         end;
  rewrite ?inflight_middle, ?active_middle, ?length_app;
  cbn [length payload alive];
  repeat match goal with |- context [if ?b then _ else _] => destruct b end;
  lia.

(** Every step keeps the invariant and uses up one unit of [remaining]. *)
Lemma inv_step t st st' :
  inv st -> run_step t st = Some st' ->
  inv st' /\ S (remaining slice st') = remaining slice st.
Proof.
  intros [Inext Isent Iclosed Idone Iwg Iworkers Iexited Iworld Iret Icap] Hstep.
  pose proof Wslice as (_ & Hl & Hcap & _). pose proof max_int_pos as Hmp.
  destruct t as [|k|]; cbn [step] in Hstep.
  - (* producer *)
    unfold producer_step in Hstep.
    destruct (producer_done st) eqn:Hpd; [discriminate|].
    destruct (Z.ltb_spec (next st) (len slice)) as [Hlt | Hge].
    + destruct (Z.ltb_spec (Z.of_nat (length (queue st))) (chan_cap st)); [|discriminate].
      destruct (get_ok h slice (next st) Wslice) as (v & Hg & Hv); [lia|].
      rewrite Hg in Hstep. injection Hstep as <-.
      rewrite add_id by (unfold in_range, min_int; lia).
      split; [split; pcbn|].
      * lia.
      * replace (Z.to_nat (next st + 1)) with (S (Z.to_nat (next st))) by lia.
        rewrite (take_S_r _ _ _ Hv), Isent, <- !app_assoc. reflexivity.
      * exact Iclosed.
      * discriminate.
      * exact Iwg.
      * exact Iworkers.
      * intros Hin. destruct (Iexited Hin) as [Hc _]. congruence.
      * exact Iworld.
      * exact Iret.
      * exact Icap.
      * rem_solve.
    + injection Hstep as <-. split; [split; pcbn|]; try assumption; try reflexivity.
      * intros _. lia.
      * intros Hin. destruct (Iexited Hin) as [Hc _]. congruence.
      * rem_solve.
  - (* worker k *)
    unfold worker_step in Hstep.
    destruct (workers st !! k) as [wk|] eqn:Hk; [|discriminate].
    destruct (workers_split _ _ _ Hk) as (l1 & l2 & Hws & Hins).
    assert (forall wk', length (<[k := wk']> (workers st)) = Z.to_nat p) as Hlenw
      by (intros wk'; rewrite length_insert; exact Iworkers).
    destruct wk as [|v|]; [| |discriminate].
    + destruct (queue st) as [|v q] eqn:Hq.
      * destruct (closed st) eqn:Hc; [|discriminate]. injection Hstep as <-.
        assert (wg st >= 1) as Hwg1
          by (rewrite Iwg, Hws, active_middle; cbn; lia).
        pose proof (active_le_length (workers st)) as Hal.
        rewrite sub_id by (unfold in_range, min_int; rewrite Iwg in *; lia).
        split; [split; pcbn|].
        -- exact Inext.
        -- rewrite Hins. rewrite Hws in Isent.
           rewrite inflight_middle in *. exact Isent.
        -- congruence.
        -- exact Idone.
        -- rewrite Iwg, Hins, Hws, !active_middle. cbn. lia.
        -- apply Hlenw.
        -- intros _. split; reflexivity.
        -- exact Iworld.
        -- intros Hr. specialize (Iret Hr). lia.
        -- exact Icap.
        -- rem_solve.
      * injection Hstep as <-. split; [split; pcbn|].
        -- exact Inext.
        -- rewrite Hins. rewrite Hws in Isent.
           rewrite inflight_middle in *. cbn [payload] in *. rewrite Isent.
           solve_Permutation.
        -- exact Iclosed.
        -- exact Idone.
        -- rewrite Iwg, Hins, Hws, !active_middle. cbn. lia.
        -- apply Hlenw.
        -- rewrite Hins, elem_of_app, elem_of_cons. rewrite Hws, elem_of_app, elem_of_cons in Iexited.
           intros [Hin | [Hin | Hin]]; [|discriminate|].
           ++ destruct Iexited as [_ Hqe]; [left; exact Hin | discriminate].
           ++ destruct Iexited as [_ Hqe]; [right; right; exact Hin | discriminate].
        -- exact Iworld.
        -- exact Iret.
        -- exact Icap.
        -- rem_solve.
    + injection Hstep as <-. split; [split; pcbn|].
      * exact Inext.
      * rewrite Hins. rewrite Hws in Isent.
        rewrite inflight_middle in *. cbn [payload] in *. rewrite Isent.
        solve_Permutation.
      * exact Iclosed.
      * exact Idone.
      * rewrite Iwg, Hins, Hws, !active_middle. cbn. lia.
      * apply Hlenw.
      * rewrite Hins, elem_of_app, elem_of_cons. rewrite Hws, elem_of_app, elem_of_cons in Iexited.
        intros [Hin | [Hin | Hin]]; [|discriminate|]; apply Iexited; auto.
      * rewrite foldl_snoc, Iworld. reflexivity.
      * exact Iret.
      * exact Icap.
      * rem_solve.
  - (* the caller *)
    unfold main_step in Hstep.
    destruct (returned st) eqn:Hr; [discriminate|].
    destruct (Z.eqb_spec (wg st) 0) as [Hz | Hnz]; [|discriminate].
    injection Hstep as <-. split; [split; pcbn|]; try assumption.
    + intros _. exact Hz.
    + rem_solve.
Qed.

(** *** Runs *)

Lemma inv_exec sched : forall st, inv st -> inv (exec h slice fn sched st).
Proof.
  induction sched as [|t sched IH]; intros st Hinv; [exact Hinv|].
  cbn [exec]. destruct (run_step t st) as [st'|] eqn:Hs.
  - apply IH. eapply inv_step; eassumption.
  - apply IH. exact Hinv.
Qed.

Lemma steps_taken_bound sched : forall st,
  inv st ->
  (steps_taken h slice fn sched st + remaining slice (exec h slice fn sched st)
   = remaining slice st)%nat.
Proof.
  induction sched as [|t sched IH]; intros st Hinv; [reflexivity|].
  cbn [exec steps_taken]. destruct (run_step t st) as [st'|] eqn:Hs.
  - destruct (inv_step t st st' Hinv Hs) as [Hinv' Hrem].
    specialize (IH st' Hinv'). lia.
  - apply IH. exact Hinv.
Qed.

(** A state in which the call has not returned always has a goroutine that
    can move. *)
Lemma progress st :
  inv st -> returned st = false -> exists t st', run_step t st = Some st'.
Proof.
  intros [Inext Isent Iclosed Idone Iwg Iworkers Iexited Iworld Iret Icap] Hr.
  pose proof Wslice as (_ & Hl & Hcap & _).
  destruct (Z.eqb_spec (wg st) 0) as [Hz | Hnz].
  { exists Main. cbn. unfold main_step. rewrite Hr.
    replace (wg st =? 0) with true by (symmetry; apply Z.eqb_eq; exact Hz).
    eauto. }
  destruct (active_pos (workers st)) as (k & wk & Hk & Hne); [lia|].
  destruct wk as [|v|]; [| |congruence].
  - destruct (queue st) as [|v q] eqn:Hq.
    + destruct (closed st) eqn:Hc.
      * exists (Worker k). cbn. unfold worker_step. rewrite Hk, Hq, Hc. eauto.
      * exists Producer. cbn. unfold producer_step.
        rewrite <- Iclosed.
        destruct (Z.ltb_spec (next st) (len slice)) as [Hlt | Hge]; [|eauto].
        rewrite Hq. cbn [length].
        replace (Z.of_nat 0 <? chan_cap st) with true
          by (symmetry; apply Z.ltb_lt; lia).
        destruct (get_ok h slice (next st) Wslice) as (v & Hg & _); [lia|].
        rewrite Hg. eauto.
    + exists (Worker k). cbn. unfold worker_step. rewrite Hk, Hq. eauto.
  - exists (Worker k). cbn. unfold worker_step. rewrite Hk. eauto.
Qed.

(** When the call has returned, every element has been processed exactly
    once and no call of [fn] is under way. *)
Lemma returned_complete st :
  inv st -> returned st = true ->
  calls st ≡ₚ xs /\
  world st = foldl (fun w v => fn v w) w0 (calls st) /\
  Forall (fun wk => wk = Exited) (workers st) /\
  queue st = [].
Proof.
  intros [Inext Isent Iclosed Idone Iwg Iworkers Iexited Iworld Iret Icap] Hr.
  specialize (Iret Hr).
  assert (Forall (fun wk => wk = Exited) (workers st)) as Hall
    by (apply active_zero; lia).
  assert (Exited ∈ workers st) as Hin.
  { destruct (workers st) as [|wk ws] eqn:Hws; [cbn in Iworkers; lia|].
    apply Forall_cons in Hall as [-> _]. apply list_elem_of_here. }
  destruct (Iexited Hin) as [Hc Hq].
  assert (inflight (workers st) = []) as Hfl.
  { clear -Hall. induction Hall as [|wk ws -> _ IH]; [reflexivity | exact IH]. }
  rewrite Hfl, Hq, app_nil_r in Isent. cbn in Isent.
  rewrite Idone in Isent by congruence.
  rewrite take_ge in Isent by (rewrite content_length by exact Wslice; lia).
  split; [symmetry; exact Isent|]. split; [exact Iworld|]. split; [exact Hall | exact Hq].
Qed.

End GoroutineFacts.

Lemma foldl_constant_effect {T W : Type} (fn : T -> W -> W) (inc : W -> W) (l : list T) :
  (forall v w, fn v w = inc w) ->
  forall w0, foldl (fun w v => fn v w) w0 l = Nat.iter (length l) inc w0.
Proof.
  intros Hfn. induction l as [|x l IH]; intros w0; [reflexivity|].
  cbn [foldl length]. rewrite IH, Hfn. symmetry. apply Nat.iter_succ_r.
Qed.

(** C7.  For a well-formed slice and a parallelism of at least 1 (small
    enough for [parallelism * 4] to be an [int]), under every schedule of
    the goroutines:
    - in a state where [ForEachParallel] has returned, the completed calls
      of [fn] are the elements of the slice, each exactly once (a
      permutation of its content), every worker has left its loop, so no
      call is under way, and the channel is empty; the world is the effect
      of those calls in the order they were made, so a callback that
      increments a counter, whatever its argument, leaves it incremented
      [len(slice)] times;
    - in a state where it has not returned, some goroutine can take a
      step, and at most [3 * len(slice) + parallelism + 2] steps are taken
      in all, so the call does return. *)
Theorem ForEachParallel_calls_each_once_and_joins {T W : Type}
    (h : heap T) (slice : Slice) (fn : T -> W -> W) (parallelism : Z) (w0 : W) :
  wf_slice h slice -> 1 <= parallelism -> parallelism * 4 <= max_int ->
  forall sched,
  exists st0 st,
    ForEachParallel_start slice parallelism w0 = Ok st0 /\
    ForEachParallel h slice fn sched parallelism w0 = Ok st /\
    (returned st = true ->
       calls st ≡ₚ content h slice /\
       length (calls st) = Z.to_nat (len slice) /\
       world st = foldl (fun w v => fn v w) w0 (calls st) /\
       (forall inc, (forall v w, fn v w = inc w) ->
                    world st = Nat.iter (Z.to_nat (len slice)) inc w0) /\
       Forall (fun wk => wk = Exited) (workers st) /\
       queue st = []) /\
    (returned st = false -> exists t st', step h slice fn t st = Some st') /\
    (steps_taken h slice fn sched st0
     <= 3 * Z.to_nat (len slice) + Z.to_nat parallelism + 2)%nat.
Proof.
  intros Wslice Hp Hp4 sched.
  pose proof (start_ok h slice parallelism w0 Wslice Hp Hp4) as Hstart.
  eexists _, _. split; [exact Hstart|].
  unfold ForEachParallel. rewrite Hstart. split; [reflexivity|].
  pose proof (inv_start h slice fn parallelism w0 Wslice Hp Hp4 _ Hstart) as Hinv0.
  pose proof (inv_exec h slice fn parallelism w0 Wslice Hp Hp4 sched _ Hinv0) as Hinv.
  split; [|split].
  - intros Hr.
    destruct (returned_complete h slice fn parallelism w0 Wslice Hp _ Hinv Hr)
      as (Hperm & Hworld & Hall & Hq).
    assert (length (calls (exec h slice fn sched
              {| queue := []; chan_cap := Z.min (parallelism * 4) (len slice);
                 closed := false; next := 0; producer_done := false;
                 workers := replicate (Z.to_nat parallelism) Receiving;
                 wg := parallelism; world := w0; calls := []; returned := false |}))
            = Z.to_nat (len slice)) as Hlen
      by (rewrite Hperm; apply content_length; exact Wslice).
    split; [exact Hperm|]. split; [exact Hlen|]. split; [exact Hworld|].
    split; [|split; [exact Hall | exact Hq]].
    intros inc Hinc. rewrite Hworld, (foldl_constant_effect fn inc _ Hinc), Hlen.
    reflexivity.
  - intros Hr. exact (progress h slice fn parallelism w0 Wslice Hp _ Hinv Hr).
  - pose proof (steps_taken_bound h slice fn parallelism w0 Wslice Hp Hp4 sched _ Hinv0)
      as Hb.
    unfold remaining in Hb at 2.
    cbn [queue next producer_done workers returned length] in Hb.
    rewrite inflight_replicate_receiving, active_replicate_receiving in Hb.
    cbn [length] in Hb. rewrite Z.sub_0_r in Hb. lia.
Qed.

Lemma ForEachParallel_calls_each_once_and_joins_witness :
  let h : heap Z := [[1; 1; 1]] in
  let s := mkSlice (Some 0%nat) 0 3 3 in
  let fn := fun v total : Z => total + v in
  let sched := [Producer; Worker 1; Worker 1; Producer; Main] in
  exists st0 st,
    ForEachParallel_start s 2 0 = Ok st0 /\
    ForEachParallel h s fn sched 2 0 = Ok st /\
    (returned st = true ->
       calls st ≡ₚ content h s /\
       length (calls st) = Z.to_nat (len s) /\
       world st = foldl (fun w v => fn v w) 0 (calls st) /\
       (forall inc, (forall v w, fn v w = inc w) ->
                    world st = Nat.iter (Z.to_nat (len s)) inc 0) /\
       Forall (fun wk => wk = Exited) (workers st) /\
       queue st = []) /\
    (returned st = false -> exists t st', step h s fn t st = Some st') /\
    (steps_taken h s fn sched st0 <= 3 * Z.to_nat (len s) + Z.to_nat 2 + 2)%nat.
Proof.
  intros h s fn sched.
  apply (ForEachParallel_calls_each_once_and_joins h s fn 2 0).
  - unfold wf_slice, max_int, h, s; cbn; repeat split; lia.
  - lia.
  - unfold max_int. lia.
Defined.

(** Three elements, two workers, the goroutines taken in turn: the call
    returns with the counter at three. *)
Example ForEachParallel_round_robin :
  let h : heap Z := [[1; 1; 1]] in
  let s := mkSlice (Some 0%nat) 0 3 3 in
  let sched := concat (replicate 8 [Producer; Worker 0; Worker 1; Main]) in
  match ForEachParallel h s (fun v total => total + v) sched 2 0 with
  | Ok st => returned st = true /\ world st = 3 /\ calls st = [1; 1; 1]
  | _ => False
  end.
Proof. vm_compute. repeat split; reflexivity. Qed.

Example ForEachParallel_zero_parallelism_panics :
  ForEachParallel (W := Z) [[1; 1; 1]] (mkSlice (Some 0%nat) 0 3 3)
                  (fun v total => total + v) [] 0 0 = Panic.
Proof. reflexivity. Qed.

(** * Properties of the other functions *)

(** ** Scanning a slice *)

Section ScanFacts.

Context {A : Type} `{Zero A}.
Implicit Types (h : heap A) (done rest : list A).

Lemma index_ok h s i x : get h s i = Ok x -> index s i h = Ok (x, h).
Proof. intros Hg. unfold index. rewrite Hg. reflexivity. Qed.

(** At the end of the content the loop test fails. *)
Lemma scan_end h s done :
  wf_slice h s -> content h s = done ->
  (Z.of_nat (length done) <? len s) = false.
Proof.
  intros Hwf Hc. pose proof (content_length h s Hwf) as Hlen.
  rewrite Hc in Hlen. destruct Hwf as (_ & Hl & _).
  apply Z.ltb_ge. lia.
Qed.

(** Before the end the test succeeds, the element read is the next one of
    the content and the index moves on without wrapping. *)
Lemma scan_step h s done x rest :
  wf_slice h s -> content h s = done ++ x :: rest ->
  (Z.of_nat (length done) <? len s) = true /\
  get h s (Z.of_nat (length done)) = Ok x /\
  add (Z.of_nat (length done)) 1 = Z.of_nat (length (done ++ [x])) /\
  content h s = (done ++ [x]) ++ rest.
Proof.
  intros Hwf Hc. pose proof (content_length h s Hwf) as Hlen.
  rewrite Hc, length_app in Hlen. cbn [length] in Hlen.
  pose proof Hwf as (_ & Hl & Hcap & _). pose proof max_int_pos as Hmp.
  split; [apply Z.ltb_lt; lia|]. split.
  - apply get_content; [exact Hwf | lia |].
    rewrite Hc, Nat2Z.id. apply list_lookup_middle. reflexivity.
  - split.
    + rewrite add_id by (unfold in_range, min_int; lia).
      rewrite length_app. cbn [length]. lia.
    + rewrite <- app_assoc. exact Hc.
Qed.

(** What [append] guarantees besides [append_spec]: the store only grows,
    and a non-empty append never returns nil. *)
Lemma append_spec_full growcap h s (xs : list A) :
  growcap_ok growcap -> wf_slice h s ->
  len s + Z.of_nat (length xs) <= max_int ->
  returns (append growcap s xs) h (fun s' h' =>
    wf_slice h' s' /\
    content h' s' = content h s ++ xs /\
    len s' = len s + Z.of_nat (length xs) /\
    (arr s' = arr s \/ arr s' = Some (length h)) /\
    (xs <> [] -> arr s' <> None) /\
    (length h <= length h')%nat /\
    (forall t, wf_slice h t -> arr t <> arr s ->
               wf_slice h' t /\ content h' t = content h t)).
Proof.
  intros Hgc Hwf Hmax.
  destruct (append_spec growcap Hgc h s xs Hwf Hmax)
    as (s' & h' & Heq & W & C & L & Ar & _ & F).
  exists s', h'. split; [exact Heq|].
  split; [exact W|]. split; [exact C|]. split; [exact L|]. split; [exact Ar|].
  pose proof Hwf as (Ho & Hl & Hcap & Hb & Ha).
  unfold append in Heq.
  destruct (len s + Z.of_nat (length xs) <=? cap s) eqn:Hfit.
  - injection Heq as <- <-. cbn [arr]. split; [|split; [rewrite write_length; lia | exact F]].
    intros Hne Hnil. apply Z.leb_le in Hfit.
    unfold array_of in Hb. rewrite Hnil in Hb. cbn in Hb.
    destruct xs; [congruence | cbn [length] in Hfit; lia].
  - destruct (max_int <? len s + Z.of_nat (length xs)); [discriminate|].
    injection Heq as <- <-. cbn [arr].
    split; [discriminate|]. split; [rewrite length_app; lia | exact F].
Qed.

End ScanFacts.

(** ** [FindFirst], [Contains], [Count], [CountBy], [Index], [Reduce], [Equal] *)

Section ReadOnlyFacts.

Context {A : Type} `{Zero A}.
Implicit Types (h : heap A) (done rest : list A).

Lemma FindFirst_loop_spec h slice fn rest :
  forall fuel done res,
    wf_slice h slice -> content h slice = done ++ rest ->
    (length rest < fuel)%nat ->
    FindFirst_loop fuel slice fn (Z.of_nat (length done)) res h =
    Ok (match list_find (fun x => fn x = true) rest with
        | Some (_, x) => (x, true)
        | None => (res, false)
        end, h).
Proof.
  induction rest as [|x rest IH]; intros fuel done res Hwf Hc Hfuel;
    (destruct fuel as [|fuel]; [cbn in Hfuel; lia|]); cbn [FindFirst_loop].
  - rewrite app_nil_r in Hc. rewrite (scan_end h slice done Hwf Hc). reflexivity.
  - destruct (scan_step h slice done x rest Hwf Hc) as (Hlt & Hg & Hadd & Hc').
    rewrite Hlt. unfold bind at 1. rewrite (index_ok h slice _ x Hg).
    cbn [list_find]. destruct (fn x) eqn:Hfn.
    + rewrite decide_True by reflexivity.
      unfold bind. rewrite (index_ok h slice _ x Hg). reflexivity.
    + rewrite decide_False by discriminate.
      rewrite Hadd, (IH fuel (done ++ [x]) res Hwf Hc') by (cbn in Hfuel; lia).
      destruct (list_find (fun x0 => fn x0 = true) rest) as [[j y]|]; reflexivity.
Qed.

Lemma CountBy_loop_spec h in_ pred rest :
  forall fuel done count,
    wf_slice h in_ -> content h in_ = done ++ rest ->
    (length rest < fuel)%nat ->
    0 <= count -> count + Z.of_nat (length rest) <= max_int ->
    CountBy_loop fuel in_ pred (Z.of_nat (length done)) count h =
    Ok (count + Z.of_nat (length (filter (fun x => pred x = true) rest)), h).
Proof.
  induction rest as [|x rest IH]; intros fuel done count Hwf Hc Hfuel Hcnt Hmax;
    (destruct fuel as [|fuel]; [cbn in Hfuel; lia|]); cbn [CountBy_loop].
  - rewrite app_nil_r in Hc. rewrite (scan_end h in_ done Hwf Hc).
    cbn. unfold ret. do 2 f_equal. lia.
  - destruct (scan_step h in_ done x rest Hwf Hc) as (Hlt & Hg & Hadd & Hc').
    rewrite Hlt. unfold bind at 1. rewrite (index_ok h in_ _ x Hg).
    cbn [length] in Hmax, Hfuel. rewrite filter_cons, Hadd.
    destruct (pred x) eqn:Hp.
    + rewrite decide_True by reflexivity.
      rewrite add_id by (unfold in_range, min_int; lia).
      rewrite (IH fuel (done ++ [x]) (count + 1) Hwf Hc') by lia.
      cbn [length]. do 2 f_equal. lia.
    + rewrite decide_False by discriminate.
      rewrite (IH fuel (done ++ [x]) count Hwf Hc') by lia. reflexivity.
Qed.

Lemma Reduce_loop_spec {R : Type} h slice (accum : R -> A -> R) rest :
  forall fuel done val,
    wf_slice h slice -> content h slice = done ++ rest ->
    (length rest < fuel)%nat ->
    Reduce_loop fuel slice accum (Z.of_nat (length done)) val h =
    Ok (foldl accum val rest, h).
Proof.
  induction rest as [|x rest IH]; intros fuel done val Hwf Hc Hfuel;
    (destruct fuel as [|fuel]; [cbn in Hfuel; lia|]); cbn [Reduce_loop].
  - rewrite app_nil_r in Hc. rewrite (scan_end h slice done Hwf Hc). reflexivity.
  - destruct (scan_step h slice done x rest Hwf Hc) as (Hlt & Hg & Hadd & Hc').
    rewrite Hlt. unfold bind at 1. rewrite (index_ok h slice _ x Hg).
    rewrite Hadd. apply IH; [exact Hwf | exact Hc' | cbn in Hfuel; lia].
Qed.

Section ReadOnlyComparable.

Context `{EqDecision A}.

Lemma Contains_loop_spec h slice item rest :
  forall fuel done,
    wf_slice h slice -> content h slice = done ++ rest ->
    (length rest < fuel)%nat ->
    Contains_loop fuel slice item (Z.of_nat (length done)) h =
    Ok (bool_decide (item ∈ rest), h).
Proof.
  induction rest as [|x rest IH]; intros fuel done Hwf Hc Hfuel;
    (destruct fuel as [|fuel]; [cbn in Hfuel; lia|]); cbn [Contains_loop].
  - rewrite app_nil_r in Hc. rewrite (scan_end h slice done Hwf Hc).
    rewrite bool_decide_eq_false_2 by apply not_elem_of_nil. reflexivity.
  - destruct (scan_step h slice done x rest Hwf Hc) as (Hlt & Hg & Hadd & Hc').
    rewrite Hlt. unfold bind at 1. rewrite (index_ok h slice _ x Hg).
    destruct (decide (x = item)) as [-> | Hne].
    + rewrite bool_decide_eq_true_2 by reflexivity.
      rewrite bool_decide_eq_true_2 by apply list_elem_of_here. reflexivity.
    + rewrite bool_decide_eq_false_2 by exact Hne.
      rewrite Hadd, (IH fuel (done ++ [x]) Hwf Hc') by (cbn in Hfuel; lia).
      unfold ret. do 2 f_equal. apply bool_decide_ext.
      rewrite elem_of_cons. split; [tauto|]. intros [-> | Hin]; [contradiction | exact Hin].
Qed.

Lemma Count_loop_spec h slice item rest :
  forall fuel done count,
    wf_slice h slice -> content h slice = done ++ rest ->
    (length rest < fuel)%nat ->
    0 <= count -> count + Z.of_nat (length rest) <= max_int ->
    Count_loop fuel slice item (Z.of_nat (length done)) count h =
    Ok (count + Z.of_nat (occurrences item rest), h).
Proof.
  unfold occurrences.
  induction rest as [|x rest IH]; intros fuel done count Hwf Hc Hfuel Hcnt Hmax;
    (destruct fuel as [|fuel]; [cbn in Hfuel; lia|]); cbn [Count_loop].
  - rewrite app_nil_r in Hc. rewrite (scan_end h slice done Hwf Hc).
    cbn. unfold ret. do 2 f_equal. lia.
  - destruct (scan_step h slice done x rest Hwf Hc) as (Hlt & Hg & Hadd & Hc').
    rewrite Hlt. unfold bind at 1. rewrite (index_ok h slice _ x Hg).
    cbn [length] in Hmax, Hfuel. rewrite filter_cons, Hadd.
    destruct (decide (x = item)) as [Heq | Hne].
    + rewrite bool_decide_eq_true_2 by exact Heq.
      rewrite add_id by (unfold in_range, min_int; lia).
      rewrite (IH fuel (done ++ [x]) (count + 1) Hwf Hc') by lia.
      cbn [length]. do 2 f_equal. lia.
    + rewrite bool_decide_eq_false_2 by exact Hne.
      rewrite (IH fuel (done ++ [x]) count Hwf Hc') by lia. reflexivity.
Qed.

Lemma Index_loop_spec h slice item rest :
  forall fuel done,
    wf_slice h slice -> content h slice = done ++ rest ->
    (length rest < fuel)%nat ->
    Index_loop fuel slice item (Z.of_nat (length done)) h =
    Ok (match list_find (fun x => x = item) rest with
        | Some (j, _) => Z.of_nat (length done + j)
        | None => -1
        end, h).
Proof.
  induction rest as [|x rest IH]; intros fuel done Hwf Hc Hfuel;
    (destruct fuel as [|fuel]; [cbn in Hfuel; lia|]); cbn [Index_loop].
  - rewrite app_nil_r in Hc. rewrite (scan_end h slice done Hwf Hc). reflexivity.
  - destruct (scan_step h slice done x rest Hwf Hc) as (Hlt & Hg & Hadd & Hc').
    rewrite Hlt. unfold bind at 1. rewrite (index_ok h slice _ x Hg).
    cbn [list_find]. destruct (decide (x = item)) as [Heq | Hne].
    + rewrite bool_decide_eq_true_2 by exact Heq.
      unfold ret. rewrite Nat.add_0_r. reflexivity.
    + rewrite bool_decide_eq_false_2 by exact Hne.
      rewrite Hadd, (IH fuel (done ++ [x]) Hwf Hc') by (cbn in Hfuel; lia).
      destruct (list_find (fun x0 => x0 = item) rest) as [[j y]|]; [|reflexivity].
      cbn. do 2 f_equal. rewrite length_app. cbn [length]. lia.
Qed.

Lemma Equal_loop_spec h s1 s2 rest1 :
  forall rest2 fuel done1 done2,
    wf_slice h s1 -> wf_slice h s2 ->
    content h s1 = done1 ++ rest1 -> content h s2 = done2 ++ rest2 ->
    length done1 = length done2 -> length rest1 = length rest2 ->
    (length rest1 < fuel)%nat ->
    Equal_loop fuel s1 s2 (Z.of_nat (length done1)) h =
    Ok (bool_decide (rest1 = rest2), h).
Proof.
  induction rest1 as [|x rest1 IH];
    intros rest2 fuel done1 done2 W1 W2 C1 C2 Hd Hr Hfuel;
    (destruct fuel as [|fuel]; [cbn in Hfuel; lia|]); cbn [Equal_loop].
  - destruct rest2; [|discriminate].
    rewrite app_nil_r in C1. rewrite (scan_end h s1 done1 W1 C1). reflexivity.
  - destruct rest2 as [|y rest2]; [discriminate|].
    destruct (scan_step h s1 done1 x rest1 W1 C1) as (Hlt & Hg & Hadd & C1').
    destruct (scan_step h s2 done2 y rest2 W2 C2) as (_ & Hg2 & _ & C2').
    rewrite Hlt. unfold bind at 1. rewrite (index_ok h s1 _ x Hg).
    unfold bind at 1. rewrite Hd, (index_ok h s2 _ y Hg2), <- Hd.
    destruct (decide (x = y)) as [-> | Hne].
    + rewrite bool_decide_eq_true_2 by reflexivity. cbn [negb].
      rewrite Hadd.
      rewrite (IH rest2 fuel (done1 ++ [y]) (done2 ++ [y]) W1 W2 C1' C2');
        [| rewrite !length_app; cbn; lia | cbn in Hr; lia | cbn in Hfuel; lia].
      unfold ret. do 2 f_equal. apply bool_decide_ext.
      split; [intros ->; reflexivity | intros [= ->]; reflexivity].
    + rewrite bool_decide_eq_false_2 by exact Hne. cbn [negb].
      rewrite bool_decide_eq_false_2 by (intros [= Hxy _]; contradiction).
      reflexivity.
Qed.

End ReadOnlyComparable.

End ReadOnlyFacts.

(** Well-formedness of a concrete header in a concrete store. *)
Ltac wf_concrete := unfold wf_slice, max_int; cbn; repeat split; lia.

(** X1.  [FindFirst] leaves the store as it is and returns either the first
    element that satisfies the predicate, with [true] (no element before it
    satisfies the predicate), or the zero value with [false], which happens
    exactly when no element satisfies the predicate. *)
Theorem FindFirst_returns_first_match {A : Type} `{Zero A}
    (h : heap A) (slice : Slice) (fn : A -> bool) :
  wf_slice h slice ->
  exists v ok,
    FindFirst slice fn h = Ok ((v, ok), h) /\
    (ok = true ->
       exists i, content h slice !! i = Some v /\ fn v = true /\
                 forall j y, content h slice !! j = Some y -> (j < i)%nat -> fn y = false) /\
    (ok = false -> v = zero /\ forall y, y ∈ content h slice -> fn y = false).
Proof.
  intros Hwf. unfold FindFirst.
  pose proof (content_length h slice Hwf) as Hlen.
  rewrite (FindFirst_loop_spec h slice fn (content h slice) _ [] zero Hwf eq_refl) by lia.
  destruct (list_find (fun x => fn x = true) (content h slice)) as [[i x]|] eqn:Hf.
  - apply list_find_Some in Hf as (Hi & Hx & Hbefore).
    exists x, true. split; [reflexivity|]. split; [|discriminate].
    intros _. exists i. split; [exact Hi|]. split; [exact Hx|].
    intros j y Hj Hlt. specialize (Hbefore j y Hj Hlt).
    destruct (fn y); [contradiction Hbefore; reflexivity | reflexivity].
  - apply list_find_None in Hf.
    exists zero, false. split; [reflexivity|]. split; [discriminate|].
    intros _. split; [reflexivity|]. intros y Hy.
    rewrite Forall_forall in Hf. specialize (Hf y Hy).
    destruct (fn y); [contradiction Hf; reflexivity | reflexivity].
Qed.

Lemma FindFirst_returns_first_match_witness :
  let h : heap Z := [[-3; 0; 5; -1; 8]] in
  let s := mkSlice (Some 0%nat) 0 5 5 in
  let fn := fun x : Z => 0 <? x in
  exists v ok,
    FindFirst s fn h = Ok ((v, ok), h) /\
    (ok = true ->
       exists i, content h s !! i = Some v /\ fn v = true /\
                 forall j y, content h s !! j = Some y -> (j < i)%nat -> fn y = false) /\
    (ok = false -> v = zero /\ forall y, y ∈ content h s -> fn y = false).
Proof.
  intros h s fn. apply (FindFirst_returns_first_match h s fn). wf_concrete.
Defined.

(** X2.  [Contains] reports exactly whether the item occurs in the slice,
    and does not change the store. *)
Theorem Contains_iff_occurs {A : Type} `{Zero A} `{EqDecision A}
    (h : heap A) (slice : Slice) (item : A) :
  wf_slice h slice ->
  exists b, Contains slice item h = Ok (b, h) /\ (b = true <-> item ∈ content h slice).
Proof.
  intros Hwf. unfold Contains.
  pose proof (content_length h slice Hwf) as Hlen.
  rewrite (Contains_loop_spec h slice item (content h slice) _ [] Hwf eq_refl) by lia.
  eexists. split; [reflexivity|]. apply bool_decide_eq_true.
Qed.

Lemma Contains_iff_occurs_witness :
  let h : heap Z := [[4; 7; 9]] in
  let s := mkSlice (Some 0%nat) 0 3 3 in
  exists b, Contains s 7 h = Ok (b, h) /\ (b = true <-> 7 ∈ content h s).
Proof.
  intros h s. apply (Contains_iff_occurs h s 7). wf_concrete.
Defined.

(** X3.  [Count] returns the number of occurrences of the item, between 0
    and the length of the slice, and [CountBy] with the test [x == item]
    returns the same number. *)
Theorem Count_counts_occurrences {A : Type} `{Zero A} `{EqDecision A}
    (h : heap A) (slice : Slice) (item : A) :
  wf_slice h slice ->
  Count slice item h = Ok (Z.of_nat (occurrences item (content h slice)), h) /\
  CountBy slice (fun x => bool_decide (x = item)) h = Count slice item h /\
  0 <= Z.of_nat (occurrences item (content h slice)) <= len slice.
Proof.
  intros Hwf. pose proof (content_length h slice Hwf) as Hlen.
  pose proof Hwf as (_ & Hl & Hcap & _).
  assert (Count slice item h = Ok (Z.of_nat (occurrences item (content h slice)), h)) as HC.
  { unfold Count.
    rewrite (Count_loop_spec h slice item (content h slice) _ [] 0 Hwf eq_refl) by lia.
    reflexivity. }
  split; [exact HC|]. split.
  - rewrite HC. unfold CountBy.
    rewrite (CountBy_loop_spec h slice _ (content h slice) _ [] 0 Hwf eq_refl) by lia.
    unfold occurrences. do 2 f_equal. rewrite Z.add_0_l. do 2 f_equal.
    apply list_filter_iff. intros x. apply bool_decide_eq_true.
  - unfold occurrences.
    pose proof (length_filter (fun y => y = item) (content h slice)). lia.
Qed.

Lemma Count_counts_occurrences_witness :
  let h : heap Z := [[4; 7; 4; 4]] in
  let s := mkSlice (Some 0%nat) 0 4 4 in
  Count s 4 h = Ok (Z.of_nat (occurrences 4 (content h s)), h) /\
  CountBy s (fun x => bool_decide (x = 4)) h = Count s 4 h /\
  0 <= Z.of_nat (occurrences 4 (content h s)) <= len s.
Proof.
  intros h s. apply (Count_counts_occurrences h s 4). wf_concrete.
Defined.

(** X4.  [CountBy] returns the length of what [Filter] returns for the same
    predicate. *)
Theorem CountBy_is_length_of_Filter {A : Type} `{Zero A}
    (growcap : Z -> Z -> Z) (h : heap A) (s : Slice) (pred : A -> bool) :
  growcap_ok growcap -> wf_slice h s ->
  exists n res h',
    CountBy s pred h = Ok (n, h) /\
    Filter growcap s pred h = Ok (res, h') /\
    n = len res /\ n = Z.of_nat (length (content h' res)).
Proof.
  intros Hgc Hwf. pose proof (content_length h s Hwf) as Hlen.
  pose proof Hwf as (_ & Hl & Hcap & _).
  destruct (Filter_spec growcap Hgc h s pred Hwf) as (res & h' & Heq & W & _ & _ & C & _).
  pose proof (content_length h' res W) as Hlr. destruct W as (_ & Hlres & _).
  eexists _, res, h'. split.
  - unfold CountBy.
    rewrite (CountBy_loop_spec h s pred (content h s) _ [] 0 Hwf eq_refl) by lia.
    reflexivity.
  - split; [exact Heq|]. rewrite <- C. split; lia.
Qed.

Lemma CountBy_is_length_of_Filter_witness :
  let h : heap Z := [[-3; 0; 5; -1; 8]] in
  let s := mkSlice (Some 0%nat) 0 5 5 in
  let pred := fun x : Z => 0 <? x in
  let gc := fun _ n : Z => n in
  exists n res h',
    CountBy s pred h = Ok (n, h) /\
    Filter gc s pred h = Ok (res, h') /\
    n = len res /\ n = Z.of_nat (length (content h' res)).
Proof.
  intros h s pred gc. apply (CountBy_is_length_of_Filter gc h s pred).
  - intros c n Hn. unfold gc. lia.
  - wf_concrete.
Defined.

(** X5.  [Index] returns -1 exactly when the item does not occur;
    otherwise it returns a valid index that holds the item, and no smaller
    index holds it. *)
Theorem Index_first_or_minus_one {A : Type} `{Zero A} `{EqDecision A}
    (h : heap A) (slice : Slice) (item : A) :
  wf_slice h slice ->
  exists r,
    Index slice item h = Ok (r, h) /\
    (r = -1 <-> item ∉ content h slice) /\
    (r <> -1 ->
       0 <= r < len slice /\
       content h slice !! Z.to_nat r = Some item /\
       forall j, (j < Z.to_nat r)%nat -> content h slice !! j <> Some item).
Proof.
  intros Hwf. unfold Index. pose proof (content_length h slice Hwf) as Hlen.
  rewrite (Index_loop_spec h slice item (content h slice) _ [] Hwf eq_refl) by lia.
  destruct (list_find (fun x => x = item) (content h slice)) as [[i x]|] eqn:Hf.
  - apply list_find_Some in Hf as (Hi & -> & Hbefore).
    pose proof (lookup_lt_Some _ _ _ Hi) as Hlt.
    exists (Z.of_nat i). cbn [length Nat.add]. split; [reflexivity|]. split.
    + split; [lia|]. intros Hnot. exfalso. apply Hnot.
      apply list_elem_of_lookup_2 in Hi. exact Hi.
    + intros _. rewrite Nat2Z.id. split; [lia|]. split; [exact Hi|].
      intros j Hj Hjs. exact (Hbefore j item Hjs Hj eq_refl).
  - apply list_find_None in Hf. exists (-1). split; [reflexivity|]. split; [|congruence].
    split; [|reflexivity]. intros _ Hin.
    rewrite Forall_forall in Hf. exact (Hf item Hin eq_refl).
Qed.

Lemma Index_first_or_minus_one_witness :
  let h : heap Z := [[4; 7; 9; 7]] in
  let s := mkSlice (Some 0%nat) 0 4 4 in
  exists r,
    Index s 7 h = Ok (r, h) /\
    (r = -1 <-> 7 ∉ content h s) /\
    (r <> -1 ->
       0 <= r < len s /\
       content h s !! Z.to_nat r = Some 7 /\
       forall j, (j < Z.to_nat r)%nat -> content h s !! j <> Some 7).
Proof.
  intros h s. apply (Index_first_or_minus_one h s 7). wf_concrete.
Defined.

(** X6.  [Contains], [Index] and [Count] agree: the item is reported
    present exactly when its index is not -1 and exactly when its count is
    positive. *)
Theorem Contains_Index_Count_agree {A : Type} `{Zero A} `{EqDecision A}
    (h : heap A) (slice : Slice) (item : A) :
  wf_slice h slice ->
  exists b r n,
    Contains slice item h = Ok (b, h) /\
    Index slice item h = Ok (r, h) /\
    Count slice item h = Ok (n, h) /\
    (b = true <-> r <> -1) /\ (b = true <-> 0 < n).
Proof.
  intros Hwf. pose proof (content_length h slice Hwf) as Hlen.
  pose proof Hwf as (_ & Hl & Hcap & _).
  unfold Contains, Index, Count.
  rewrite (Contains_loop_spec h slice item (content h slice) _ [] Hwf eq_refl) by lia.
  rewrite (Index_loop_spec h slice item (content h slice) _ [] Hwf eq_refl) by lia.
  rewrite (Count_loop_spec h slice item (content h slice) _ [] 0 Hwf eq_refl) by lia.
  eexists _, _, _. split; [reflexivity|]. split; [reflexivity|]. split; [reflexivity|].
  rewrite bool_decide_eq_true. split.
  - destruct (list_find (fun x => x = item) (content h slice)) as [[i x]|] eqn:Hf.
    + apply list_find_Some in Hf as (Hi & -> & _). cbn [length Nat.add].
      split; [lia|]. intros _. apply list_elem_of_lookup_2 in Hi. exact Hi.
    + apply list_find_None in Hf. rewrite Forall_forall in Hf.
      split; [|congruence]. intros Hin. exfalso. exact (Hf item Hin eq_refl).
  - unfold occurrences. split.
    + intros Hin.
      assert (item ∈ filter (fun y => y = item) (content h slice)) as Hin'
        by (apply list_elem_of_filter; split; [reflexivity | exact Hin]).
      destruct (filter (fun y => y = item) (content h slice)); [|cbn; lia].
      apply elem_of_nil in Hin'. contradiction.
    + intros Hpos.
      destruct (filter (fun y => y = item) (content h slice)) as [|y l] eqn:Hfl; [cbn in Hpos; lia|].
      assert (y ∈ filter (fun y => y = item) (content h slice)) as Hy
        by (rewrite Hfl; apply list_elem_of_here).
      apply list_elem_of_filter in Hy as [-> Hy]. exact Hy.
Qed.

Lemma Contains_Index_Count_agree_witness :
  let h : heap Z := [[4; 7; 9; 7]] in
  let s := mkSlice (Some 0%nat) 0 4 4 in
  exists b r n,
    Contains s 7 h = Ok (b, h) /\
    Index s 7 h = Ok (r, h) /\
    Count s 7 h = Ok (n, h) /\
    (b = true <-> r <> -1) /\ (b = true <-> 0 < n).
Proof.
  intros h s. apply (Contains_Index_Count_agree h s 7). wf_concrete.
Defined.

(** X7.  [Reduce] is the left fold of the accumulator over the content,
    starting from the initial value; on a slice of length 0 it returns the
    initial value.  The store is unchanged. *)
Theorem Reduce_is_left_fold {A R : Type} `{Zero A}
    (h : heap A) (slice : Slice) (accum : R -> A -> R) (val : R) :
  wf_slice h slice ->
  Reduce slice accum val h = Ok (foldl accum val (content h slice), h) /\
  (len slice = 0 -> Reduce slice accum val h = Ok (val, h)).
Proof.
  intros Hwf. pose proof (content_length h slice Hwf) as Hlen.
  assert (Reduce slice accum val h = Ok (foldl accum val (content h slice), h)) as HR.
  { unfold Reduce.
    apply (Reduce_loop_spec h slice accum (content h slice) _ [] val Hwf eq_refl). lia. }
  split; [exact HR|]. intros Hz. rewrite HR, (content_nil h slice Hz). reflexivity.
Qed.

Lemma Reduce_is_left_fold_witness :
  let h : heap Z := [[1; 2; 3; 4]] in
  let s := mkSlice (Some 0%nat) 0 4 4 in
  let accum := fun (agg item : Z) => agg * 10 + item in
  Reduce s accum 42 h = Ok (foldl accum 42 (content h s), h) /\
  (len s = 0 -> Reduce s accum 42 h = Ok (42, h)).
Proof.
  intros h s accum. apply (Reduce_is_left_fold h s accum 42). wf_concrete.
Defined.

(** X8.  [Equal] returns [true] exactly when the two slices have the same
    elements in the same order; a nil slice and an empty one are equal.
    The store is unchanged. *)
Theorem Equal_iff_same_content {A : Type} `{Zero A} `{EqDecision A}
    (h : heap A) (s1 s2 : Slice) :
  wf_slice h s1 -> wf_slice h s2 ->
  exists b, Equal s1 s2 h = Ok (b, h) /\ (b = true <-> content h s1 = content h s2).
Proof.
  intros W1 W2. pose proof (content_length h s1 W1) as L1.
  pose proof (content_length h s2 W2) as L2.
  pose proof W1 as (_ & Hl1 & _). pose proof W2 as (_ & Hl2 & _).
  unfold Equal. destruct (Z.eqb_spec (len s1) (len s2)) as [Heq | Hne]; cbn [negb].
  - rewrite (Equal_loop_spec h s1 s2 (content h s1) (content h s2) _ [] [] W1 W2 eq_refl eq_refl)
      by (cbn; lia).
    eexists. split; [reflexivity|]. apply bool_decide_eq_true.
  - exists false. split; [reflexivity|]. split; [discriminate|].
    intros Hc. exfalso. apply Hne. rewrite Hc in L1. lia.
Qed.

Lemma Equal_iff_same_content_witness :
  let h : heap Z := [[1; 2; 3; 1; 2; 3]] in
  let s1 := mkSlice (Some 0%nat) 0 3 6 in
  let s2 := mkSlice (Some 0%nat) 3 3 3 in
  exists b, Equal s1 s2 h = Ok (b, h) /\ (b = true <-> content h s1 = content h s2).
Proof.
  intros h s1 s2. apply (Equal_iff_same_content h s1 s2); wf_concrete.
Defined.

Example Equal_nil_and_empty :
  Equal nil_slice (mkSlice (Some 0%nat) 0 0 0) ([[]] : heap Z) = Ok (true, [[]]).
Proof. reflexivity. Qed.

Section InPlaceFacts.

Context {A : Type} `{Zero A}.
Implicit Types (h : heap A).

Lemma write_lookup_other h s i xs (a : nat) :
  arr s <> Some a -> write h s i xs !! a = h !! a.
Proof.
  intros Hne. unfold write. destruct (arr s) as [b|]; [|reflexivity].
  apply list_lookup_insert_ne. congruence.
Qed.

Lemma frame_refl h s : frame h h s.
Proof. repeat split; intros; reflexivity. Qed.

Lemma frame_trans h1 h2 h3 s : frame h1 h2 s -> frame h2 h3 s -> frame h1 h3 s.
Proof.
  intros (L1 & O1 & A1 & K1) (L2 & O2 & A2 & K2).
  split; [congruence|]. split; [intros a Ha; rewrite (O2 a Ha); apply O1; exact Ha|].
  split; [congruence|]. intros k Hk. rewrite (K2 k Hk). apply K1. exact Hk.
Qed.

(** A slice whose elements lie outside [s] keeps its content. *)
Lemma frame_content h h' s t :
  frame h h' s -> wf_slice h t ->
  arr t <> arr s \/ off t + len t <= off s \/ off s + len s <= off t ->
  content h' t = content h t.
Proof.
  intros (L & O & AL & K) Wt Hdis.
  destruct (decide (arr t = arr s)) as [Heq | Hne].
  - destruct Hdis as [Hd | Hd]; [contradiction|].
    assert (array_of h' t = array_of h' s) as E1 by (unfold array_of; rewrite Heq; reflexivity).
    assert (array_of h t = array_of h s) as E2 by (unfold array_of; rewrite Heq; reflexivity).
    destruct Wt as (Ho & Hl & _).
    apply list_eq. intros k. rewrite !content_lookup, E1, E2.
    case_decide; [|reflexivity]. apply K. lia.
  - unfold content, array_of. destruct (arr t) as [a|]; [|reflexivity].
    rewrite O by congruence. reflexivity.
Qed.

(** When the content of [s] is also as before, the store is. *)
Lemma frame_same_content h h' s :
  frame h h' s -> wf_slice h s -> content h' s = content h s -> h' = h.
Proof.
  intros (L & O & AL & K) Hwf Hc.
  apply list_eq. intros a.
  destruct (decide (arr s = Some a)) as [Ha | Ha]; [|apply O; exact Ha].
  destruct Hwf as (Ho & Hl & _ & _ & Hlt). rewrite Ha in Hlt.
  destruct (lookup_lt_is_Some_2 h a Hlt) as [l Hl1].
  destruct (lookup_lt_is_Some_2 h' a ltac:(lia)) as [l' Hl2].
  rewrite Hl1, Hl2. f_equal.
  assert (array_of h s = l) as E1 by (unfold array_of; rewrite Ha, Hl1; reflexivity).
  assert (array_of h' s = l') as E2 by (unfold array_of; rewrite Ha, Hl2; reflexivity).
  rewrite E1, E2 in *. apply list_eq. intros k.
  destruct (decide (off s <= Z.of_nat k < off s + len s)) as [Hin | Hout]; [|apply K; exact Hout].
  assert (content h' s !! (k - Z.to_nat (off s))%nat = content h s !! (k - Z.to_nat (off s))%nat)
    as Hk by (rewrite Hc; reflexivity).
  rewrite !content_lookup, E1, E2 in Hk.
  case_decide; [|lia].
  replace (Z.to_nat (off s) + (k - Z.to_nat (off s)))%nat with k in Hk by lia.
  exact Hk.
Qed.

(** One assignment [s[i] = x] on a well-formed slice. *)
Lemma store_spec h s i x :
  wf_slice h s -> 0 <= i < len s ->
  exists h',
    store s i x h = Ok (tt, h') /\
    content h' s = <[Z.to_nat i := x]> (content h s) /\
    wf_slice h' s /\ frame h h' s.
Proof.
  intros Hwf Hi. exists (write h s i [x]).
  split; [apply store_ok; exact Hi|].
  split; [apply content_store; assumption|].
  split; [apply wf_store; assumption|].
  pose proof Hwf as (Ho & Hl & Hcap & Hb & Ha).
  assert (array_of (write h s i [x]) s =
          write_at (array_of h s) (Z.to_nat (off s + i)) [x]) as Harr
    by (apply array_of_write_same; [exact Hwf | reflexivity | cbn [length]; lia | lia]).
  split; [apply write_length|].
  split; [intros a Hne; apply write_lookup_other; exact Hne|].
  rewrite Harr. split.
  - apply write_at_length. cbn [length]. lia.
  - intros k Hk. rewrite write_at_lookup by (cbn [length]; lia).
    cbn [length]. repeat case_decide; try lia; reflexivity.
Qed.

(** The loop of [Reverse] with [pre] and [post] already in place and [mid]
    still to reverse. *)
Lemma Reverse_loop_spec s :
  forall (n : nat) mid, (length mid <= n)%nat ->
  forall fuel h pre post,
    wf_slice h s -> content h s = pre ++ mid ++ post ->
    (length mid < fuel)%nat ->
    exists h',
      Reverse_loop fuel s (Z.of_nat (length pre))
        (Z.of_nat (length pre + length mid) - 1) h = Ok (tt, h') /\
      content h' s = pre ++ rev mid ++ post /\
      wf_slice h' s /\ frame h h' s.
Proof.
  induction n as [|n IH]; intros mid Hn fuel h pre post Hwf Hc Hfuel;
    (destruct fuel as [|fuel]; [lia|]); cbn [Reverse_loop].
  - destruct mid; [|cbn in Hn; lia]. cbn [length].
    replace (Z.of_nat (length pre) <? Z.of_nat (length pre + 0) - 1) with false
      by (symmetry; apply Z.ltb_ge; lia).
    exists h. split; [reflexivity|]. split; [exact Hc|]. split; [exact Hwf|].
    apply frame_refl.
  - destruct mid as [|x mid].
    { cbn [length].
      replace (Z.of_nat (length pre) <? Z.of_nat (length pre + 0) - 1) with false
        by (symmetry; apply Z.ltb_ge; lia).
      exists h. split; [reflexivity|]. split; [exact Hc|]. split; [exact Hwf|].
      apply frame_refl. }
    destruct (decide (mid = [])) as [-> | Hne].
    { cbn [length].
      replace (Z.of_nat (length pre) <? Z.of_nat (length pre + 1) - 1) with false
        by (symmetry; apply Z.ltb_ge; lia).
      exists h. split; [reflexivity|]. split; [exact Hc|]. split; [exact Hwf|].
      apply frame_refl. }
    destruct (exists_last Hne) as (mid' & y & ->).
    pose proof (content_length h s Hwf) as Hlen.
    rewrite Hc in Hlen. repeat rewrite ?length_app, ?length_cons in Hlen.
    cbn [length] in Hlen, Hn, Hfuel |- *.
    rewrite length_app in Hn, Hfuel |- *. cbn [length] in Hn, Hfuel |- *.
    pose proof Hwf as (_ & Hl & Hcap & _). pose proof max_int_pos as Hmp.
    set (i := Z.of_nat (length pre)).
    set (j := Z.of_nat (length pre + S (length mid' + 1)) - 1).
    assert (i < j) as Hij by (unfold i, j; lia).
    assert (0 <= i < len s) as Hi by (unfold i; lia).
    assert (0 <= j < len s) as Hj by (unfold j; lia).
    replace (i <? j) with true by (symmetry; apply Z.ltb_lt; exact Hij).
    assert (content h s = (pre ++ x :: mid') ++ y :: post) as Hc2
      by (rewrite Hc; repeat rewrite <- ?app_assoc, <- ?app_comm_cons; reflexivity).
    assert (Z.to_nat j = length (pre ++ x :: mid')) as Hjn
      by (unfold j; rewrite length_app; cbn [length]; lia).
    assert (Z.to_nat i = length pre) as Hin by (unfold i; lia).
    assert (get h s j = Ok y) as Hgj.
    { apply get_content; [exact Hwf | exact Hj |].
      rewrite Hc2, Hjn. apply list_lookup_middle. reflexivity. }
    assert (get h s i = Ok x) as Hgi.
    { apply get_content; [exact Hwf | exact Hi |].
      rewrite Hc, Hin. apply list_lookup_middle. reflexivity. }
    unfold bind at 1. rewrite (index_ok h s j y Hgj).
    unfold bind at 1. rewrite (index_ok h s i x Hgi).
    destruct (store_spec h s i y Hwf Hi) as (h1 & E1 & C1 & W1 & F1).
    unfold bind at 1. rewrite E1.
    destruct (store_spec h1 s j x W1 Hj) as (h2 & E2 & C2 & W2 & F2).
    unfold bind at 1. rewrite E2.
    assert (content h2 s = (pre ++ [y]) ++ mid' ++ x :: post) as Hc3.
    { rewrite C2, C1, Hc2, Hjn, Hin.
      rewrite insert_app_l by (rewrite length_app; cbn [length]; lia).
      rewrite (insert_app_r_alt pre) by lia. rewrite Nat.sub_diag. cbn [insert list_insert].
      replace (length (pre ++ x :: mid')) with (length (pre ++ y :: mid'))
        by (rewrite !length_app; reflexivity).
      rewrite (insert_app_r_alt (pre ++ y :: mid')) by lia.
      rewrite Nat.sub_diag. cbn [insert list_insert].
      repeat rewrite <- ?app_assoc, <- ?app_comm_cons. reflexivity. }
    assert (add i 1 = Z.of_nat (length (pre ++ [y]))) as Ha.
    { rewrite add_id by (unfold in_range, min_int; lia).
      rewrite length_app. cbn [length]. unfold i. lia. }
    assert (sub j 1 = Z.of_nat (length (pre ++ [y]) + length mid') - 1) as Hs.
    { rewrite sub_id by (unfold in_range, min_int; lia).
      rewrite length_app. cbn [length]. unfold j. lia. }
    rewrite Ha, Hs.
    destruct (IH mid' ltac:(lia) fuel h2 (pre ++ [y]) (x :: post) W2 Hc3 ltac:(lia))
      as (h' & E & C & W & F).
    exists h'. split; [exact E|]. split.
    + rewrite C. cbn [rev]. rewrite rev_app_distr. cbn [rev app].
      repeat rewrite <- ?app_assoc, <- ?app_comm_cons. reflexivity.
    + split; [exact W|].
      exact (frame_trans _ _ _ _ (frame_trans _ _ _ _ F1 F2) F).
Qed.

(** What [Reverse] does to a well-formed slice. *)
Lemma Reverse_spec h s :
  wf_slice h s ->
  exists h',
    Reverse s h = Ok (tt, h') /\
    content h' s = rev (content h s) /\
    wf_slice h' s /\ frame h h' s.
Proof.
  intros Hwf. pose proof (content_length h s Hwf) as Hlen.
  pose proof Hwf as (_ & Hl & Hcap & _). pose proof max_int_pos as Hmp.
  unfold Reverse.
  rewrite sub_id by (unfold in_range, min_int; lia).
  destruct (Reverse_loop_spec s (length (content h s)) (content h s) (le_n _)
              (S (Z.to_nat (len s))) h [] [] Hwf) as (h' & E & C & W & F).
  { rewrite app_nil_r. reflexivity. }
  { lia. }
  cbn [length Nat.add] in E. rewrite Hlen in E.
  rewrite Z2Nat.id in E by lia. change (Z.of_nat 0) with 0 in E.
  exists h'. split; [exact E|]. rewrite app_nil_r in C. cbn [app] in C.
  split; [exact C|]. split; [exact W|]. exact F.
Qed.

(** The loop of [ReplaceIf]. *)
Lemma ReplaceIf_loop_spec s newVal pred rest :
  forall fuel h done,
    wf_slice h s -> content h s = done ++ rest ->
    (length rest < fuel)%nat ->
    exists h',
      ReplaceIf_loop fuel s newVal pred (Z.of_nat (length done)) h = Ok (tt, h') /\
      content h' s = done ++ map (fun x => if pred x then newVal else x) rest /\
      wf_slice h' s /\ frame h h' s.
Proof.
  induction rest as [|x rest IH]; intros fuel h done Hwf Hc Hfuel;
    (destruct fuel as [|fuel]; [cbn in Hfuel; lia|]); cbn [ReplaceIf_loop].
  - pose proof Hc as Hc0. rewrite app_nil_r in Hc0.
    rewrite (scan_end h s done Hwf Hc0).
    exists h. split; [reflexivity|]. split; [exact Hc|]. split; [exact Hwf|].
    apply frame_refl.
  - destruct (scan_step h s done x rest Hwf Hc) as (Hlt & Hg & Hadd & Hc').
    rewrite Hlt. unfold bind at 1. rewrite (index_ok h s _ x Hg). rewrite Hadd.
    cbn [map]. cbn [length] in Hfuel.
    destruct (pred x) eqn:Hp.
    + apply Z.ltb_lt in Hlt.
      destruct (store_spec h s (Z.of_nat (length done)) newVal Hwf ltac:(lia))
        as (h1 & E1 & C1 & W1 & F1).
      unfold bind at 1. rewrite E1.
      assert (content h1 s = (done ++ [newVal]) ++ rest) as Hc1.
      { rewrite C1, Hc, Nat2Z.id. rewrite (insert_app_r_alt done) by lia.
        rewrite Nat.sub_diag. cbn [insert list_insert].
        rewrite <- app_assoc. reflexivity. }
      replace (length (done ++ [x])) with (length (done ++ [newVal]))
        by (rewrite !length_app; reflexivity).
      destruct (IH fuel h1 (done ++ [newVal]) W1 Hc1 ltac:(lia)) as (h' & E & C & W & F).
      exists h'. split; [exact E|]. split; [rewrite C, <- app_assoc; reflexivity|].
      split; [exact W|]. exact (frame_trans _ _ _ _ F1 F).
    + destruct (IH fuel h (done ++ [x]) Hwf Hc' ltac:(lia)) as (h' & E & C & W & F).
      exists h'. split; [exact E|]. split; [rewrite C, <- app_assoc; reflexivity|].
      split; [exact W|]. exact F.
Qed.

(** In [Replace], a negative counter never reaches 0: after wrapping
    around it would need 2^63 more decrements, more than a slice has
    elements. *)
Lemma replace_scan_never_zero `{EqDecision A} (old new : A) l : forall n,
  in_range n -> n <> 0 -> Z.of_nat (length l) < (n - 1) mod 2 ^ 64 + 1 ->
  replace_scan old new n l = (fun x => if decide (x = old) then new else x) <$> l.
Proof.
  induction l as [|y l IH]; intros n Hr Hn Hlen; [reflexivity|].
  cbn [replace_scan fmap list_fmap]. cbn [length] in Hlen.
  replace (n =? 0) with false by (symmetry; apply Z.eqb_neq; lia).
  assert (in_range (sub n 1)) as Hr'.
  { unfold sub, wrap, in_range, min_int, max_int.
    pose proof (Z.mod_pos_bound (n - 1 + 2 ^ 63) (2 ^ 64) ltac:(lia)). lia. }
  assert ((sub n 1 - 1) mod 2 ^ 64 = (n - 1) mod 2 ^ 64 - 1) as Hm.
  { unfold sub, wrap.
    replace ((n - 1 + 2 ^ 63) mod 2 ^ 64 - 2 ^ 63 - 1)
      with (((n - 1 + 2 ^ 63) mod 2 ^ 64) + (- 2 ^ 63 - 1)) by lia.
    rewrite Zplus_mod_idemp_l.
    replace (n - 1 + 2 ^ 63 + (- 2 ^ 63 - 1)) with (n - 1 - 1) by lia.
    pose proof (Z.mod_pos_bound (n - 1) (2 ^ 64) ltac:(lia)) as Hb.
    rewrite <- (Z.mod_small ((n - 1) mod 2 ^ 64 - 1) (2 ^ 64)) by lia.
    rewrite Zminus_mod_idemp_l. reflexivity. }
  assert (sub n 1 <> 0) as Hn'.
  { intros E. rewrite E in Hm. change ((0 - 1) mod 2 ^ 64) with (2 ^ 64 - 1) in Hm.
    pose proof (Z.mod_pos_bound (n - 1) (2 ^ 64) ltac:(lia)) as Hb. lia. }
  destruct (decide (y = old)) as [-> | Hy].
  - rewrite bool_decide_eq_true_2 by reflexivity. cbn [andb negb].
    f_equal. apply IH; [exact Hr' | exact Hn' | lia].
  - rewrite bool_decide_eq_false_2 by exact Hy. cbn [andb].
    f_equal. apply IH; [exact Hr | exact Hn | lia].
Qed.

End InPlaceFacts.

(** X9.  [Reverse] reverses the elements of the slice in place: nothing is
    allocated, the slice afterwards holds its former elements in reverse
    order, and every slice that shares no element with it (another array,
    or a disjoint window of the same array) keeps its content. *)
Theorem Reverse_reverses_in_place {A : Type} `{Zero A} (h : heap A) (s : Slice) :
  wf_slice h s ->
  exists h',
    Reverse s h = Ok (tt, h') /\
    content h' s = rev (content h s) /\
    length h' = length h /\
    (forall t, wf_slice h t ->
       arr t <> arr s \/ off t + len t <= off s \/ off s + len s <= off t ->
       content h' t = content h t).
Proof.
  intros Hwf. destruct (Reverse_spec h s Hwf) as (h' & E & C & W & F).
  exists h'. split; [exact E|]. split; [exact C|]. split; [apply F|].
  intros t Wt Hd. exact (frame_content h h' s t F Wt Hd).
Qed.

Lemma Reverse_reverses_in_place_witness :
  let h : heap Z := [[0; 1; 2; 3; 4; 5; 6]] in
  let s := mkSlice (Some 0%nat) 1 5 6 in
  exists h',
    Reverse s h = Ok (tt, h') /\
    content h' s = rev (content h s) /\
    length h' = length h /\
    (forall t, wf_slice h t ->
       arr t <> arr s \/ off t + len t <= off s \/ off s + len s <= off t ->
       content h' t = content h t).
Proof.
  intros h s. apply (Reverse_reverses_in_place h s). wf_concrete.
Defined.

Example Reverse_window :
  Reverse (mkSlice (Some 0%nat) 1 5 6) ([[0; 1; 2; 3; 4; 5; 6]] : heap Z)
  = Ok (tt, [[0; 5; 4; 3; 2; 1; 6]]).
Proof. vm_compute. reflexivity. Qed.

(** X10.  Reversing a slice twice restores the store exactly. *)
Theorem Reverse_twice_restores {A : Type} `{Zero A} (h : heap A) (s : Slice) :
  wf_slice h s ->
  exists h1, Reverse s h = Ok (tt, h1) /\ Reverse s h1 = Ok (tt, h).
Proof.
  intros Hwf. destruct (Reverse_spec h s Hwf) as (h1 & E1 & C1 & W1 & F1).
  destruct (Reverse_spec h1 s W1) as (h2 & E2 & C2 & W2 & F2).
  exists h1. split; [exact E1|]. rewrite E2. do 2 f_equal.
  apply (frame_same_content h h2 s (frame_trans _ _ _ _ F1 F2) Hwf).
  rewrite C2, C1. apply rev_involutive.
Qed.

Lemma Reverse_twice_restores_witness :
  let h : heap Z := [[0; 1; 2; 3; 4; 5; 6]] in
  let s := mkSlice (Some 0%nat) 1 4 6 in
  exists h1, Reverse s h = Ok (tt, h1) /\ Reverse s h1 = Ok (tt, h).
Proof.
  intros h s. apply (Reverse_twice_restores h s). wf_concrete.
Defined.

(** X11.  [ReplaceIf] overwrites in place exactly the elements that satisfy
    the predicate: afterwards the slice holds [newVal] where the predicate
    held and the former element elsewhere; nothing is allocated and slices
    that share no element with it keep their content. *)
Theorem ReplaceIf_replaces_matching {A : Type} `{Zero A}
    (h : heap A) (in_ : Slice) (newVal : A) (pred : A -> bool) :
  wf_slice h in_ ->
  exists h',
    ReplaceIf in_ newVal pred h = Ok (tt, h') /\
    content h' in_ = map (fun x => if pred x then newVal else x) (content h in_) /\
    length h' = length h /\
    (forall t, wf_slice h t ->
       arr t <> arr in_ \/ off t + len t <= off in_ \/ off in_ + len in_ <= off t ->
       content h' t = content h t).
Proof.
  intros Hwf. pose proof (content_length h in_ Hwf) as Hlen.
  destruct (ReplaceIf_loop_spec in_ newVal pred (content h in_)
              (S (Z.to_nat (len in_))) h [] Hwf eq_refl ltac:(lia))
    as (h' & E & C & W & F).
  exists h'. split; [exact E|]. split; [exact C|]. split; [apply F|].
  intros t Wt Hd. exact (frame_content h h' in_ t F Wt Hd).
Qed.

Lemma ReplaceIf_replaces_matching_witness :
  let h : heap Z := [[-3; 0; 5; -1; 8]] in
  let s := mkSlice (Some 0%nat) 0 4 5 in
  let pred := fun x : Z => x <? 0 in
  exists h',
    ReplaceIf s 0 pred h = Ok (tt, h') /\
    content h' s = map (fun x => if pred x then 0 else x) (content h s) /\
    length h' = length h /\
    (forall t, wf_slice h t ->
       arr t <> arr s \/ off t + len t <= off s \/ off s + len s <= off t ->
       content h' t = content h t).
Proof.
  intros h s pred. apply (ReplaceIf_replaces_matching h s 0 pred). wf_concrete.
Defined.

(** X12.  [Replace] with any negative [n], not only -1, replaces every
    occurrence of [old]: the counter is decremented away from 0 and cannot
    wrap around to it within the length of a slice.  So it leaves the slice
    as [ReplaceAll] does, and as [ReplaceIf] with the test [x == old]
    does. *)
Theorem Replace_negative_replaces_all {A : Type} `{Zero A} `{EqDecision A}
    (h : heap A) (in_ : Slice) (old new : A) (n : Z) :
  wf_slice h in_ -> in_range n -> n < 0 ->
  exists h1 h2 h3,
    Replace in_ old new n h = Ok (tt, h1) /\
    ReplaceAll in_ old new h = Ok (tt, h2) /\
    ReplaceIf in_ new (fun x => bool_decide (x = old)) h = Ok (tt, h3) /\
    content h1 in_ = (fun x => if decide (x = old) then new else x) <$> content h in_ /\
    content h2 in_ = content h1 in_ /\
    content h3 in_ = content h1 in_.
Proof.
  intros Hwf Hr Hn. pose proof (content_length h in_ Hwf) as Hlen.
  pose proof Hwf as (_ & Hl & Hcap & _).
  assert (forall m, in_range m -> m < 0 ->
            replace_scan old new m (content h in_) =
            (fun x => if decide (x = old) then new else x) <$> content h in_) as Hscan.
  { intros m Hm Hneg. apply replace_scan_never_zero; [exact Hm | lia |].
    unfold in_range, min_int, max_int in *.
    rewrite <- (Z.mod_add (m - 1) 1 (2 ^ 64)) by lia.
    rewrite Z.mod_small by lia. lia. }
  destruct (Replace_loop_spec in_ old new (content h in_)
              (S (Z.to_nat (len in_))) [] h n Hwf eq_refl ltac:(lia))
    as ([] & h1 & E1 & _ & C1 & _).
  destruct (Replace_loop_spec in_ old new (content h in_)
              (S (Z.to_nat (len in_))) [] h (-1) Hwf eq_refl ltac:(lia))
    as ([] & h2 & E2 & _ & C2 & _).
  destruct (ReplaceIf_loop_spec in_ new (fun x => bool_decide (x = old)) (content h in_)
              (S (Z.to_nat (len in_))) h [] Hwf eq_refl ltac:(lia))
    as (h3 & E3 & C3 & _).
  cbn [app] in C1, C2, C3.
  rewrite Hscan in C1 by assumption.
  rewrite Hscan in C2 by (unfold in_range, min_int, max_int; lia).
  exists h1, h2, h3. split; [exact E1|]. split; [exact E2|]. split; [exact E3|].
  split; [exact C1|]. split; [congruence|].
  rewrite C3, C1. apply list_eq. intros k. rewrite !list_lookup_fmap.
  destruct (content h in_ !! k) as [x|]; [|reflexivity]. cbn.
  destruct (decide (x = old)) as [Hx | Hx];
    [rewrite bool_decide_eq_true_2 by exact Hx | rewrite bool_decide_eq_false_2 by exact Hx];
    reflexivity.
Qed.

Lemma Replace_negative_replaces_all_witness :
  let h : heap Z := [[1; 2; 1; 3; 1]] in
  let s := mkSlice (Some 0%nat) 0 5 5 in
  exists h1 h2 h3,
    Replace s 1 9 (-7) h = Ok (tt, h1) /\
    ReplaceAll s 1 9 h = Ok (tt, h2) /\
    ReplaceIf s 9 (fun x => bool_decide (x = 1)) h = Ok (tt, h3) /\
    content h1 s = (fun x => if decide (x = 1) then 9 else x) <$> content h s /\
    content h2 s = content h1 s /\
    content h3 s = content h1 s.
Proof.
  intros h s. apply (Replace_negative_replaces_all h s 1 9 (-7)).
  - wf_concrete.
  - unfold in_range, min_int, max_int. lia.
  - lia.
Defined.

Section MapFacts.

Context {T R : Type} `{Zero R}.
Variable growcap : Z -> Z -> Z.
Hypothesis Hgc : growcap_ok growcap.

(** The loop of [Map] with [done] already mapped into [results]. *)
Lemma Map_loop_spec (ht : heap T) slice (mapper : T -> R) rest :
  forall fuel done results (hr : heap R),
    (0 <= len slice <= max_int) -> length (done ++ rest) = Z.to_nat (len slice) ->
    (forall k x, rest !! k = Some x ->
       get ht slice (Z.of_nat (length done + k)) = Ok x) ->
    wf_slice hr results -> len results = Z.of_nat (length done) ->
    (length rest < fuel)%nat ->
    returns (Map_loop growcap fuel ht slice mapper (Z.of_nat (length done)) results) hr
      (fun res hr' =>
         wf_slice hr' res /\
         content hr' res = content hr results ++ map mapper rest /\
         len res = len results + Z.of_nat (length rest) /\
         (arr res = arr results \/ exists a, arr res = Some a /\ (length hr <= a)%nat) /\
         (forall t, wf_slice hr t -> arr t <> arr results ->
                    wf_slice hr' t /\ content hr' t = content hr t)).
Proof.
  induction rest as [|x rest IH]; intros fuel done results hr Hl Hlen Hget Hwr Hlr Hfuel;
    (destruct fuel as [|fuel]; [cbn in Hfuel; lia|]); cbn [Map_loop];
    rewrite length_app in Hlen; cbn [length] in Hlen, Hfuel.
  - replace (Z.of_nat (length done) <? len slice) with false
      by (symmetry; apply Z.ltb_ge; lia).
    apply returns_ret. split; [exact Hwr|]. cbn [map]. rewrite app_nil_r.
    split; [reflexivity|]. split; [cbn [length]; lia|]. split; [left; reflexivity|].
    intros t Wt _. split; [exact Wt | reflexivity].
  - replace (Z.of_nat (length done) <? len slice) with true
      by (symmetry; apply Z.ltb_lt; lia).
    apply returns_bind. eapply returns_lift.
    { specialize (Hget 0%nat x eq_refl). rewrite Nat.add_0_r in Hget. exact Hget. }
    apply returns_bind.
    eapply returns_weaken;
      [apply (append_spec_full growcap hr results [mapper x] Hgc Hwr); cbn [length]; lia|].
    cbv beta. intros r1 h1 (W1 & C1 & L1 & A1 & _ & G1 & F1).
    assert (add (Z.of_nat (length done)) 1 = Z.of_nat (length (done ++ [x]))) as Hadd.
    { rewrite add_id by (unfold in_range, min_int; lia).
      rewrite length_app. cbn [length]. lia. }
    rewrite Hadd.
    eapply returns_weaken;
      [apply (IH fuel (done ++ [x]) r1 h1 Hl)|].
    + rewrite !length_app. cbn [length]. lia.
    + intros k y Hk. rewrite length_app. cbn [length].
      replace (length done + 1 + k)%nat with (length done + S k)%nat by lia.
      apply Hget. exact Hk.
    + exact W1.
    + rewrite L1, length_app. cbn [length]. lia.
    + lia.
    + cbv beta. intros res h' (W & C & L & Ar & F).
      split; [exact W|]. split; [rewrite C, C1, <- app_assoc; reflexivity|].
      split; [rewrite L, L1; cbn [length]; lia|].
      assert (forall t, wf_slice hr t -> arr t <> arr results -> arr t <> arr r1) as Hne.
      { intros t Wt Hne. destruct A1 as [-> | ->]; [exact Hne | apply wf_not_fresh; exact Wt]. }
      split.
      * destruct Ar as [-> | (a & -> & Ha)].
        -- destruct A1 as [-> | ->]; [left; reflexivity | right; eexists; split; [reflexivity | lia]].
        -- right. exists a. split; [reflexivity | lia].
      * intros t Wt Hnt. destruct (F1 t Wt Hnt) as (Wt1 & Ct1).
        destruct (F t Wt1 (Hne t Wt Hnt)) as (Wt' & Ct').
        split; [exact Wt' | congruence].
Qed.

(** The loop of [FlatMap], for a mapper that returns a slice holding
    [f x] and leaves the slices that exist when it is called as they
    are. *)
Lemma FlatMap_loop_spec (ht : heap T) slice (mapper : T -> M (heap R) Slice)
    (f : T -> list R) rest :
  (forall x (h : heap R), exists sub h',
     mapper x h = Ok (sub, h') /\ wf_slice h' sub /\ content h' sub = f x /\
     forall t, wf_slice h t -> wf_slice h' t /\ content h' t = content h t) ->
  forall fuel done results (hr : heap R),
    (0 <= len slice <= max_int) -> length (done ++ rest) = Z.to_nat (len slice) ->
    (forall k x, rest !! k = Some x ->
       get ht slice (Z.of_nat (length done + k)) = Ok x) ->
    wf_slice hr results ->
    len results + Z.of_nat (length (concat (map f rest))) <= max_int ->
    (length rest < fuel)%nat ->
    returns (FlatMap_loop growcap fuel ht slice mapper (Z.of_nat (length done)) results) hr
      (fun res hr' =>
         wf_slice hr' res /\
         content hr' res = content hr results ++ concat (map f rest) /\
         (forall t, wf_slice hr t -> arr t <> arr results ->
                    wf_slice hr' t /\ content hr' t = content hr t)).
Proof.
  intros Hm.
  induction rest as [|x rest IH]; intros fuel done results hr Hl Hlen Hget Hwr Hmax Hfuel;
    (destruct fuel as [|fuel]; [cbn in Hfuel; lia|]); cbn [FlatMap_loop];
    rewrite length_app in Hlen; cbn [length] in Hlen, Hfuel.
  - replace (Z.of_nat (length done) <? len slice) with false
      by (symmetry; apply Z.ltb_ge; lia).
    apply returns_ret. split; [exact Hwr|]. cbn [map concat]. rewrite app_nil_r.
    split; [reflexivity|]. intros t Wt _. split; [exact Wt | reflexivity].
  - replace (Z.of_nat (length done) <? len slice) with true
      by (symmetry; apply Z.ltb_lt; lia).
    cbn [map concat] in Hmax. rewrite length_app in Hmax.
    apply returns_bind. eapply returns_lift.
    { specialize (Hget 0%nat x eq_refl). rewrite Nat.add_0_r in Hget. exact Hget. }
    apply returns_bind.
    destruct (Hm x hr) as (sub & h0 & E0 & W0 & C0 & F0).
    eapply returns_eq; [exact E0|].
    destruct (F0 results Hwr) as (Wr0 & Cr0).
    apply returns_bind. unfold append_slice.
    eapply returns_weaken;
      [apply (append_spec_full growcap h0 results (content h0 sub) Hgc Wr0); rewrite C0; lia|].
    cbv beta. intros r1 h1 (W1 & C1 & L1 & A1 & _ & G1 & F1).
    assert (add (Z.of_nat (length done)) 1 = Z.of_nat (length (done ++ [x]))) as Hadd.
    { rewrite add_id by (unfold in_range, min_int; lia).
      rewrite length_app. cbn [length]. lia. }
    rewrite Hadd.
    eapply returns_weaken;
      [apply (IH fuel (done ++ [x]) r1 h1 Hl)|].
    + rewrite !length_app. cbn [length]. lia.
    + intros k y Hk. rewrite length_app. cbn [length].
      replace (length done + 1 + k)%nat with (length done + S k)%nat by lia.
      apply Hget. exact Hk.
    + exact W1.
    + rewrite L1, C0. lia.
    + lia.
    + cbv beta. intros res h' (W & C & F).
      split; [exact W|].
      split; [rewrite C, C1, C0, Cr0, <- app_assoc; reflexivity|].
      intros t Wt Hnt. destruct (F0 t Wt) as (Wt0 & Ct0).
      destruct (F1 t Wt0 Hnt) as (Wt1 & Ct1).
      assert (arr t <> arr r1) as Hne.
      { destruct A1 as [-> | ->]; [exact Hnt|]. apply wf_not_fresh. exact Wt0. }
      destruct (F t Wt1 Hne) as (Wt' & Ct').
      split; [exact Wt' | congruence].
Qed.

End MapFacts.

Section FlattenFacts.

Context {T : Type} `{Zero T}.
Variable growcap : Z -> Z -> Z.
Hypothesis Hgc : growcap_ok growcap.

(** The loop of [Flatten] with the headers [done] already appended. *)
Lemma Flatten_loop_spec (hs : heap Slice) slice (rest : list Slice) :
  forall fuel done res (h : heap T),
    wf_slice hs slice -> content hs slice = done ++ rest ->
    wf_slice h res -> Forall (wf_slice h) rest ->
    Forall (fun s => arr s <> arr res) rest ->
    len res + total_len rest <= max_int ->
    (length rest < fuel)%nat ->
    returns (Flatten_loop growcap fuel hs slice (Z.of_nat (length done)) res) h
      (fun res' h' =>
         wf_slice h' res' /\
         content h' res' = content h res ++ contents h rest /\
         len res' = len res + total_len rest /\
         (arr res <> None -> arr res' <> None) /\
         (forall t, wf_slice h t -> arr t <> arr res ->
                    wf_slice h' t /\ content h' t = content h t)).
Proof.
  induction rest as [|s rest IH];
    intros fuel done res h Hws Hc Hwr Hrest Hdis Hmax Hfuel;
    (destruct fuel as [|fuel]; [cbn in Hfuel; lia|]); cbn [Flatten_loop].
  - pose proof Hc as Hc0. rewrite app_nil_r in Hc0.
    rewrite (scan_end hs slice done Hws Hc0).
    apply returns_ret. split; [exact Hwr|]. unfold contents. cbn [map concat total_len foldr].
    rewrite app_nil_r. split; [reflexivity|]. split; [lia|].
    split; [intros Hn; exact Hn|].
    intros t Wt _. split; [exact Wt | reflexivity].
  - destruct (scan_step hs slice done s rest Hws Hc) as (Hlt & Hg & Hadd & Hc').
    rewrite Hlt. apply returns_bind. eapply returns_lift; [exact Hg|].
    apply Forall_cons in Hrest as (Ws & Hrest).
    apply Forall_cons in Hdis as (Hs & Hdis).
    pose proof (total_len_nonneg h rest Hrest) as Hnn.
    pose proof (content_length h s Ws) as Hls. pose proof Ws as (_ & Hl & _).
    cbn [total_len foldr] in Hmax. fold (total_len rest) in Hmax.
    apply returns_bind. unfold append_slice.
    eapply returns_weaken;
      [apply (append_spec_full growcap h res (content h s) Hgc Hwr); lia|].
    cbv beta. intros r1 h1 (W1 & C1 & L1 & A1 & _ & G1 & F1).
    rewrite Hadd. cbn [length] in Hfuel.
    assert (forall t, wf_slice h t -> arr t <> arr res -> arr t <> arr r1) as Hne.
    { intros t Wt Hnt. destruct A1 as [-> | ->]; [exact Hnt | apply wf_not_fresh; exact Wt]. }
    assert (Forall (wf_slice h1) rest /\ Forall (fun s => arr s <> arr r1) rest /\
            contents h1 rest = contents h rest) as (Hrest1 & Hdis1 & Hcs1).
    { clear IH Hc Hc' Hmax Hnn Hfuel. unfold contents.
      induction rest as [|t rest IHr]; [repeat split; constructor|].
      apply Forall_cons in Hrest as (Wt & Hrest).
      apply Forall_cons in Hdis as (Hnt & Hdis).
      destruct (IHr Hrest Hdis) as (I1 & I2 & I3).
      destruct (F1 t Wt Hnt) as (Wt1 & Ct1).
      split; [constructor; assumption|].
      split; [constructor; [apply Hne; assumption | assumption]|].
      cbn [map concat]. rewrite Ct1, I3. reflexivity. }
    eapply returns_weaken;
      [apply (IH fuel (done ++ [s]) r1 h1 Hws Hc' W1 Hrest1 Hdis1)|].
    + rewrite L1. lia.
    + lia.
    + cbv beta. intros res' h' (W & C & L & N & F).
      split; [exact W|]. split.
      * rewrite C, C1, Hcs1. unfold contents. cbn [map concat].
        rewrite <- app_assoc. reflexivity.
      * split; [rewrite L, L1; cbn [total_len foldr]; fold (total_len rest); lia|].
        split; [intros Hn; apply N; destruct A1 as [-> | ->]; [exact Hn | discriminate]|].
        intros t Wt Hnt. destruct (F1 t Wt Hnt) as (Wt1 & Ct1).
        destruct (F t Wt1 (Hne t Wt Hnt)) as (Wt' & Ct').
        split; [exact Wt' | congruence].
Qed.

(** What [Flatten] returns. *)
Lemma Flatten_spec (h : heap T) (hs : heap Slice) slice :
  wf_slice hs slice -> Forall (wf_slice h) (content hs slice) ->
  total_len (content hs slice) <= max_int ->
  returns (Flatten growcap hs slice) h (fun res h' =>
    wf_slice h' res /\
    content h' res = contents h (content hs slice) /\
    len res = total_len (content hs slice) /\
    is_nil res = false /\
    (forall t, wf_slice h t -> wf_slice h' t /\ content h' t = content h t)).
Proof.
  intros Hws Hin Hmax. unfold Flatten. pose proof max_int_pos as Hmp.
  pose proof (content_length hs slice Hws) as Hlen.
  apply returns_bind. eapply returns_eq; [apply make_ok; lia|].
  set (res0 := mkSlice (Some (length h)) 0 0 0).
  set (h0 := h ++ [replicate (Z.to_nat 0) zero]).
  assert (wf_slice h0 res0) as W0 by (apply wf_fresh; cbn [length]; lia).
  assert (Forall (wf_slice h0) (content hs slice)) as Hin0
    by (eapply Forall_impl; [exact Hin | intros t Wt; apply wf_alloc; exact Wt]).
  assert (Forall (fun s => arr s <> arr res0) (content hs slice)) as Hdis
    by (eapply Forall_impl; [exact Hin | intros t Wt; apply wf_not_fresh; exact Wt]).
  assert (contents h0 (content hs slice) = contents h (content hs slice)) as Hcs
    by (apply contents_alloc; exact Hin).
  eapply returns_weaken;
    [apply (Flatten_loop_spec hs slice (content hs slice) _ [] res0 h0 Hws eq_refl W0 Hin0 Hdis)|].
  - cbn [len res0]. lia.
  - lia.
  - cbv beta. intros res h' (W & C & L & N & F).
    split; [exact W|].
    split; [rewrite C, Hcs; unfold res0, h0; rewrite content_fresh; reflexivity|].
    split; [rewrite L; cbn [len res0]; lia|].
    split.
    + unfold is_nil. destruct (arr res) eqn:Ha; [reflexivity|].
      exfalso. apply N; [discriminate | reflexivity].
    + intros t Wt. destruct (F t (wf_alloc h t _ Wt)) as (Wt' & Ct').
      * apply wf_not_fresh. exact Wt.
      * split; [exact Wt'|]. rewrite Ct'. apply content_alloc. exact Wt.
Qed.

End FlattenFacts.

(** Reading a well-formed slice by index gives the elements of its
    content. *)
Lemma get_all {A : Type} (h : heap A) (s : Slice) :
  wf_slice h s ->
  forall k x, content h s !! k = Some x ->
    get h s (Z.of_nat (length (@nil A) + k)) = Ok x.
Proof.
  intros Hwf k x Hk. pose proof (content_length h s Hwf) as Hlen.
  pose proof (lookup_lt_Some _ _ _ Hk) as Hlt.
  cbn [length Nat.add]. apply get_content; [exact Hwf | lia |].
  rewrite Nat2Z.id. exact Hk.
Qed.

(** X13.  [Map] returns a new, non-nil slice of the same length as its
    argument, whose element [i] is the mapper applied to element [i] of the
    argument; the slices that existed before keep their content. *)
Theorem Map_maps_elementwise {T R : Type} `{Zero R}
    (growcap : Z -> Z -> Z) (ht : heap T) (slice : Slice) (mapper : T -> R)
    (hr : heap R) :
  growcap_ok growcap -> wf_slice ht slice ->
  exists res hr',
    Map growcap ht slice mapper hr = Ok (res, hr') /\
    content hr' res = map mapper (content ht slice) /\
    len res = len slice /\
    is_nil res = false /\
    (exists a, arr res = Some a /\ (length hr <= a)%nat) /\
    (forall t, wf_slice hr t -> content hr' t = content hr t).
Proof.
  intros Hgc Hwf. pose proof (content_length ht slice Hwf) as Hlen.
  pose proof Hwf as (_ & Hl & Hcap & _). pose proof max_int_pos as Hmp.
  unfold Map. unfold bind at 1. rewrite make_ok by lia.
  set (res0 := mkSlice (Some (length hr)) 0 0 0).
  set (h0 := hr ++ [replicate (Z.to_nat 0) zero]).
  assert (wf_slice h0 res0) as W0 by (apply wf_fresh; cbn [length]; lia).
  destruct (Map_loop_spec growcap Hgc ht slice mapper (content ht slice)
              (S (Z.to_nat (len slice))) [] res0 h0 ltac:(lia) Hlen
              (get_all ht slice Hwf) W0 eq_refl ltac:(lia))
    as (res & hr' & E & W & C & L & Ar & F).
  exists res, hr'. split; [exact E|].
  split; [rewrite C; unfold res0, h0; rewrite content_fresh; reflexivity|].
  split; [rewrite L; cbn [len res0]; lia|].
  assert (exists a, arr res = Some a /\ (length hr <= a)%nat) as Hfresh.
  { destruct Ar as [-> | (a & -> & Ha)].
    - exists (length hr). split; [reflexivity | lia].
    - exists a. split; [reflexivity|]. unfold h0 in Ha. rewrite length_app in Ha. lia. }
  split; [destruct Hfresh as (a & Ha & _); unfold is_nil; rewrite Ha; reflexivity|].
  split; [exact Hfresh|].
  intros t Wt. destruct (F t (wf_alloc hr t _ Wt)) as (_ & Ct).
  - apply wf_not_fresh. exact Wt.
  - rewrite Ct. apply content_alloc. exact Wt.
Qed.

Lemma Map_maps_elementwise_witness :
  let ht : heap Z := [[1; 2; 3]] in
  let s := mkSlice (Some 0%nat) 0 3 3 in
  let gc := fun c n : Z => if (n <=? 2 * c) && (2 * c <=? max_int) then 2 * c else n in
  let mapper := fun x : Z => (x, x * x) in
  let hr : heap (Z * Z) := [] in
  exists res hr',
    Map gc ht s mapper hr = Ok (res, hr') /\
    content hr' res = map mapper (content ht s) /\
    len res = len s /\
    is_nil res = false /\
    (exists a, arr res = Some a /\ (length hr <= a)%nat) /\
    (forall t, wf_slice hr t -> content hr' t = content hr t).
Proof.
  intros ht s gc mapper hr. apply (Map_maps_elementwise gc ht s mapper hr).
  - intros c n Hn. unfold gc.
    destruct ((n <=? 2 * c) && (2 * c <=? max_int)) eqn:E; [|lia].
    apply andb_true_iff in E as (E1 & E2).
    apply Z.leb_le in E1. apply Z.leb_le in E2. lia.
  - wf_concrete.
Defined.

(** A mapper that builds its result with a composite literal. *)
Lemma literal_mapper_ok {T R : Type} (f : T -> list R) (x : T) (h : heap R) :
  Z.of_nat (length (f x)) <= max_int ->
  exists sub h',
    slice_lit (f x) h = Ok (sub, h') /\ wf_slice h' sub /\ content h' sub = f x /\
    forall t, wf_slice h t -> wf_slice h' t /\ content h' t = content h t.
Proof.
  intros Hlen. eexists _, _. split; [apply slice_lit_ok|].
  split; [apply wf_fresh; lia|].
  split; [rewrite content_fresh, Nat2Z.id; apply firstn_all|].
  intros t Wt. split; [apply wf_alloc; exact Wt | apply content_alloc; exact Wt].
Qed.

(** X14.  [FlatMap] returns the concatenation, in order, of the slices
    the mapper returns for the elements of its argument, provided the
    mapper leaves existing slices as they are and the total length is an
    [int]; the slices that existed before keep their content. *)
Theorem FlatMap_concatenates {T R : Type} `{Zero R}
    (growcap : Z -> Z -> Z) (ht : heap T) (slice : Slice)
    (mapper : T -> M (heap R) Slice) (f : T -> list R) (hr : heap R) :
  growcap_ok growcap -> wf_slice ht slice ->
  (forall x (h : heap R), exists sub h',
     mapper x h = Ok (sub, h') /\ wf_slice h' sub /\ content h' sub = f x /\
     forall t, wf_slice h t -> wf_slice h' t /\ content h' t = content h t) ->
  Z.of_nat (length (concat (map f (content ht slice)))) <= max_int ->
  exists res hr',
    FlatMap growcap ht slice mapper hr = Ok (res, hr') /\
    content hr' res = concat (map f (content ht slice)) /\
    (forall t, wf_slice hr t -> content hr' t = content hr t).
Proof.
  intros Hgc Hwf Hm Hmax. pose proof (content_length ht slice Hwf) as Hlen.
  pose proof Hwf as (_ & Hl & Hcap & _). pose proof max_int_pos as Hmp.
  unfold FlatMap. unfold bind at 1. rewrite make_ok by lia.
  set (res0 := mkSlice (Some (length hr)) 0 0 0).
  set (h0 := hr ++ [replicate (Z.to_nat 0) zero]).
  assert (wf_slice h0 res0) as W0 by (apply wf_fresh; cbn [length]; lia).
  destruct (FlatMap_loop_spec growcap Hgc ht slice mapper f (content ht slice) Hm
              (S (Z.to_nat (len slice))) [] res0 h0 ltac:(lia) Hlen
              (get_all ht slice Hwf) W0 ltac:(cbn [len res0]; lia) ltac:(lia))
    as (res & hr' & E & W & C & F).
  exists res, hr'. split; [exact E|].
  split; [rewrite C; unfold res0, h0; rewrite content_fresh; reflexivity|].
  intros t Wt. destruct (F t (wf_alloc hr t _ Wt)) as (_ & Ct).
  - apply wf_not_fresh. exact Wt.
  - rewrite Ct. apply content_alloc. exact Wt.
Qed.

Lemma FlatMap_concatenates_witness :
  let ht : heap Z := [[1; 2; 3]] in
  let s := mkSlice (Some 0%nat) 0 3 3 in
  let gc := fun _ n : Z => n in
  let f := fun x : Z => [x; - x] in
  let mapper := fun x : Z => slice_lit (f x) in
  let hr : heap Z := [[7]] in
  exists res hr',
    FlatMap gc ht s mapper hr = Ok (res, hr') /\
    content hr' res = concat (map f (content ht s)) /\
    (forall t, wf_slice hr t -> content hr' t = content hr t).
Proof.
  intros ht s gc f mapper hr. apply (FlatMap_concatenates gc ht s mapper f hr).
  - intros c n Hn. unfold gc. lia.
  - wf_concrete.
  - intros x h. apply literal_mapper_ok. unfold f, max_int. cbn. lia.
  - unfold max_int. vm_compute. discriminate.
Defined.

(** X15.  [Flatten] returns a new, non-nil slice that holds the elements
    of the inner slices one after the other; its length is the sum of
    their lengths, the inner slices are not modified, and [Concat] on the
    same argument returns a slice with the same content. *)
Theorem Flatten_concatenates {T : Type} `{Zero T}
    (growcap : Z -> Z -> Z) (h : heap T) (hs : heap Slice) (slice : Slice) :
  growcap_ok growcap -> wf_slice hs slice ->
  Forall (wf_slice h) (content hs slice) ->
  total_len (content hs slice) <= max_int ->
  exists res h' res2 h2,
    Flatten growcap hs slice h = Ok (res, h') /\
    content h' res = contents h (content hs slice) /\
    len res = total_len (content hs slice) /\
    is_nil res = false /\
    (forall t, wf_slice h t -> content h' t = content h t) /\
    Concat hs slice h = Ok (res2, h2) /\
    content h2 res2 = content h' res.
Proof.
  intros Hgc Hws Hin Hmax.
  destruct (Flatten_spec growcap Hgc h hs slice Hws Hin Hmax)
    as (res & h' & E & W & C & L & N & F).
  destruct (Concat_spec h hs slice Hws Hin Hmax) as (res2 & h2 & E2 & _ & C2 & _).
  exists res, h', res2, h2. split; [exact E|]. split; [exact C|].
  split; [exact L|]. split; [exact N|].
  split; [intros t Wt; apply F; exact Wt|].
  split; [exact E2 | congruence].
Qed.

Lemma Flatten_concatenates_witness :
  let h : heap Z := [[1; 2; 3; 4; 5]; [6; 7]] in
  let hs : heap Slice :=
    [[mkSlice (Some 0%nat) 0 2 5; mkSlice None 0 0 0; mkSlice (Some 1%nat) 0 2 2;
      mkSlice (Some 0%nat) 1 3 4]] in
  let slice := mkSlice (Some 0%nat) 0 4 4 in
  let gc := fun _ n : Z => n in
  exists res h' res2 h2,
    Flatten gc hs slice h = Ok (res, h') /\
    content h' res = contents h (content hs slice) /\
    len res = total_len (content hs slice) /\
    is_nil res = false /\
    (forall t, wf_slice h t -> content h' t = content h t) /\
    Concat hs slice h = Ok (res2, h2) /\
    content h2 res2 = content h' res.
Proof.
  intros h hs slice gc. apply (Flatten_concatenates gc h hs slice).
  - intros c n Hn. unfold gc. lia.
  - wf_concrete.
  - repeat constructor; cbn; unfold max_int; lia.
  - vm_compute. discriminate.
Defined.

(** X16.  Flattening the chunks of a slice gives back the elements of the
    slice, for any chunk size of at least 1. *)
Theorem Flatten_Chunk_roundtrip {T : Type} `{Zero T}
    (growcap : Z -> Z -> Z) (hT : heap T) (slice : Slice) (size : Z)
    (hs : heap Slice) :
  growcap_ok growcap -> wf_slice hT slice ->
  1 <= size <= max_int -> len slice <= max_chunkable ->
  exists chunks hs' r hT',
    Chunk growcap slice size hs = Ok (chunks, hs') /\
    Flatten growcap hs' chunks hT = Ok (r, hT') /\
    content hT' r = content hT slice /\
    content hT' slice = content hT slice.
Proof.
  intros Hgc Wslice Hsize Hbound.
  destruct (Chunk_spec growcap Hgc hT slice size Wslice Hsize Hbound hs)
    as (chunks & hs' & Ec & Wc & Fc & Cc).
  assert (total_len (content hs' chunks) <= max_int) as Hmax.
  { rewrite <- (total_len_contents hT _ Fc), Cc.
    rewrite (content_length hT slice Wslice).
    destruct Wslice as (_ & Hl & Hcap & _). lia. }
  destruct (Flatten_spec growcap Hgc hT hs' chunks Wc Fc Hmax)
    as (r & hT' & Er & _ & Cr & _ & _ & F).
  exists chunks, hs', r, hT'. split; [exact Ec|]. split; [exact Er|].
  split; [rewrite Cr; exact Cc | apply F; exact Wslice].
Qed.

Lemma Flatten_Chunk_roundtrip_witness :
  let hT : heap Z := [[1; 2; 3; 4; 5; 6; 7]] in
  let s := mkSlice (Some 0%nat) 0 7 7 in
  let gc := fun _ n : Z => n in
  exists chunks hs' r hT',
    Chunk gc s 3 [] = Ok (chunks, hs') /\
    Flatten gc hs' chunks hT = Ok (r, hT') /\
    content hT' r = content hT s /\
    content hT' s = content hT s.
Proof.
  intros hT s gc.
  apply (Flatten_Chunk_roundtrip gc hT s 3 []).
  - intros c n Hn. unfold gc. lia.
  - wf_concrete.
  - unfold max_int. lia.
  - unfold max_chunkable. cbn. lia.
Defined.

Section GroupByFacts.

Context {T : Type} `{Zero T}.
Variable growcap : Z -> Z -> Z.
Hypothesis Hgc : growcap_ok growcap.
Context {U : Type} `{Countable U}.
Implicit Types (h : heap T) (result : gmap U Slice).

(** A header without backing array is well-formed, and empty, in every
    store. *)
Lemma wf_nil_arr h h' t :
  arr t = None -> wf_slice h t -> wf_slice h' t /\ content h' t = content h t.
Proof.
  intros Ha Hwf. unfold wf_slice, content, array_of in *. rewrite Ha in *.
  split; [exact Hwf | reflexivity].
Qed.

(** [append] leaves every slice on another array, and every slice without
    array, as it is. *)
Lemma append_frame h s (xs : list T) :
  wf_slice h s -> len s + Z.of_nat (length xs) <= max_int ->
  returns (append growcap s xs) h (fun s' h' =>
    wf_slice h' s' /\
    content h' s' = content h s ++ xs /\
    (arr s' = arr s \/ arr s' = Some (length h)) /\
    (xs <> [] -> arr s' <> None) /\
    (forall t, wf_slice h t -> arr t <> arr s \/ arr t = None ->
               wf_slice h' t /\ content h' t = content h t)).
Proof.
  intros Hwf Hmax.
  eapply returns_weaken; [apply (append_spec_full growcap h s xs Hgc Hwf Hmax)|].
  cbv beta. intros s' h' (W & C & _ & A & N & _ & F).
  split; [exact W|]. split; [exact C|]. split; [exact A|]. split; [exact N|].
  intros t Wt [Hne | Hnil]; [apply F; assumption | apply (wf_nil_arr h); assumption].
Qed.

Lemma wf_nil_slice h : wf_slice h nil_slice.
Proof. unfold wf_slice, max_int. cbn. repeat split; lia. Qed.

(** The loop of [GroupBy]. *)
Lemma GroupBy_loop_spec in_ (grouper : T -> U) rest :
  forall fuel done result h,
    wf_slice h in_ -> content h in_ = done ++ rest ->
    grouped h in_ grouper done result ->
    (length rest < fuel)%nat ->
    returns (GroupBy_loop growcap fuel in_ grouper (Z.of_nat (length done)) result) h
      (fun res h' =>
         grouped h' in_ grouper (done ++ rest) res /\
         (forall t, wf_slice h t ->
            (forall k g, result !! k = Some g -> arr t <> arr g) ->
            wf_slice h' t /\ content h' t = content h t)).
Proof.
  induction rest as [|x rest IH]; intros fuel done result h Hwf Hc Hinv Hfuel;
    (destruct fuel as [|fuel]; [cbn in Hfuel; lia|]); cbn [GroupBy_loop].
  - pose proof Hc as Hc0. rewrite app_nil_r in Hc0.
    rewrite (scan_end h in_ done Hwf Hc0). apply returns_ret.
    rewrite app_nil_r. split; [exact Hinv|].
    intros t Wt _. split; [exact Wt | reflexivity].
  - destruct (scan_step h in_ done x rest Hwf Hc) as (Hlt & Hg & Hadd & Hc').
    rewrite Hlt. apply returns_bind. eapply returns_eq; [apply index_ok; exact Hg|].
    cbv zeta. set (key := grouper x).
    set (g0 := default nil_slice (result !! key)).
    destruct Hinv as (Hsome & Hnone & Hinj).
    pose proof (content_length h in_ Hwf) as Hlen.
    rewrite Hc, length_app in Hlen. cbn [length] in Hlen, Hfuel.
    pose proof Hwf as (_ & Hl & Hcap & _).
    assert (wf_slice h g0 /\ content h g0 = filter (fun y => grouper y = key) done /\
            arr g0 <> arr in_ /\
            (forall k g, result !! k = Some g -> k <> key -> arr g <> arr g0)) as (W0 & C0 & A0 & D0).
    { unfold g0. destruct (result !! key) as [g|] eqn:Hk; cbn [default].
      - destruct (Hsome key g Hk) as (Wg & Cg & Ng & Ag & _).
        split; [exact Wg|]. split; [exact Cg|]. split; [exact Ag|].
        intros k g' Hk' Hne Harr. apply Hne. exact (Hinj k key g' g Hk' Hk Harr).
      - split; [apply wf_nil_slice|]. split.
        + rewrite (Hnone key Hk). apply content_nil. reflexivity.
        + split.
          * cbn [arr nil_slice]. intros Hn.
            destruct Hwf as (Ho & _ & _ & Hb & _). unfold array_of in Hb.
            rewrite <- Hn in Hb. cbn [length] in Hb. lia.
          * intros k g' Hk' _. cbn [arr nil_slice].
            destruct (Hsome k g' Hk') as (_ & _ & Ng & _). exact Ng. }
    pose proof (content_length h g0 W0) as Hl0. rewrite C0 in Hl0.
    pose proof (length_filter (fun y => grouper y = key) done) as Hfl.
    apply returns_bind.
    eapply returns_weaken; [apply (append_frame h g0 [x] W0); cbn [length]; lia|].
    cbv beta. intros g1 h1 (W1 & C1 & A1 & N1 & F1).
    specialize (N1 ltac:(discriminate)).
    rewrite Hadd.
    assert (arr g1 <> arr in_) as Hg1in.
    { destruct A1 as [-> | ->]; [exact A0 | apply not_eq_sym, wf_not_fresh; exact Hwf]. }
    destruct (F1 in_ Hwf (or_introl (not_eq_sym A0))) as (Win1 & Cin1).
    assert (grouped h1 in_ grouper (done ++ [x]) (<[key := g1]> result)) as Hinv1.
    { split; [|split].
      - intros k g Hk. destruct (decide (k = key)) as [-> | Hne].
        + rewrite lookup_insert_eq in Hk. injection Hk as <-.
          split; [exact W1|]. split.
          * rewrite C1, C0, filter_app, filter_cons_True by reflexivity. reflexivity.
          * split; [assumption|]. split; [assumption|].
            rewrite C1. intros Hnil. apply app_eq_nil in Hnil as (_ & Hnil). discriminate.
        + rewrite lookup_insert_ne in Hk by congruence.
          destruct (Hsome k g Hk) as (Wg & Cg & Ng & Ag & Eg).
          destruct (F1 g Wg (or_introl (D0 k g Hk Hne))) as (Wg1 & Cg1).
          split; [exact Wg1|]. split.
          * rewrite Cg1, Cg, filter_app, filter_cons_False by (fold key; congruence).
            rewrite filter_nil, app_nil_r. reflexivity.
          * split; [assumption|]. split; [assumption|]. rewrite Cg1. exact Eg.
      - intros k Hk. destruct (decide (k = key)) as [-> | Hne].
        + rewrite lookup_insert_eq in Hk. discriminate.
        + rewrite lookup_insert_ne in Hk by congruence.
          rewrite filter_app, (Hnone k Hk), filter_cons_False by (fold key; congruence).
          reflexivity.
      - intros k1 k2 g2 g3 Hk1 Hk2 Harr.
        assert (forall k g, result !! k = Some g -> k <> key -> arr g <> arr g1) as Hfar.
        { intros k g Hk Hne. destruct A1 as [-> | ->]; [exact (D0 k g Hk Hne)|].
          apply wf_not_fresh. destruct (Hsome k g Hk) as (Wg & _). exact Wg. }
        destruct (decide (k1 = key)) as [-> | Hne1];
          destruct (decide (k2 = key)) as [-> | Hne2]; [reflexivity| | |].
        + rewrite lookup_insert_eq in Hk1. injection Hk1 as <-.
          rewrite lookup_insert_ne in Hk2 by congruence.
          exfalso. exact (Hfar k2 g3 Hk2 Hne2 (eq_sym Harr)).
        + rewrite lookup_insert_eq in Hk2. injection Hk2 as <-.
          rewrite lookup_insert_ne in Hk1 by congruence.
          exfalso. exact (Hfar k1 g2 Hk1 Hne1 Harr).
        + rewrite lookup_insert_ne in Hk1 by congruence.
          rewrite lookup_insert_ne in Hk2 by congruence.
          exact (Hinj k1 k2 g2 g3 Hk1 Hk2 Harr). }
    assert (content h1 in_ = (done ++ [x]) ++ rest) as Hc1 by (rewrite Cin1; exact Hc').
    eapply returns_weaken;
      [apply (IH fuel (done ++ [x]) (<[key := g1]> result) h1 Win1 Hc1 Hinv1); lia|].
    cbv beta. intros res h' (Hinv' & F).
    split; [rewrite <- app_assoc in Hinv'; exact Hinv'|].
    intros t Wt Hfar.
    assert (arr t <> arr g0 \/ arr t = None) as Ht0.
    { unfold g0. destruct (result !! key) as [g|] eqn:Hk; cbn [default].
      - left. exact (Hfar key g Hk).
      - cbn [arr nil_slice]. destruct (arr t); [left; discriminate | right; reflexivity]. }
    destruct (F1 t Wt Ht0) as (Wt1 & Ct1).
    destruct (F t Wt1) as (Wt' & Ct').
    + intros k g Hk. destruct (decide (k = key)) as [-> | Hne].
      * rewrite lookup_insert_eq in Hk. injection Hk as <-.
        destruct A1 as [A1 | A1]; rewrite A1; [|apply wf_not_fresh; exact Wt].
        unfold g0. destruct (result !! key) as [g|] eqn:Hk; cbn [default].
        -- exact (Hfar key g Hk).
        -- exfalso. apply N1. rewrite A1. reflexivity.
      * rewrite lookup_insert_ne in Hk by congruence. exact (Hfar k g Hk).
    + split; [exact Wt' | congruence].
Qed.

End GroupByFacts.

(** X17.  [GroupBy] returns a map whose keys are exactly the keys the
    grouper gives to some element; the group of a key holds the elements
    with that key in their order in the slice; two groups never share a
    backing array, and the slices that existed before, the argument among
    them, keep their content. *)
Theorem GroupBy_groups_in_order {T U : Type} `{Zero T} `{Countable U}
    (growcap : Z -> Z -> Z) (h : heap T) (in_ : Slice) (grouper : T -> U) :
  growcap_ok growcap -> wf_slice h in_ ->
  exists (res : gmap U Slice) h',
    GroupBy growcap in_ grouper h = Ok (res, h') /\
    (forall k,
       match res !! k with
       | Some g =>
           content h' g = filter (fun x => grouper x = k) (content h in_) /\
           content h' g <> [] /\ is_nil g = false
       | None => forall x, x ∈ content h in_ -> grouper x <> k
       end) /\
    (forall k1 k2 g1 g2, res !! k1 = Some g1 -> res !! k2 = Some g2 ->
       k1 <> k2 -> arr g1 <> arr g2) /\
    (forall t, wf_slice h t -> content h' t = content h t).
Proof.
  intros Hgc Hwf. pose proof (content_length h in_ Hwf) as Hlen.
  assert (grouped h in_ grouper [] (∅ : gmap U Slice)) as Hinv0.
  { split; [|split].
    - intros k g Hk. rewrite lookup_empty in Hk. discriminate.
    - intros k _. reflexivity.
    - intros k1 k2 g1 g2 Hk. rewrite lookup_empty in Hk. discriminate. }
  destruct (GroupBy_loop_spec growcap Hgc in_ grouper (content h in_)
              (S (Z.to_nat (len in_))) [] ∅ h Hwf eq_refl Hinv0 ltac:(lia))
    as (res & h' & E & (Hsome & Hnone & Hinj) & F).
  cbn [app] in Hsome, Hnone.
  exists res, h'. split; [exact E|]. split; [|split].
  - intros k. destruct (res !! k) as [g|] eqn:Hk.
    + destruct (Hsome k g Hk) as (Wg & Cg & Ng & _ & Eg).
      split; [exact Cg|]. split; [exact Eg|].
      unfold is_nil. destruct (arr g); [reflexivity | congruence].
    + intros x Hx Hgx. pose proof (Hnone k Hk) as Hf.
      assert (x ∈ filter (fun y => grouper y = k) (content h in_)) as Hin
        by (apply list_elem_of_filter; split; assumption).
      rewrite Hf in Hin. inversion Hin.
  - intros k1 k2 g1 g2 Hk1 Hk2 Hne Harr. apply Hne.
    exact (Hinj k1 k2 g1 g2 Hk1 Hk2 Harr).
  - intros t Wt. apply F; [exact Wt|].
    intros k g Hk. rewrite lookup_empty in Hk. discriminate.
Qed.

Lemma GroupBy_groups_in_order_witness :
  let h : heap Z := [[1; 2; 3; 4; 5; 6; 7]] in
  let s := mkSlice (Some 0%nat) 0 7 7 in
  let gc := fun _ n : Z => n in
  let grouper := fun x : Z => x mod 3 in
  exists (res : gmap Z Slice) h',
    GroupBy gc s grouper h = Ok (res, h') /\
    (forall k,
       match res !! k with
       | Some g =>
           content h' g = filter (fun x => grouper x = k) (content h s) /\
           content h' g <> [] /\ is_nil g = false
       | None => forall x, x ∈ content h s -> grouper x <> k
       end) /\
    (forall k1 k2 g1 g2, res !! k1 = Some g1 -> res !! k2 = Some g2 ->
       k1 <> k2 -> arr g1 <> arr g2) /\
    (forall t, wf_slice h t -> content h' t = content h t).
Proof.
  intros h s gc grouper. apply (GroupBy_groups_in_order gc h s grouper).
  - intros c n Hn. unfold gc. lia.
  - wf_concrete.
Defined.

Section AssociateFacts.

Context {T : Type} `{Zero T}.
Context {K V : Type} `{Countable K}.

(** The loop of [Associate]: the store is only read and the map is
    updated element by element. *)
Lemma Associate_loop_spec (h : heap T) in_ (transformer : T -> K * V) rest :
  forall fuel done (res : gmap K V),
    wf_slice h in_ -> content h in_ = done ++ rest ->
    (length rest < fuel)%nat ->
    Associate_loop fuel in_ transformer (Z.of_nat (length done)) res h =
    Ok (foldl (fun m x => <[(transformer x).1 := (transformer x).2]> m) res rest, h).
Proof.
  induction rest as [|x rest IH]; intros fuel done res Hwf Hc Hfuel;
    (destruct fuel as [|fuel]; [cbn in Hfuel; lia|]); cbn [Associate_loop].
  - rewrite app_nil_r in Hc. rewrite (scan_end h in_ done Hwf Hc). reflexivity.
  - destruct (scan_step h in_ done x rest Hwf Hc) as (Hlt & Hg & Hadd & Hc').
    rewrite Hlt. unfold bind at 1. rewrite (index_ok h in_ _ x Hg). rewrite Hadd.
    cbn [foldl]. cbn [length] in Hfuel.
    destruct (transformer x) as [k v] eqn:Ht. cbn [fst snd].
    apply IH; [exact Hwf | exact Hc' | lia].
Qed.

(** In a map filled pair by pair, a key holds the value of the last pair
    with that key. *)
Lemma last_write_wins (ps : list (K * V)) : forall (m : gmap K V) k,
  foldl (fun m p => <[p.1 := p.2]> m) m ps !! k =
  match last (filter (fun p => p.1 = k) ps) with
  | Some p => Some p.2
  | None => m !! k
  end.
Proof.
  induction ps as [|p ps IH]; intros m k; [reflexivity|].
  cbn [foldl]. rewrite IH.
  destruct (decide (p.1 = k)) as [Hp | Hp].
  - rewrite filter_cons_True by exact Hp. rewrite last_cons.
    destruct (last (filter (fun p => p.1 = k) ps)); [reflexivity|].
    rewrite Hp. apply lookup_insert_eq.
  - rewrite filter_cons_False by exact Hp.
    destruct (last (filter (fun p => p.1 = k) ps)); [reflexivity|].
    apply lookup_insert_ne. exact Hp.
Qed.

End AssociateFacts.

(** X18.  [Associate] only reads the slice and returns the map in which
    every key is bound to the value of the last element that generated it;
    a key no element generates is absent, and the map has at most
    [len(in)] entries. *)
Theorem Associate_last_write_wins {T K V : Type} `{Zero T} `{Countable K}
    (h : heap T) (in_ : Slice) (transformer : T -> K * V) :
  wf_slice h in_ ->
  exists res : gmap K V,
    Associate in_ transformer h = Ok (res, h) /\
    (forall k,
       res !! k =
       snd <$> last (filter (fun p => p.1 = k) (transformer <$> content h in_))) /\
    Z.of_nat (size res) <= len in_.
Proof.
  intros Hwf. pose proof (content_length h in_ Hwf) as Hlen.
  pose proof Hwf as (_ & Hl & _).
  eexists. split.
  - unfold Associate.
    apply (Associate_loop_spec h in_ transformer (content h in_) _ [] ∅ Hwf eq_refl). lia.
  - assert (forall (l : list T) (m : gmap K V),
              foldl (fun m x => <[(transformer x).1 := (transformer x).2]> m) m l =
              foldl (fun m p => <[p.1 := p.2]> m) m (transformer <$> l)) as Hfold.
    { induction l as [|x l IH]; intros m; [reflexivity|]. cbn [foldl fmap list_fmap]. apply IH. }
    split.
    + intros k. rewrite Hfold, last_write_wins, lookup_empty.
      destruct (last _); reflexivity.
    + assert (forall (l : list T) (m : gmap K V),
                (size (foldl (fun m x => <[(transformer x).1 := (transformer x).2]> m) m l)
                 <= size m + length l)%nat) as Hsize.
      { induction l as [|x l IH]; intros m; cbn [foldl length]; [lia|].
        etransitivity; [apply IH|].
        pose proof (map_size_insert (transformer x).1 (transformer x).2 m) as Hs.
        destruct (m !! (transformer x).1); unfold id in Hs; lia. }
      specialize (Hsize (content h in_) ∅). rewrite map_size_empty in Hsize. lia.
Qed.

Lemma Associate_last_write_wins_witness :
  let h : heap Z := [[10; 21; 32; 40]] in
  let s := mkSlice (Some 0%nat) 0 4 4 in
  let transformer := fun x : Z => (x mod 10, x) in
  exists res : gmap Z Z,
    Associate s transformer h = Ok (res, h) /\
    (forall k,
       res !! k =
       snd <$> last (filter (fun p => p.1 = k) (transformer <$> content h s))) /\
    Z.of_nat (size res) <= len s.
Proof.
  intros h s transformer. apply (Associate_last_write_wins h s transformer). wf_concrete.
Defined.

Section ChunkShape.

Context {T : Type}.
Variable growcap : Z -> Z -> Z.
Hypothesis growcap_good : growcap_ok growcap.
Variables (slice : Slice) (size : Z).
Hypothesis Hlen : 0 <= len slice <= cap slice.
Hypothesis Hsize : 1 <= size <= max_int.
Hypothesis Hbound : len slice <= max_chunkable.

Lemma chunk_count_done (j : nat) :
  len slice <= Z.of_nat j * size -> (chunk_count slice size <= j)%nat.
Proof.
  intros Hj. unfold chunk_count.
  assert ((len slice + size - 1) / size < Z.of_nat j + 1)
    by (apply Z.div_lt_upper_bound; nia).
  lia.
Qed.

Lemma chunk_count_more (j : nat) :
  Z.of_nat j * size < len slice -> (j < chunk_count slice size)%nat.
Proof.
  intros Hj. unfold chunk_count.
  assert (Z.of_nat j + 1 <= (len slice + size - 1) / size)
    by (apply Z.div_le_lower_bound; nia).
  lia.
Qed.

(** The loop of [Chunk] appends the headers of the chunks [j], [j+1],
    ... *)
Lemma Chunk_loop_shape :
  forall fuel (j : nat) chunks (hs : heap Slice),
    wf_slice hs chunks -> len chunks = Z.of_nat j ->
    Z.of_nat j * size < len slice + size ->
    (Z.to_nat (len slice - Z.of_nat j * size) < fuel)%nat ->
    returns (Chunk_loop growcap fuel slice size (Z.of_nat j * size) chunks) hs
      (fun chunks' hs' =>
         content hs' chunks' =
         content hs chunks ++
         map (chunk_at slice size) (seq j (chunk_count slice size - j))).
Proof.
  unfold max_chunkable in Hbound. pose proof max_int_pos as Hmp.
  induction fuel as [|fuel IH]; intros j chunks hs Wc Hlc Hlt Hfuel; [lia|].
  cbn [Chunk_loop]. set (i := Z.of_nat j * size).
  destruct (Z.ltb_spec i (len slice)) as [Hin | Hout].
  - assert (0 <= i) as Hi by (unfold i; nia).
    assert (i = 0 \/ size <= i) as Hmul by (unfold i; destruct j; [left; lia | right; nia]).
    assert (in_range (i + size)) as Hr by (unfold in_range, min_int, max_int in *; lia).
    rewrite !add_id by exact Hr.
    set (end_ := if i + size >? len slice then len slice else i + size).
    assert (i < end_ <= len slice /\ end_ - i = Z.min size (len slice - i)) as (He & Hmin)
      by (unfold end_; destruct (Z.gtb_spec (i + size) (len slice)); lia).
    apply returns_bind. eapply returns_lift; [apply reslice_ok; lia|].
    rewrite Hmin. fold (chunk_at slice size j).
    apply returns_bind.
    eapply returns_weaken;
      [apply (append_spec growcap growcap_good hs chunks [chunk_at slice size j] Wc);
       cbn [length]; unfold max_int; nia|].
    cbv beta. intros chunks1 hs1 (W1 & C1 & L1 & _).
    replace (i + size) with (Z.of_nat (S j) * size) by (unfold i; lia).
    eapply returns_weaken; [apply (IH (S j) chunks1 hs1 W1)|].
    + rewrite L1. cbn [length]. lia.
    + unfold i in *. nia.
    + unfold i in *. nia.
    + cbv beta. intros chunks' hs' C'.
      rewrite C', C1, <- app_assoc. f_equal.
      pose proof (chunk_count_more j Hin) as Hmore.
      replace (chunk_count slice size - j)%nat with (S (chunk_count slice size - S j)) by lia.
      reflexivity.
  - apply returns_ret. pose proof (chunk_count_done j Hout) as Hdone.
    replace (chunk_count slice size - j)%nat with 0%nat by lia.
    cbn [seq map]. rewrite app_nil_r. reflexivity.
Qed.

End ChunkShape.

(** X19.  [Chunk] returns [ceil(len/size)] chunks.  Chunk [k] is the
    window [slice[k*size : min((k+1)*size, len)]]: it lies on the backing
    array of the argument, starts [k*size] elements further, and has
    [min(size, len - k*size)] elements, so every chunk holds between 1 and
    [size] elements and every chunk except the last holds [size]. *)
Theorem Chunk_shape (growcap : Z -> Z -> Z) (slice : Slice) (size : Z)
    (hs : heap Slice) :
  growcap_ok growcap -> 0 <= len slice <= cap slice ->
  1 <= size <= max_int -> len slice <= max_chunkable ->
  exists chunks hs',
    Chunk growcap slice size hs = Ok (chunks, hs') /\
    content hs' chunks = map (chunk_at slice size) (seq 0 (chunk_count slice size)) /\
    Z.of_nat (chunk_count slice size) = (len slice + size - 1) / size /\
    (forall k c, content hs' chunks !! k = Some c ->
       arr c = arr slice /\ off c = off slice + Z.of_nat k * size /\
       1 <= len c <= size /\
       ((S k < chunk_count slice size)%nat -> len c = size)).
Proof.
  intros Hgc Hlen Hsize Hbound. pose proof max_int_pos as Hmp.
  unfold Chunk. replace (size <? 1) with false by (symmetry; apply Z.ltb_ge; lia).
  unfold bind at 1. rewrite make_ok by lia.
  set (c0 := mkSlice (Some (length hs)) 0 0 0).
  set (h0 := hs ++ [replicate (Z.to_nat 0) zero]).
  assert (wf_slice h0 c0) as W0 by (apply wf_fresh; cbn [length]; lia).
  destruct (Chunk_loop_shape growcap Hgc slice size Hlen Hsize Hbound
              (S (Z.to_nat (len slice))) 0%nat c0 h0 W0 eq_refl ltac:(lia) ltac:(lia))
    as (chunks & hs' & E & C).
  exists chunks, hs'. split; [exact E|].
  assert (content hs' chunks = map (chunk_at slice size) (seq 0 (chunk_count slice size))) as C'.
  { rewrite C. unfold c0, h0. rewrite content_fresh, Nat.sub_0_r. reflexivity. }
  split; [exact C'|].
  assert (0 <= (len slice + size - 1) / size) as Hnn by (apply Z.div_pos; lia).
  split; [unfold chunk_count; lia|].
  intros k c Hk. rewrite C' in Hk.
  rewrite list_lookup_fmap in Hk.
  destruct (seq 0 (chunk_count slice size) !! k) as [k'|] eqn:Hs; [|discriminate].
  apply lookup_seq in Hs as (-> & Hlt). cbn in Hk. injection Hk as <-.
  unfold chunk_at. cbn [arr off len cap Nat.add].
  split; [reflexivity|]. split; [reflexivity|].
  assert (Z.of_nat k * size < len slice) as Hin.
  { unfold chunk_count in Hlt.
    assert (Z.of_nat k + 1 <= (len slice + size - 1) / size) as Hq by lia.
    pose proof (Z.mul_div_le (len slice + size - 1) size ltac:(lia)). nia. }
  split; [lia|].
  intros Hnext. unfold chunk_count in Hnext.
  assert (Z.of_nat k + 2 <= (len slice + size - 1) / size) as Hq by lia.
  pose proof (Z.mul_div_le (len slice + size - 1) size ltac:(lia)). nia.
Qed.

Lemma Chunk_shape_witness :
  let s := mkSlice (Some 0%nat) 2 15 20 in
  let gc := fun _ n : Z => n in
  exists chunks hs',
    Chunk gc s 4 [] = Ok (chunks, hs') /\
    content hs' chunks = map (chunk_at s 4) (seq 0 (chunk_count s 4)) /\
    Z.of_nat (chunk_count s 4) = (len s + 4 - 1) / 4 /\
    (forall k c, content hs' chunks !! k = Some c ->
       arr c = arr s /\ off c = off s + Z.of_nat k * 4 /\
       1 <= len c <= 4 /\
       ((S k < chunk_count s 4)%nat -> len c = 4)).
Proof.
  intros s gc. apply (Chunk_shape gc s 4 []).
  - intros c n Hn. unfold gc. lia.
  - cbn. lia.
  - unfold max_int. lia.
  - unfold max_chunkable. cbn. lia.
Defined.

(** X20.  [Chunk] panics exactly when [size] is less than 1, whatever the
    slice, and [Batch] behaves as [Chunk] in every case. *)
Theorem Chunk_panics_iff_size_below_one (growcap : Z -> Z -> Z)
    (slice : Slice) (size : Z) (hs : heap Slice) :
  growcap_ok growcap -> 0 <= len slice <= cap slice ->
  size <= max_int -> len slice <= max_chunkable ->
  (Chunk growcap slice size hs = Panic <-> size < 1) /\
  Batch growcap slice size hs = Chunk growcap slice size hs.
Proof.
  intros Hgc Hlen Hsize Hbound. split; [|reflexivity].
  split.
  - intros Hp. destruct (Z.lt_ge_cases size 1) as [Hlt | Hge]; [exact Hlt|].
    exfalso. pose proof max_int_pos as Hmp. revert Hp.
    unfold Chunk. replace (size <? 1) with false by (symmetry; apply Z.ltb_ge; lia).
    unfold bind at 1. rewrite make_ok by lia.
    destruct (Chunk_loop_shape growcap Hgc slice size Hlen ltac:(lia) Hbound
                (S (Z.to_nat (len slice))) 0%nat
                (mkSlice (Some (length hs)) 0 0 0) (hs ++ [replicate (Z.to_nat 0) zero])
                ltac:(apply wf_fresh; cbn [length]; lia) eq_refl ltac:(lia) ltac:(lia))
      as (chunks & hs' & E & _).
    change (Z.of_nat 0 * size) with 0 in E. rewrite E. discriminate.
  - intros Hlt. unfold Chunk.
    replace (size <? 1) with true by (symmetry; apply Z.ltb_lt; lia). reflexivity.
Qed.

Lemma Chunk_panics_iff_size_below_one_witness :
  let s := mkSlice (Some 0%nat) 0 5 5 in
  let gc := fun _ n : Z => n in
  (Chunk gc s 0 [] = Panic <-> 0 < 1) /\
  Batch gc s 0 [] = Chunk gc s 0 [].
Proof.
  intros s gc. apply (Chunk_panics_iff_size_below_one gc s 0 []).
  - intros c n Hn. unfold gc. lia.
  - cbn. lia.
  - unfold max_int. lia.
  - unfold max_chunkable. cbn. lia.
Defined.

(** X21.  The chunks are views of the slice, not copies: for a chunk [c]
    at position [k] of the result, the assignment [c[j] = x] has exactly
    the effect of [slice[k*size + j] = x] on the store. *)
Theorem Chunk_chunks_alias_slice {T : Type} (growcap : Z -> Z -> Z)
    (hT : heap T) (slice : Slice) (size : Z) (hs : heap Slice) :
  growcap_ok growcap -> wf_slice hT slice ->
  1 <= size <= max_int -> len slice <= max_chunkable ->
  exists chunks hs',
    Chunk growcap slice size hs = Ok (chunks, hs') /\
    forall k c j x,
      content hs' chunks !! k = Some c -> 0 <= j < len c ->
      exists hT',
        store c j x hT = Ok (tt, hT') /\
        store slice (Z.of_nat k * size + j) x hT = Ok (tt, hT') /\
        content hT' slice = <[(k * Z.to_nat size + Z.to_nat j)%nat := x]> (content hT slice).
Proof.
  intros Hgc Hwf Hsize Hbound. pose proof max_int_pos as Hmp.
  pose proof Hwf as (Ho & Hl & Hcap & Hb & Ha).
  unfold Chunk. replace (size <? 1) with false by (symmetry; apply Z.ltb_ge; lia).
  unfold bind at 1. rewrite make_ok by lia.
  destruct (Chunk_loop_shape growcap Hgc slice size Hl Hsize Hbound
              (S (Z.to_nat (len slice))) 0%nat
              (mkSlice (Some (length hs)) 0 0 0) (hs ++ [replicate (Z.to_nat 0) zero])
              ltac:(apply wf_fresh; cbn [length]; lia) eq_refl ltac:(lia) ltac:(lia))
    as (chunks & hs' & E & C).
  exists chunks, hs'. split; [exact E|].
  assert (content hs' chunks = map (chunk_at slice size) (seq 0 (chunk_count slice size))) as C'
    by (rewrite C, content_fresh, Nat.sub_0_r; reflexivity).
  intros k c j x Hk Hj. rewrite C' in Hk. rewrite list_lookup_fmap in Hk.
  destruct (seq 0 (chunk_count slice size) !! k) as [k'|] eqn:Hs; [|discriminate].
  apply lookup_seq in Hs as (-> & Hlt). cbn in Hk. injection Hk as <-.
  unfold chunk_at in *. cbn [arr off len cap Nat.add] in *.
  assert (0 <= Z.of_nat k * size) as Hk0 by nia.
  assert (0 <= Z.of_nat k * size + j < len slice) as Hin by lia.
  exists (write hT slice (Z.of_nat k * size + j) [x]).
  split.
  - unfold store. cbn [len].
    replace ((0 <=? j) && (j <? Z.min size (len slice - Z.of_nat k * size))) with true
      by (symmetry; apply andb_true_iff; split; [apply Z.leb_le | apply Z.ltb_lt]; lia).
    unfold write, array_of. cbn [arr off].
    rewrite Z.add_assoc. reflexivity.
  - split; [apply store_ok; exact Hin|].
    rewrite content_store by assumption. f_equal. nia.
Qed.

Lemma Chunk_chunks_alias_slice_witness :
  let hT : heap Z := [[1; 2; 3; 4; 5; 6; 7]] in
  let s := mkSlice (Some 0%nat) 0 7 7 in
  let gc := fun _ n : Z => n in
  exists chunks hs',
    Chunk gc s 3 [] = Ok (chunks, hs') /\
    forall k c j x,
      content hs' chunks !! k = Some c -> 0 <= j < len c ->
      exists hT',
        store c j x hT = Ok (tt, hT') /\
        store s (Z.of_nat k * 3 + j) x hT = Ok (tt, hT') /\
        content hT' s = <[(k * Z.to_nat 3 + Z.to_nat j)%nat := x]> (content hT s).
Proof.
  intros hT s gc. apply (Chunk_chunks_alias_slice gc hT s 3 []).
  - intros c n Hn. unfold gc. lia.
  - wf_concrete.
  - unfold max_int. lia.
  - unfold max_chunkable. cbn. lia.
Defined.

(** An assignment that succeeds wrote one element. *)
Lemma store_inv {A : Type} (h h' : heap A) (s : Slice) (i : Z) (x : A) :
  store s i x h = Ok (tt, h') -> h' = write h s i [x] /\ 0 <= i < len s.
Proof.
  unfold store. destruct ((0 <=? i) && (i <? len s)) eqn:E; [|discriminate].
  intros [= <-]. split; [reflexivity|].
  apply andb_true_iff in E as (E1 & E2).
  apply Z.leb_le in E1. apply Z.ltb_lt in E2. lia.
Qed.

(** X22.  [Clone] of a non-nil slice returns a slice of the same length
    and content on a new backing array, so the two are independent: an
    assignment to an element of one leaves the content of the other. *)
Theorem Clone_is_independent_copy {A : Type} `{Zero A} (h : heap A) (slice : Slice) :
  wf_slice h slice -> is_nil slice = false ->
  exists cloned h',
    Clone slice h = Ok (cloned, h') /\
    content h' cloned = content h slice /\
    content h' slice = content h slice /\
    len cloned = len slice /\
    arr cloned = Some (length h) /\ arr cloned <> arr slice /\
    (forall i x h'', store cloned i x h' = Ok (tt, h'') ->
       content h'' slice = content h slice) /\
    (forall i x h'', store slice i x h' = Ok (tt, h'') ->
       content h'' cloned = content h slice).
Proof.
  intros Hwf Hnil.
  destruct (Clone_spec h slice Hwf Hnil) as (cloned & h' & E & W & _ & Ha & Cc & Cs).
  pose proof (content_length h' cloned W) as L1.
  pose proof (content_length h slice Hwf) as L2.
  pose proof Hwf as (_ & Hl & _). pose proof W as (_ & Hl' & _).
  assert (arr cloned <> arr slice) as Hne
    by (rewrite Ha; apply not_eq_sym, wf_not_fresh; exact Hwf).
  exists cloned, h'. split; [exact E|]. split; [exact Cc|]. split; [exact Cs|].
  split; [rewrite Cc in L1; lia|]. split; [exact Ha|]. split; [exact Hne|].
  split.
  - intros i x h'' Hs. apply store_inv in Hs as (-> & _).
    rewrite content_write_other by (apply not_eq_sym; exact Hne). exact Cs.
  - intros i x h'' Hs. apply store_inv in Hs as (-> & _).
    rewrite content_write_other by exact Hne. exact Cc.
Qed.

Lemma Clone_is_independent_copy_witness :
  let h : heap Z := [[1; 2; 3; 4]] in
  let s := mkSlice (Some 0%nat) 1 2 3 in
  exists cloned h',
    Clone s h = Ok (cloned, h') /\
    content h' cloned = content h s /\
    content h' s = content h s /\
    len cloned = len s /\
    arr cloned = Some (length h) /\ arr cloned <> arr s /\
    (forall i x h'', store cloned i x h' = Ok (tt, h'') ->
       content h'' s = content h s) /\
    (forall i x h'', store s i x h' = Ok (tt, h'') ->
       content h'' cloned = content h s).
Proof.
  intros h s. apply (Clone_is_independent_copy h s); [wf_concrete | reflexivity].
Defined.

(** X23.  [Remove] works in place: the slice returned starts at the same
    element of the same backing array as the argument, with the same
    capacity, so the argument itself now begins with the elements kept.
    The count returned is what [Count] gives on the argument beforehand,
    and afterwards [Contains] and [Index] no longer find the item. *)
Theorem Remove_in_place_and_counts {A : Type} `{Zero A} `{EqDecision A}
    (growcap : Z -> Z -> Z) (h : heap A) (slice : Slice) (item : A) :
  wf_slice h slice ->
  exists s' removed h',
    Remove growcap slice item h = Ok ((s', removed), h') /\
    arr s' = arr slice /\ off s' = off slice /\ cap s' = cap slice /\
    take (Z.to_nat (len s')) (content h' slice) = content h' s' /\
    Count slice item h = Ok (removed, h) /\
    Contains s' item h' = Ok (false, h') /\
    Index s' item h' = Ok (-1, h').
Proof.
  intros Hwf. pose proof Hwf as (Ho & Hl & Hcap & Hb & Ha).
  pose proof (content_length h slice Hwf) as Hlen.
  destruct (Remove_loop_spec growcap item (content h slice)
              (S (Z.to_nat (len slice))) [] slice h 0)
    as ([s' removed] & h' & Heq & W & C & R & As & Os & Cs & _);
    [exact Hwf | reflexivity | lia | lia | lia |].
  cbn [fst snd app length] in *.
  pose proof (content_length h' s' W) as Hlen'.
  pose proof (length_filter (fun y => y <> item) (content h slice)) as Hle.
  pose proof W as (_ & Hl' & _).
  assert (item ∉ content h' s') as Hnot
    by (rewrite C, list_elem_of_filter; intros [Hne _]; apply Hne; reflexivity).
  exists s', removed, h'. split; [exact Heq|].
  split; [exact As|]. split; [exact Os|]. split; [exact Cs|].
  split.
  { unfold content, array_of. rewrite As, Os. rewrite take_take. f_equal.
    rewrite C in Hlen'. lia. }
  split.
  { unfold Count.
    rewrite (Count_loop_spec h slice item (content h slice) _ [] 0 Hwf eq_refl) by lia.
    do 2 f_equal. rewrite R. unfold occurrences.
    assert (forall l : list A,
              (length (filter (fun y => y = item) l)
               + length (filter (fun y => y <> item) l) = length l)%nat) as Hsplit.
    { induction l as [|y l IH]; [reflexivity|].
      destruct (decide (y = item)) as [Hy | Hy].
      - rewrite filter_cons_True by exact Hy.
        rewrite (filter_cons_False (fun y => y <> item)) by (intros Hn; apply Hn; exact Hy).
        cbn [length]. lia.
      - rewrite filter_cons_False by exact Hy.
        rewrite (filter_cons_True (fun y => y <> item)) by exact Hy.
        cbn [length]. lia. }
    specialize (Hsplit (content h slice)). lia. }
  split.
  - unfold Contains.
    rewrite (Contains_loop_spec h' s' item (content h' s') _ [] W eq_refl) by lia.
    rewrite bool_decide_eq_false_2 by exact Hnot. reflexivity.
  - unfold Index.
    rewrite (Index_loop_spec h' s' item (content h' s') _ [] W eq_refl) by lia.
    destruct (list_find (fun x => x = item) (content h' s')) as [[i x]|] eqn:Hf; [|reflexivity].
    apply list_find_Some in Hf as (Hi & -> & _).
    exfalso. apply Hnot. apply list_elem_of_lookup_2 in Hi. exact Hi.
Qed.

Lemma Remove_in_place_and_counts_witness :
  let h : heap Z := [[1; 2; 1; 3; 1]] in
  let s := mkSlice (Some 0%nat) 0 5 5 in
  let gc := fun _ n : Z => n in
  exists s' removed h',
    Remove gc s 1 h = Ok ((s', removed), h') /\
    arr s' = arr s /\ off s' = off s /\ cap s' = cap s /\
    take (Z.to_nat (len s')) (content h' s) = content h' s' /\
    Count s 1 h = Ok (removed, h) /\
    Contains s' 1 h' = Ok (false, h') /\
    Index s' 1 h' = Ok (-1, h').
Proof.
  intros h s gc. apply (Remove_in_place_and_counts gc h s 1). wf_concrete.
Defined.

Example Remove_overwrites_argument :
  Remove (fun _ n => n) (mkSlice (Some 0%nat) 0 4 4) 1 ([[1; 2; 1; 3]] : heap Z)
  = Ok ((mkSlice (Some 0%nat) 0 2 4, 2), [[2; 3; 3; 3]]).
Proof. vm_compute. reflexivity. Qed.

Section InsertAliasing.

Context {A : Type} `{Zero A}.
Implicit Types (h : heap A).

(** With spare capacity the header returned is the argument extended by
    one element. *)
Lemma Insert_in_place_header h slice idx item :
  wf_slice h slice -> len slice + 1 <= cap slice -> 0 <= idx <= len slice ->
  returns (Insert slice idx item) h (fun s2 _ =>
    s2 = mkSlice (arr slice) (off slice) (len slice + 1) (cap slice)).
Proof.
  intros Hwf Hcap Hidx. pose proof Hwf as (Ho & Hl & Hc & Hb & Ha).
  pose proof max_int_pos as Hmax.
  unfold Insert. rewrite add_id by (unfold in_range, min_int; lia).
  replace (len slice + 1 <=? cap slice) with true by (symmetry; apply Z.leb_le; lia).
  apply returns_bind. eapply returns_lift; [apply reslice_ok; lia|].
  rewrite Z.add_0_r, !Z.sub_0_r.
  rewrite add_id by (unfold in_range, min_int; lia).
  apply returns_bind. eapply returns_lift; [apply reslice_ok; cbn [len cap]; lia|].
  apply returns_bind. eapply returns_lift; [apply reslice_ok; lia|].
  apply returns_bind. eapply returns_eq; [apply copy_ok|].
  apply returns_bind. eapply returns_lift; [apply reslice_ok; cbn [len cap]; lia|].
  apply returns_bind. eapply returns_eq; [apply slice_lit_ok|].
  apply returns_bind. eapply returns_eq; [apply copy_ok|].
  apply returns_ret. reflexivity.
Qed.

(** Without spare capacity the arrays that exist are not written. *)
Lemma Insert_alloc_frame h slice idx item :
  wf_slice h slice -> len slice < max_int -> cap slice < len slice + 1 ->
  0 <= idx <= len slice ->
  returns (Insert slice idx item) h (fun _ h' =>
    forall b, (b < length h)%nat -> h' !! b = h !! b).
Proof.
  intros Hwf Hlen Hcap Hidx. pose proof Hwf as (Ho & Hl & Hc & Hb & Ha).
  unfold Insert. rewrite add_id by (unfold in_range, min_int; lia).
  replace (len slice + 1 <=? cap slice) with false by (symmetry; apply Z.leb_gt; lia).
  apply returns_bind. eapply returns_eq; [apply make_ok; lia|].
  apply returns_bind. eapply returns_lift; [apply reslice_ok; lia|].
  apply returns_bind. eapply returns_eq; [apply copy_ok|].
  apply returns_bind. eapply returns_lift; [apply reslice_ok; cbn [len cap]; lia|].
  apply returns_bind. eapply returns_eq; [apply slice_lit_ok|].
  apply returns_bind. eapply returns_eq; [apply copy_ok|].
  rewrite add_id by (unfold in_range, min_int; lia).
  apply returns_bind. eapply returns_lift; [apply reslice_ok; cbn [len cap]; lia|].
  apply returns_bind. eapply returns_lift; [apply reslice_ok; lia|].
  apply returns_bind. eapply returns_eq; [apply copy_ok|].
  apply returns_ret. intros b Hb'.
  rewrite write_lookup_other by (cbn [arr]; intros [= Hx]; lia).
  rewrite write_lookup_other by (cbn [arr]; intros [= Hx]; lia).
  rewrite lookup_app_l by (rewrite write_length, length_app; lia).
  rewrite write_lookup_other by (cbn [arr]; intros [= Hx]; lia).
  apply lookup_app_l. exact Hb'.
Qed.

End InsertAliasing.

(** X24.  Whether [Insert] touches its argument depends on the spare
    capacity.  With [len < cap] the result lies on the argument's backing
    array at the same position, and the argument now holds the first
    [len] elements of the result: the item at [idx], the elements after
    it moved up by one, its former last element gone.  With [len = cap]
    the result lies on a new array and the argument keeps its content. *)
Theorem Insert_shares_or_copies {A : Type} `{Zero A}
    (h : heap A) (slice : Slice) (idx : Z) (item : A) :
  wf_slice h slice -> len slice < max_int -> 0 <= idx <= len slice ->
  exists s2 h',
    Insert slice idx item h = Ok (s2, h') /\
    (len slice < cap slice ->
       arr s2 = arr slice /\ off s2 = off slice /\
       content h' slice = take (Z.to_nat (len slice)) (content h' s2) /\
       content h' slice =
         take (Z.to_nat (len slice))
           (take (Z.to_nat idx) (content h slice) ++ item :: drop (Z.to_nat idx) (content h slice))) /\
    (len slice = cap slice ->
       arr s2 = Some (length h) /\ arr s2 <> arr slice /\
       content h' slice = content h slice).
Proof.
  intros Hwf Hmax Hidx. pose proof Hwf as (Ho & Hl & Hc & Hb & Ha).
  destruct (Z.lt_ge_cases (len slice) (cap slice)) as [Hlt | Hge].
  - destruct (Insert_in_place h slice idx item Hwf ltac:(lia) Hidx)
      as (s2 & h' & E & W & L & As & C).
    pose proof (returns_inv _ _ _ _ _ (Insert_in_place_header h slice idx item Hwf ltac:(lia) Hidx) E)
      as Hs2. cbv beta in Hs2.
    exists s2, h'. split; [exact E|]. split; [|lia].
    intros _. split; [exact As|]. split; [rewrite Hs2; reflexivity|].
    assert (content h' slice = take (Z.to_nat (len slice)) (content h' s2)) as Hpre.
    { rewrite Hs2. unfold content, array_of. cbn [arr off len].
      rewrite take_take. f_equal. lia. }
    split; [exact Hpre|]. rewrite Hpre, C. reflexivity.
  - destruct (Insert_alloc h slice idx item Hwf Hmax ltac:(lia) Hidx)
      as (s2 & h' & E & W & L & As & C).
    pose proof (returns_inv _ _ _ _ _ (Insert_alloc_frame h slice idx item Hwf Hmax ltac:(lia) Hidx) E)
      as Hfr. cbv beta in Hfr.
    exists s2, h'. split; [exact E|]. split; [lia|].
    intros _. split; [exact As|].
    split; [rewrite As; apply not_eq_sym, wf_not_fresh; exact Hwf|].
    unfold content, array_of. destruct (arr slice) as [a|]; [|reflexivity].
    rewrite (Hfr a Ha). reflexivity.
Qed.

Lemma Insert_shares_or_copies_witness :
  let h : heap Z := [[1; 2; 3; 4; 0]] in
  let s := mkSlice (Some 0%nat) 0 4 5 in
  exists s2 h',
    Insert s 1 9 h = Ok (s2, h') /\
    (len s < cap s ->
       arr s2 = arr s /\ off s2 = off s /\
       content h' s = take (Z.to_nat (len s)) (content h' s2) /\
       content h' s =
         take (Z.to_nat (len s))
           (take (Z.to_nat 1) (content h s) ++ 9 :: drop (Z.to_nat 1) (content h s))) /\
    (len s = cap s ->
       arr s2 = Some (length h) /\ arr s2 <> arr s /\
       content h' s = content h s).
Proof.
  intros h s. apply (Insert_shares_or_copies h s 1 9).
  - wf_concrete.
  - unfold max_int. cbn. lia.
  - cbn. lia.
Defined.

Example Insert_overwrites_argument :
  match Insert (mkSlice (Some 0%nat) 0 4 5) 1 9 ([[1; 2; 3; 4; 0]] : heap Z) with
  | Ok (s2, h') =>
      content h' s2 = [1; 9; 2; 3; 4] /\
      content h' (mkSlice (Some 0%nat) 0 4 5) = [1; 9; 2; 3]
  | _ => False
  end.
Proof. vm_compute. split; reflexivity. Qed.

(** X25.  Inserting an item that does not occur in the slice, at any
    valid position, and then removing it gives back the elements of the
    slice, with a count of 1. *)
Theorem Remove_Insert_roundtrip {A : Type} `{Zero A} `{EqDecision A}
    (growcap : Z -> Z -> Z) (h : heap A) (slice : Slice) (idx : Z) (item : A) :
  wf_slice h slice -> len slice < max_int -> 0 <= idx <= len slice ->
  item ∉ content h slice ->
  exists s2 h1 s3 h2,
    Insert slice idx item h = Ok (s2, h1) /\
    Remove growcap s2 item h1 = Ok ((s3, 1), h2) /\
    content h2 s3 = content h slice.
Proof.
  intros Hwf Hmax Hidx Hnot.
  destruct (Insert_ok h slice idx item Hwf Hmax Hidx) as (s2 & h1 & E1 & W1 & L1 & C1).
  pose proof (content_length h1 s2 W1) as Hlen1.
  pose proof (content_length h slice Hwf) as Hlen.
  pose proof Hwf as (_ & Hl & _). pose proof W1 as (_ & Hl1 & Hcap1 & _).
  destruct (Remove_loop_spec growcap item (content h1 s2)
              (S (Z.to_nat (len s2))) [] s2 h1 0)
    as ([s3 removed] & h2 & E2 & W2 & C2 & R & _);
    [exact W1 | reflexivity | lia | lia | lia |].
  cbn [fst snd app length] in *.
  assert (filter (fun y => y <> item) (content h1 s2) = content h slice) as Hf.
  { rewrite C1, filter_app, filter_cons_False by (intros Hn; apply Hn; reflexivity).
    rewrite <- filter_app, take_drop.
    clear - Hnot. induction (content h slice) as [|y l IH]; [reflexivity|].
    rewrite filter_cons_True.
    - f_equal. apply IH. intros Hin. apply Hnot. right. exact Hin.
    - intros ->. apply Hnot. left. }
  assert (removed = 1) as -> by (rewrite R, Hf, Hlen1, Hlen; lia).
  exists s2, h1, s3, h2. split; [exact E1|]. split; [exact E2|].
  rewrite C2. exact Hf.
Qed.

Lemma Remove_Insert_roundtrip_witness :
  let h : heap Z := [[1; 2; 3; 4; 0]] in
  let s := mkSlice (Some 0%nat) 0 4 5 in
  let gc := fun _ n : Z => n in
  exists s2 h1 s3 h2,
    Insert s 2 9 h = Ok (s2, h1) /\
    Remove gc s2 9 h1 = Ok ((s3, 1), h2) /\
    content h2 s3 = content h s.
Proof.
  intros h s gc. apply (Remove_Insert_roundtrip gc h s 2 9).
  - wf_concrete.
  - unfold max_int. cbn. lia.
  - cbn. lia.
  - vm_compute. intros Hin. repeat (inversion Hin as [|? ? ? Hin']; subst; clear Hin; rename Hin' into Hin).
Defined.

Section OneWorker.

Context {T W : Type}.
Variables (h : heap T) (slice : Slice) (fn : T -> W -> W).
Hypothesis Wslice : wf_slice h slice.

Lemma in_order_step t st st' :
  in_order h slice st -> step h slice fn t st = Some st' -> in_order h slice st'.
Proof.
  intros (Hw & Hn & Hord) Hstep.
  destruct (workers st) as [|wk [|? ?]] eqn:Hws; try discriminate Hw. clear Hw.
  destruct t as [|k|]; cbn [step] in Hstep.
  - unfold producer_step in Hstep.
    destruct (producer_done st); [discriminate|].
    destruct (Z.ltb_spec (next st) (len slice)) as [Hlt | Hge].
    + destruct (Z.of_nat (length (queue st)) <? chan_cap st); [|discriminate].
      destruct (get_ok h slice (next st) Wslice ltac:(lia)) as (v & Hg & Hv).
      rewrite Hg in Hstep. injection Hstep as <-. unfold in_order. pcbn.
      pose proof Wslice as (_ & Hl & Hcap & _).
      rewrite add_id by (unfold in_range, min_int; lia).
      rewrite Hws. split; [reflexivity|]. split; [lia|].
      replace (Z.to_nat (next st + 1)) with (S (Z.to_nat (next st))) by lia.
      rewrite (take_S_r _ _ v Hv), <- Hord, <- !app_assoc. reflexivity.
    + injection Hstep as <-. unfold in_order. pcbn.
      rewrite Hws. split; [reflexivity|]. split; [lia|]. rewrite <- Hord. reflexivity.
  - unfold worker_step in Hstep. rewrite Hws in Hstep.
    destruct k as [|k]; [|destruct k; discriminate]. cbn in Hstep.
    destruct wk as [|v|]; [| |discriminate].
    + destruct (queue st) as [|v q] eqn:Hq.
      * destruct (closed st); [|discriminate]. injection Hstep as <-.
        unfold in_order. pcbn. split; [reflexivity|]. split; [lia|].
        rewrite <- Hord. reflexivity.
      * injection Hstep as <-. unfold in_order. pcbn.
        split; [reflexivity|]. split; [lia|]. rewrite <- Hord. reflexivity.
    + injection Hstep as <-. unfold in_order. pcbn.
      split; [reflexivity|]. split; [lia|]. rewrite <- Hord, <- app_assoc. reflexivity.
  - unfold main_step in Hstep. destruct (returned st); [discriminate|].
    destruct (wg st =? 0); [|discriminate]. injection Hstep as <-.
    unfold in_order. pcbn. rewrite Hws. split; [reflexivity|]. split; [lia|].
    rewrite <- Hord. reflexivity.
Qed.

Lemma in_order_exec sched : forall st, in_order h slice st -> in_order h slice (exec h slice fn sched st).
Proof.
  induction sched as [|t sched IH]; intros st Hst; [exact Hst|].
  cbn [exec]. destruct (step h slice fn t st) as [st'|] eqn:Hstep.
  - apply IH. exact (in_order_step t st st' Hst Hstep).
  - apply IH. exact Hst.
Qed.

End OneWorker.

(** X26.  With a parallelism of 1 the callback is applied to the elements
    in the order of the slice: under every schedule the calls made so far
    are a prefix of the content, and once [ForEachParallel] has returned
    they are the whole content, so the world is the left fold of the
    callback over the slice. *)
Theorem ForEachParallel_single_worker_in_order {T W : Type}
    (h : heap T) (slice : Slice) (fn : T -> W -> W) (w0 : W) :
  wf_slice h slice ->
  forall sched,
  exists st,
    ForEachParallel h slice fn sched 1 w0 = Ok st /\
    calls st = take (length (calls st)) (content h slice) /\
    (returned st = true ->
       calls st = content h slice /\
       world st = foldl (fun w v => fn v w) w0 (content h slice)).
Proof.
  intros Hwf sched. pose proof max_int_pos as Hmp.
  assert (1 * 4 <= max_int) as Hp4 by (unfold max_int; lia).
  pose proof (start_ok h slice 1 w0 Hwf ltac:(lia) Hp4) as Hstart.
  unfold ForEachParallel. rewrite Hstart. eexists. split; [reflexivity|].
  set (st0 := {| queue := []; chan_cap := Z.min (1 * 4) (len slice); closed := false;
                 next := 0; producer_done := false;
                 workers := replicate (Z.to_nat 1) Receiving;
                 wg := 1; world := w0; calls := []; returned := false |}).
  pose proof (inv_start h slice fn 1 w0 Hwf ltac:(lia) Hp4 _ Hstart) as Hinv0.
  pose proof (inv_exec h slice fn 1 w0 Hwf ltac:(lia) Hp4 sched _ Hinv0) as Hinv.
  assert (in_order h slice st0) as Hord0.
  { pose proof Hwf as (_ & Hl & _). unfold in_order, st0. pcbn.
    split; [reflexivity|]. split; [lia|]. reflexivity. }
  pose proof (in_order_exec h slice fn Hwf sched st0 Hord0) as (_ & _ & Hord).
  fold st0 in Hinv. set (st := exec h slice fn sched st0) in *.
  split.
  - rewrite <- (take_app_length (calls st) (inflight (workers st) ++ queue st)) at 1.
    rewrite Hord, take_take. f_equal.
    assert (length (calls st) <= Z.to_nat (next st))%nat; [|lia].
    apply (f_equal length) in Hord. rewrite !length_app, length_take in Hord. lia.
  - intros Hr.
    destruct (returned_complete h slice fn 1 w0 Hwf ltac:(lia) _ Hinv Hr)
      as (Hperm & Hworld & Hall & Hq).
    assert (calls st = content h slice) as Hc.
    { assert (inflight (workers st) = []) as Hin.
      { clear - Hall. induction Hall as [|wk ws -> _ IH]; [reflexivity|].
        unfold inflight in *. rewrite bind_cons, IH. reflexivity. }
      rewrite Hin, Hq, !app_nil_r in Hord.
      rewrite Hord. apply take_ge.
      apply Permutation_length in Hperm. rewrite <- Hperm, Hord, length_take. lia. }
    split; [exact Hc|]. rewrite Hworld, Hc. reflexivity.
Qed.

Lemma ForEachParallel_single_worker_in_order_witness :
  let h : heap Z := [[1; 2; 3]] in
  let s := mkSlice (Some 0%nat) 0 3 3 in
  let fn := fun (v : Z) (w : list Z) => w ++ [v] in
  let sched :=
    [Producer; Producer; Worker 0; Main; Worker 0; Producer; Producer;
     Worker 0; Worker 0; Worker 0; Worker 0; Worker 0; Main] in
  exists st,
    ForEachParallel h s fn sched 1 [] = Ok st /\
    calls st = take (length (calls st)) (content h s) /\
    (returned st = true ->
       calls st = content h s /\
       world st = foldl (fun w v => fn v w) [] (content h s)).
Proof.
  intros h s fn sched.
  apply (ForEachParallel_single_worker_in_order h s fn []). wf_concrete.
Defined.

Example ForEachParallel_single_worker_run :
  match ForEachParallel ([[1; 2; 3]] : heap Z) (mkSlice (Some 0%nat) 0 3 3)
          (fun v w => w ++ [v])
          [Producer; Producer; Worker 0; Main; Worker 0; Producer; Producer;
           Worker 0; Worker 0; Worker 0; Worker 0; Worker 0; Main] 1 [] with
  | Ok st => returned st = true /\ world st = [1; 2; 3]
  | _ => False
  end.
Proof. vm_compute. split; reflexivity. Qed.



Example ForEachParallel_huge_parallelism_panics :
  ForEachParallel ([[1; 2; 3]] : heap Z) (mkSlice (Some 0%nat) 0 3 3)
    (fun v w => w + v) [Producer; Worker 0; Main] (2 ^ 61) 0 = Panic.
Proof. vm_compute. reflexivity. Qed.

(** What [Map] returns. *)
Lemma Map_spec {T R : Type} `{Zero R} (growcap : Z -> Z -> Z)
    (ht : heap T) (slice : Slice) (mapper : T -> R) (hr : heap R) :
  growcap_ok growcap -> wf_slice ht slice ->
  returns (Map growcap ht slice mapper) hr (fun res hr' =>
    wf_slice hr' res /\ content hr' res = map mapper (content ht slice)).
Proof.
  intros Hgc Hwf. pose proof (content_length ht slice Hwf) as Hlen.
  pose proof Hwf as (_ & Hl & Hcap & _). pose proof max_int_pos as Hmp.
  unfold Map. apply returns_bind. eapply returns_eq; [apply make_ok; lia|].
  eapply returns_weaken;
    [apply (Map_loop_spec growcap Hgc ht slice mapper (content ht slice)
              (S (Z.to_nat (len slice))) [] _ _ ltac:(lia) Hlen (get_all ht slice Hwf))|].
  - apply wf_fresh; cbn [length]; lia.
  - reflexivity.
  - lia.
  - cbv beta. intros res hr' (W & C & _). split; [exact W|].
    rewrite C, content_fresh. reflexivity.
Qed.

(** X28.  Zipping two slices of equal length and mapping the pairs to
    their first, respectively second, component gives back the elements
    of the left, respectively right, slice. *)
Theorem Zip_then_Map_projects {T U : Type} `{Zero T} `{Zero U}
    (growcap : Z -> Z -> Z) (hl : heap T) (hr : heap U)
    (left right : Slice) (hp : heap (Pair T U)) :
  growcap_ok growcap -> wf_slice hl left -> wf_slice hr right ->
  len left = len right ->
  exists pairs hp' l hl' r hr',
    Zip growcap hl hr left right hp = Ok (pairs, hp') /\
    Map growcap hp' pairs First hl = Ok (l, hl') /\
    Map growcap hp' pairs Second hr = Ok (r, hr') /\
    content hl' l = content hl left /\
    content hr' r = content hr right.
Proof.
  intros Hgc Wl Wr Hlen.
  destruct (Zip_spec growcap hl hr left right hp Wl Wr Hlen) as (pairs & hp' & Ez & Wp & Lp & Cp).
  destruct (Map_spec growcap hp' pairs First hl Hgc Wp) as (l & hl' & El & _ & Cl).
  destruct (Map_spec growcap hp' pairs Second hr Hgc Wp) as (r & hr' & Er & _ & Cr).
  exists pairs, hp', l, hl', r, hr'.
  split; [exact Ez|]. split; [exact El|]. split; [exact Er|].
  pose proof (content_length hl left Wl) as L1.
  pose proof (content_length hr right Wr) as L2.
  assert (length (content hl left) = length (content hr right)) as Heq by lia.
  rewrite Cl, Cr, Cp. clear - Heq.
  revert Heq. generalize (content hr right). 
  induction (content hl left) as [|x xs IH]; intros [|y ys] Heq; try discriminate; [split; reflexivity|].
  cbn [zip_with map First Second]. injection Heq as Heq.
  destruct (IH ys Heq) as (I1 & I2). rewrite I1, I2. split; reflexivity.
Qed.

Lemma Zip_then_Map_projects_witness :
  let hl : heap Z := [[1; 2; 3]] in
  let hr : heap Z := [[10; 20; 30; 40]] in
  let left := mkSlice (Some 0%nat) 0 3 3 in
  let right := mkSlice (Some 0%nat) 1 3 3 in
  let gc := fun _ n : Z => n in
  exists pairs hp' l hl' r hr',
    Zip gc hl hr left right [] = Ok (pairs, hp') /\
    Map gc hp' pairs First hl = Ok (l, hl') /\
    Map gc hp' pairs Second hr = Ok (r, hr') /\
    content hl' l = content hl left /\
    content hr' r = content hr right.
Proof.
  intros hl hr left right gc.
  apply (Zip_then_Map_projects gc hl hr left right []).
  - intros c n Hn. unfold gc. lia.
  - wf_concrete.
  - wf_concrete.
  - reflexivity.
Defined.

Section DedupFacts.

Context {A : Type} `{Countable A}.

Lemma stable_dedup_elem (l : list A) x : x ∈ stable_dedup l <-> x ∈ l.
Proof.
  rewrite <- unique_scan_empty, unique_scan_elem.
  split; [intros [_ Hx]; exact Hx | intros Hx; split; [apply not_elem_of_empty | exact Hx]].
Qed.

Lemma stable_dedup_NoDup (l : list A) : NoDup (stable_dedup l).
Proof. rewrite <- unique_scan_empty. apply unique_scan_NoDup. Qed.

Lemma stable_dedup_length (l : list A) : (length (stable_dedup l) <= length l)%nat.
Proof.
  rewrite <- unique_scan_empty. apply sublist_length, unique_scan_sublist.
Qed.

(** One more element at the end adds its value when it is new. *)
Lemma stable_dedup_snoc (l : list A) x :
  stable_dedup (l ++ [x]) =
  if decide (x ∈ l) then stable_dedup l else stable_dedup l ++ [x].
Proof.
  induction l as [|y l IH]; [reflexivity|].
  cbn [app stable_dedup]. rewrite IH.
  destruct (decide (x ∈ l)) as [Hin | Hout].
  - rewrite decide_True by (right; exact Hin). reflexivity.
  - rewrite filter_app. destruct (decide (x = y)) as [-> | Hne].
    + rewrite decide_True by left.
      rewrite filter_cons_False by (intros Hn; apply Hn; reflexivity).
      rewrite filter_nil, app_nil_r. reflexivity.
    + rewrite decide_False by (intros Hin; apply elem_of_cons in Hin as [? | ?]; contradiction).
      rewrite filter_cons_True by exact Hne. reflexivity.
Qed.

End DedupFacts.

Section PairOfStores.

Context {S1 S2 A : Type}.

Lemma returns_on_headers (m : M S1 A) (s1 : S1) (s2 : S2) (Q : A -> S1 * S2 -> Prop) :
  returns m s1 (fun a s1' => Q a (s1', s2)) -> returns (on_headers m) (s1, s2) Q.
Proof.
  intros (a & s1' & E & HQ). exists a, (s1', s2).
  unfold on_headers. cbn [fst snd]. rewrite E. split; [reflexivity | exact HQ].
Qed.

Lemma returns_on_elements (m : M S2 A) (s1 : S1) (s2 : S2) (Q : A -> S1 * S2 -> Prop) :
  returns m s2 (fun a s2' => Q a (s1, s2')) -> returns (on_elements m) (s1, s2) Q.
Proof.
  intros (a & s2' & E & HQ). exists a, (s1, s2').
  unfold on_elements. cbn [fst snd]. rewrite E. split; [reflexivity | exact HQ].
Qed.

End PairOfStores.

Section PartitionFacts.

Context {T : Type} `{Zero T}.
Variable growcap : Z -> Z -> Z.
Hypothesis Hgc : growcap_ok growcap.
Context {U : Type} `{Countable U}.
Variables (in_ : Slice) (partitioner : T -> U).

(** [result[idx] = append(result[idx], item)] for the partition at
    position [j]. *)
Lemma PartitionBy_put_spec done keys seen (x : T) (j : nat) result
    (hs : heap Slice) (hT : heap T) :
  wf_slice hT in_ -> wf_slice hs result ->
  partitioned hT in_ partitioner done keys (content hs result) seen ->
  keys !! j = Some (partitioner x) ->
  Z.of_nat (length done) < max_int ->
  returns
    (let! g := on_headers (index result (Z.of_nat j)) in
     let! g := on_elements (append growcap g [x]) in
     on_headers (store result (Z.of_nat j) g)) (hs, hT)
    (fun _ st' =>
       wf_slice st'.1 result /\ wf_slice st'.2 in_ /\
       content st'.2 in_ = content hT in_ /\
       partitioned st'.2 in_ partitioner (done ++ [x]) keys (content st'.1 result) seen /\
       (forall t, wf_slice hT t ->
          (forall g, g ∈ content hs result -> arr t <> arr g) ->
          wf_slice st'.2 t /\ content st'.2 t = content hT t /\
          forall g, g ∈ content st'.1 result -> arr t <> arr g)).
Proof.
  intros Win Wres (Hlen & Hnd & Hseen & Hkeys & Hgrp & Hinj) Hj Hmax.
  set (gs := content hs result) in *. set (key := partitioner x) in *.
  pose proof (content_length hs result Wres) as Hlr. fold gs in Hlr.
  pose proof Wres as (_ & Hlres & _).
  pose proof (lookup_lt_Some _ _ _ Hj) as Hjlt.
  destruct (lookup_lt_is_Some_2 gs j ltac:(lia)) as [g0 Hg0].
  destruct (Hgrp j key g0 Hj Hg0) as (W0 & C0 & N0 & A0).
  pose proof (content_length hT g0 W0) as Hl0. rewrite C0 in Hl0.
  pose proof (length_filter (fun y => partitioner y = key) done) as Hfl.
  pose proof W0 as (_ & Hlg0 & _).
  apply returns_bind. apply returns_on_headers.
  eapply returns_eq.
  { apply index_ok. apply get_content; [exact Wres | lia |].
    rewrite Nat2Z.id. exact Hg0. }
  apply returns_bind. apply returns_on_elements.
  eapply returns_weaken; [apply (append_frame growcap Hgc hT g0 [x] W0); cbn [length]; lia|].
  cbv beta. intros g1 hT1 (W1 & C1 & A1 & N1 & F1).
  specialize (N1 ltac:(discriminate)).
  apply returns_on_headers.
  destruct (store_spec hs result (Z.of_nat j) g1 Wres ltac:(lia)) as (hs1 & E1 & Cs1 & Ws1 & _).
  eapply returns_eq; [exact E1|]. cbn [fst snd].
  rewrite Nat2Z.id in Cs1. fold gs in Cs1.
  destruct (F1 in_ Win (or_introl (not_eq_sym A0))) as (Win1 & Cin1).
  assert (forall j' g, gs !! j' = Some g -> j' <> j -> arr g <> arr g1) as Hfar.
  { intros j' g Hg Hne Harr. destruct A1 as [A1 | A1]; rewrite A1 in Harr.
    - apply Hne. exact (Hinj j' j g g0 Hg Hg0 Harr).
    - assert (exists k, keys !! j' = Some k) as (k & Hk)
        by (apply lookup_lt_is_Some_2; apply lookup_lt_Some in Hg; lia).
      destruct (Hgrp j' k g Hk Hg) as (Wg & _).
      exact (wf_not_fresh hT g Wg Harr). }
  split; [exact Ws1|]. split; [exact Win1|]. split; [exact Cin1|]. split.
  - rewrite Cs1. split; [rewrite length_insert; exact Hlen|]. split; [exact Hnd|].
    split; [exact Hseen|]. split; [exact Hkeys|]. split.
    + intros j' k g Hk Hg. destruct (decide (j' = j)) as [-> | Hne].
      * rewrite list_lookup_insert_eq in Hg by lia. injection Hg as <-.
        assert (k = key) as -> by congruence.
        split; [exact W1|]. split.
        -- rewrite C1, C0, filter_app, filter_cons_True by reflexivity. reflexivity.
        -- split; [exact N1|].
           destruct A1 as [-> | ->]; [exact A0 | apply not_eq_sym, wf_not_fresh; exact Win].
      * rewrite list_lookup_insert_ne in Hg by congruence.
        destruct (Hgrp j' k g Hk Hg) as (Wg & Cg & Ng & Ag).
        assert (arr g <> arr g0) as Hd
          by (intros Harr; apply Hne; exact (Hinj j' j g g0 Hg Hg0 Harr)).
        destruct (F1 g Wg (or_introl Hd)) as (Wg1 & Cg1).
        assert (k <> key) as Hk'.
        { intros ->. apply Hne. exact (NoDup_lookup keys j' j key Hnd Hk Hj). }
        split; [exact Wg1|]. split.
        -- rewrite Cg1, Cg, filter_app, filter_cons_False by (fold key; congruence).
           rewrite filter_nil, app_nil_r. reflexivity.
        -- split; assumption.
    + intros j1 j2 g2 g3 H1 H2 Harr.
      destruct (decide (j1 = j)) as [-> | Hne1]; destruct (decide (j2 = j)) as [-> | Hne2];
        [reflexivity| | |].
      * rewrite list_lookup_insert_eq in H1 by lia. injection H1 as <-.
        rewrite list_lookup_insert_ne in H2 by congruence.
        exfalso. exact (Hfar j2 g3 H2 Hne2 (eq_sym Harr)).
      * rewrite list_lookup_insert_eq in H2 by lia. injection H2 as <-.
        rewrite list_lookup_insert_ne in H1 by congruence.
        exfalso. exact (Hfar j1 g2 H1 Hne1 Harr).
      * rewrite list_lookup_insert_ne in H1 by congruence.
        rewrite list_lookup_insert_ne in H2 by congruence.
        exact (Hinj j1 j2 g2 g3 H1 H2 Harr).
  - intros t Wt Hdis.
    assert (arr t <> arr g0) as Ht0
      by (apply Hdis; apply list_elem_of_lookup_2 in Hg0; exact Hg0).
    destruct (F1 t Wt (or_introl Ht0)) as (Wt1 & Ct1).
    split; [exact Wt1|]. split; [exact Ct1|].
    intros g Hg. rewrite Cs1 in Hg. apply list_elem_of_lookup_1 in Hg as (j' & Hg).
    destruct (decide (j' = j)) as [-> | Hne].
    + rewrite list_lookup_insert_eq in Hg by lia. injection Hg as <-.
      destruct A1 as [-> | ->]; [exact Ht0 | apply wf_not_fresh; exact Wt].
    + rewrite list_lookup_insert_ne in Hg by congruence.
      apply Hdis. apply list_elem_of_lookup_2 in Hg. exact Hg.
Qed.

(** A key without elements has an empty partition. *)
Lemma filter_key_absent (key : U) (done : list T) :
  key ∉ partitioner <$> done -> filter (fun y => partitioner y = key) done = [].
Proof.
  intros Hnot. induction done as [|y l IH]; [reflexivity|].
  rewrite filter_cons_False.
  - apply IH. intros Hin. apply Hnot. cbn [fmap list_fmap]. right. exact Hin.
  - intros Hy. apply Hnot. cbn [fmap list_fmap]. rewrite Hy. left.
Qed.

(** The lookup of the partition of a key, which adds an empty partition
    at the end when the key is new. *)
Lemma PartitionBy_slot_spec done keys seen (x : T) result
    (hs : heap Slice) (hT : heap T) :
  wf_slice hT in_ -> wf_slice hs result ->
  partitioned hT in_ partitioner done keys (content hs result) seen ->
  keys = stable_dedup (partitioner <$> done) ->
  Z.of_nat (length done) < max_int ->
  returns (PartitionBy_slot growcap (partitioner x) result seen) (hs, hT)
    (fun slot st' =>
       exists (j : nat) keys1,
         slot.1.1 = Z.of_nat j /\ keys1 !! j = Some (partitioner x) /\
         keys1 = stable_dedup (partitioner <$> (done ++ [x])) /\
         wf_slice st'.1 slot.1.2 /\ wf_slice st'.2 in_ /\
         content st'.2 in_ = content hT in_ /\
         partitioned st'.2 in_ partitioner done keys1 (content st'.1 slot.1.2) slot.2 /\
         (arr result <> None -> arr slot.1.2 <> None) /\
         (forall t, wf_slice hT t ->
            wf_slice st'.2 t /\ content st'.2 t = content hT t /\
            ((forall g, g ∈ content hs result -> arr t <> arr g) ->
             forall g, g ∈ content st'.1 slot.1.2 -> arr t <> arr g))).
Proof.
  intros Win Wres Hinv Hkeq Hmax.
  pose proof Hinv as (Hlen & Hnd & Hseen & Hkeys & Hgrp & Hinj).
  set (gs := content hs result) in *. set (key := partitioner x) in *.
  pose proof (content_length hs result Wres) as Hlr. fold gs in Hlr.
  pose proof Wres as (_ & Hlres & _).
  pose proof (stable_dedup_length (partitioner <$> done)) as Hkl.
  rewrite <- Hkeq, length_fmap in Hkl.
  unfold PartitionBy_slot. destruct (seen !! key) as [idx|] eqn:Hs.
  - destruct (Hseen key idx Hs) as (j & -> & Hj).
    apply returns_ret. cbn [fst snd]. exists j, keys.
    split; [reflexivity|]. split; [exact Hj|]. split.
    { rewrite fmap_app. change (partitioner <$> [x]) with [key].
      rewrite stable_dedup_snoc.
      rewrite decide_True; [exact Hkeq|].
      apply stable_dedup_elem. rewrite <- Hkeq.
      apply list_elem_of_lookup_2 in Hj. exact Hj. }
    split; [exact Wres|]. split; [exact Win|]. split; [reflexivity|].
    split; [exact Hinv|]. split; [intros Hn; exact Hn|].
    intros t Wt. split; [exact Wt|]. split; [reflexivity|]. intros Hd. exact Hd.
  - assert (key ∉ keys) as Hnew.
    { intros Hin. apply list_elem_of_lookup_1 in Hin as (j & Hj).
      rewrite (Hkeys j key Hj) in Hs. discriminate. }
    assert (key ∉ partitioner <$> done) as Hnew'
      by (intros Hin; apply Hnew; rewrite Hkeq; apply stable_dedup_elem; exact Hin).
    pose proof max_int_pos as Hmp.
    cbv zeta. apply returns_bind. apply returns_on_elements.
    eapply returns_eq; [apply make_ok; lia|].
    set (e := mkSlice (Some (length hT)) 0 0 0).
    set (hT0 := hT ++ [replicate (Z.to_nat 0) zero]).
    assert (wf_slice hT0 e) as We by (apply wf_fresh; cbn [length]; lia).
    apply returns_bind. apply returns_on_headers.
    eapply returns_weaken;
      [apply (append_frame growcap Hgc hs result [e] Wres); cbn [length]; lia|].
    cbv beta. intros result1 hs1 (W1 & C1 & A1 & _).
    apply returns_ret. cbn [fst snd]. fold gs in C1.
    exists (length gs), (keys ++ [key]).
    split; [lia|].
    split; [rewrite Hlen; apply list_lookup_middle; reflexivity|].
    split.
    { rewrite fmap_app. change (partitioner <$> [x]) with [key].
      rewrite stable_dedup_snoc.
      rewrite decide_False by exact Hnew'. rewrite Hkeq. reflexivity. }
    split; [exact W1|]. split; [apply wf_alloc; exact Win|].
    split; [apply content_alloc; exact Win|].
    split; [|split].
    + rewrite C1. split; [rewrite !length_app; cbn [length]; lia|].
      split.
      { apply NoDup_app. split; [exact Hnd|]. split; [|apply NoDup_singleton].
        intros k Hk Hk'. apply list_elem_of_singleton in Hk'. subst k. contradiction. }
      split.
      { intros k idx Hk. destruct (decide (k = key)) as [-> | Hne].
        - rewrite lookup_insert_eq in Hk. injection Hk as <-.
          exists (length keys). split; [lia|]. apply list_lookup_middle. reflexivity.
        - rewrite lookup_insert_ne in Hk by congruence.
          destruct (Hseen k idx Hk) as (j & -> & Hj).
          exists j. split; [reflexivity|]. apply lookup_app_l_Some. exact Hj. }
      split.
      { intros j k Hj. apply lookup_app_Some in Hj as [Hj | (Hge & Hj)].
        - assert (k <> key) as Hne
            by (intros ->; apply Hnew; apply list_elem_of_lookup_2 in Hj; exact Hj).
          rewrite lookup_insert_ne by congruence. exact (Hkeys j k Hj).
        - apply list_lookup_singleton_Some in Hj as (Hj0 & <-).
          rewrite lookup_insert_eq. f_equal. lia. }
      split.
      { intros j k g Hk Hg. apply lookup_app_Some in Hg as [Hg | (Hge & Hg)].
        - pose proof (lookup_lt_Some _ _ _ Hg) as Hlt.
          rewrite lookup_app_l in Hk by lia.
          destruct (Hgrp j k g Hk Hg) as (Wg & Cg & Ng & Ag).
          split; [apply wf_alloc; exact Wg|].
          split; [unfold hT0; rewrite content_alloc by exact Wg; exact Cg|].
          split; assumption.
        - apply list_lookup_singleton_Some in Hg as (Hj0 & <-).
          rewrite lookup_app_r in Hk by lia.
          apply list_lookup_singleton_Some in Hk as (_ & <-).
          split; [exact We|].
          split; [rewrite (filter_key_absent key done Hnew'); apply content_nil; reflexivity|].
          split; [discriminate|]. apply not_eq_sym, wf_not_fresh. exact Win. }
      { assert (forall j g, gs !! j = Some g -> arr g <> arr e) as Hold.
        { intros j g Hg.
          assert (exists k, keys !! j = Some k) as (k & Hk)
            by (apply lookup_lt_is_Some_2; apply lookup_lt_Some in Hg; lia).
          destruct (Hgrp j k g Hk Hg) as (Wg & _). apply wf_not_fresh. exact Wg. }
        intros j1 j2 g1 g2 H1 H2 Harr.
        apply lookup_app_Some in H1 as [H1 | (Hge1 & H1)];
          apply lookup_app_Some in H2 as [H2 | (Hge2 & H2)].
        - exact (Hinj j1 j2 g1 g2 H1 H2 Harr).
        - apply list_lookup_singleton_Some in H2 as (_ & <-).
          exfalso. exact (Hold j1 g1 H1 Harr).
        - apply list_lookup_singleton_Some in H1 as (_ & <-).
          exfalso. exact (Hold j2 g2 H2 (eq_sym Harr)).
        - apply list_lookup_singleton_Some in H1 as (H1 & _).
          apply list_lookup_singleton_Some in H2 as (H2 & _). lia. }
    + intros Hn. destruct A1 as [-> | ->]; [exact Hn | discriminate].
    + intros t Wt. split; [apply wf_alloc; exact Wt|].
      split; [apply content_alloc; exact Wt|].
      intros Hd g Hg. rewrite C1 in Hg. apply elem_of_app in Hg as [Hg | Hg].
      * apply Hd. exact Hg.
      * apply list_elem_of_singleton in Hg. subst g. apply wf_not_fresh. exact Wt.
Qed.

(** A computation of three steps followed by a continuation. *)
Lemma returns_after {S A B C D : Type} (m1 : M S A) (m2 : A -> M S B)
    (m3 : B -> M S C) (k : C -> M S D) (s : S)
    (P : C -> S -> Prop) (Q : D -> S -> Prop) :
  returns (let! a := m1 in let! b := m2 a in m3 b) s P ->
  (forall c s', P c s' -> returns (k c) s' Q) ->
  returns (let! a := m1 in let! b := m2 a in let! c := m3 b in k c) s Q.
Proof.
  intros (c & s' & E & HP) Hk. destruct (Hk c s' HP) as (d & s'' & Ek & HQ).
  exists d, s''. split; [|exact HQ]. unfold bind in *.
  destruct (m1 s) as [[a s1]| |]; try discriminate.
  destruct (m2 a s1) as [[b s2]| |]; try discriminate.
  rewrite E. exact Ek.
Qed.

(** The loop of [PartitionBy]. *)
Lemma PartitionBy_loop_spec rest :
  forall fuel done keys seen result (hs : heap Slice) (hT : heap T),
    wf_slice hT in_ -> content hT in_ = done ++ rest -> wf_slice hs result ->
    partitioned hT in_ partitioner done keys (content hs result) seen ->
    keys = stable_dedup (partitioner <$> done) ->
    (length rest < fuel)%nat ->
    returns (PartitionBy_loop growcap fuel in_ partitioner
               (Z.of_nat (length done)) result seen) (hs, hT)
      (fun res st' =>
         wf_slice st'.1 res /\
         (exists seen',
            partitioned st'.2 in_ partitioner (done ++ rest)
              (stable_dedup (partitioner <$> (done ++ rest)))
              (content st'.1 res) seen') /\
         (arr result <> None -> arr res <> None) /\
         (forall t, wf_slice hT t ->
            (forall g, g ∈ content hs result -> arr t <> arr g) ->
            wf_slice st'.2 t /\ content st'.2 t = content hT t)).
Proof.
  induction rest as [|x rest IH];
    intros fuel done keys seen result hs hT Win Hc Wres Hinv Hkeq Hfuel;
    (destruct fuel as [|fuel]; [cbn in Hfuel; lia|]); cbn [PartitionBy_loop].
  - pose proof Hc as Hc0. rewrite app_nil_r in Hc0.
    rewrite (scan_end hT in_ done Win Hc0). apply returns_ret. cbn [fst snd].
    rewrite app_nil_r. split; [exact Wres|].
    split; [exists seen; rewrite <- Hkeq; exact Hinv|].
    split; [intros Hn; exact Hn|].
    intros t Wt _. split; [exact Wt | reflexivity].
  - destruct (scan_step hT in_ done x rest Win Hc) as (Hlt & Hg & Hadd & Hc').
    rewrite Hlt. apply Z.ltb_lt in Hlt. pose proof Win as (_ & Hl & Hcap & _).
    apply returns_bind. apply returns_on_elements.
    eapply returns_eq; [apply index_ok; exact Hg|].
    cbv zeta. apply returns_bind.
    eapply returns_weaken;
      [apply (PartitionBy_slot_spec done keys seen x result hs hT Win Wres Hinv Hkeq); lia|].
    cbv beta. intros [[idx result1] seen1] [hs1 hT0]
      (j & keys1 & Hidx & Hj & Hk1 & W1 & Win0 & Cin0 & Hinv0 & N0 & F0).
    cbn [fst snd] in *. subst idx.
    apply (returns_after _ _ _ _ _
             (fun _ st' =>
                wf_slice st'.1 result1 /\ wf_slice st'.2 in_ /\
                content st'.2 in_ = content hT0 in_ /\
                partitioned st'.2 in_ partitioner (done ++ [x]) keys1
                  (content st'.1 result1) seen1 /\
                (forall t, wf_slice hT0 t ->
                   (forall g, g ∈ content hs1 result1 -> arr t <> arr g) ->
                   wf_slice st'.2 t /\ content st'.2 t = content hT0 t /\
                   forall g, g ∈ content st'.1 result1 -> arr t <> arr g))).
    + apply (PartitionBy_put_spec done keys1 seen1 x j result1 hs1 hT0 Win0 W1 Hinv0 Hj). lia.
    + intros [] [hs2 hT1] (W2 & Win1 & Cin1 & Hinv1 & F1). cbn [fst snd] in *.
      rewrite Hadd. cbn [length] in Hfuel.
      assert (content hT1 in_ = (done ++ [x]) ++ rest) as Hc1
        by (rewrite Cin1, Cin0; exact Hc').
      eapply returns_weaken;
        [apply (IH fuel (done ++ [x]) keys1 seen1 result1 hs2 hT1 Win1 Hc1 W2 Hinv1 Hk1); lia|].
      cbv beta. intros res [hs' hT'] (W & (seen' & Hinv') & N & F). cbn [fst snd] in *.
      split; [exact W|].
      split; [exists seen'; rewrite <- app_assoc in Hinv'; exact Hinv'|].
      split; [intros Hn; apply N, N0; exact Hn|].
      intros t Wt Hd. destruct (F0 t Wt) as (Wt0 & Ct0 & Hd0).
      destruct (F1 t Wt0 (Hd0 Hd)) as (Wt1 & Ct1 & Hd1).
      destruct (F t Wt1 Hd1) as (Wt' & Ct').
      split; [exact Wt' | congruence].
Qed.

End PartitionFacts.

(** X29.  [PartitionBy] returns one partition for each key the
    partitioner gives to some element, in the order in which the keys
    first occur in the slice; the partition of a key holds the elements
    with that key in their order in the slice, so no partition is empty.
    The result is never nil, and the slices of elements that existed
    before, the argument among them, keep their content. *)
Theorem PartitionBy_partitions_by_first_occurrence {T U : Type} `{Zero T} `{Countable U}
    (growcap : Z -> Z -> Z) (hs : heap Slice) (hT : heap T) (in_ : Slice)
    (partitioner : T -> U) :
  growcap_ok growcap -> wf_slice hT in_ ->
  exists res hs' hT',
    PartitionBy growcap in_ partitioner (hs, hT) = Ok (res, (hs', hT')) /\
    map (content hT') (content hs' res) =
      map (fun k => filter (fun x => partitioner x = k) (content hT in_))
          (stable_dedup (partitioner <$> content hT in_)) /\
    Forall (fun part => part <> []) (map (content hT') (content hs' res)) /\
    is_nil res = false /\
    (forall t, wf_slice hT t -> content hT' t = content hT t).
Proof.
  intros Hgc Win. pose proof (content_length hT in_ Win) as Hlen.
  pose proof max_int_pos as Hmp.
  set (res0 := mkSlice (Some (length hs)) 0 0 0).
  set (hs0 := hs ++ [replicate (Z.to_nat 0) (zero : Slice)]).
  assert (wf_slice hs0 res0) as W0 by (apply wf_fresh; cbn [length]; lia).
  assert (content hs0 res0 = []) as C0 by (apply content_nil; reflexivity).
  assert (partitioned hT in_ partitioner [] [] (content hs0 res0) (∅ : gmap U Z)) as Hinv0.
  { rewrite C0. split; [reflexivity|]. split; [apply NoDup_nil_2|].
    split; [intros k idx Hk; rewrite lookup_empty in Hk; discriminate|].
    split; [intros j k Hk; discriminate|].
    split; [intros j k g Hk; discriminate|].
    intros j1 j2 g1 g2 H1; discriminate. }
  destruct (PartitionBy_loop_spec growcap Hgc in_ partitioner (content hT in_)
              (S (Z.to_nat (len in_))) [] [] ∅ res0 hs0 hT Win eq_refl W0 Hinv0 eq_refl
              ltac:(lia))
    as (res & [hs' hT'] & E & W & (seen & Hinv) & N & F).
  cbn [fst snd app] in *.
  exists res, hs', hT'. split.
  { unfold PartitionBy, bind at 1, on_headers. cbn [fst snd].
    rewrite make_ok by lia. exact E. }
  destruct Hinv as (Hl & Hnd & _ & _ & Hgrp & _).
  set (xs := content hT in_) in *. set (keys := stable_dedup (partitioner <$> xs)) in *.
  set (gs := content hs' res) in *.
  assert (map (content hT') gs = map (fun k => filter (fun x => partitioner x = k) xs) keys) as Hparts.
  { apply list_eq. intros j. change (map ?f ?l) with (f <$> l). rewrite !list_lookup_fmap.
    destruct (gs !! j) as [g|] eqn:Hg.
    - assert (exists k, keys !! j = Some k) as (k & Hk)
        by (apply lookup_lt_is_Some_2; apply lookup_lt_Some in Hg; lia).
      rewrite Hk. cbn. destruct (Hgrp j k g Hk Hg) as (_ & Cg & _). rewrite Cg. reflexivity.
    - apply lookup_ge_None in Hg. rewrite (lookup_ge_None_2 keys j) by lia. reflexivity. }
  split; [exact Hparts|]. split.
  { rewrite Hparts. apply Forall_forall. intros part Hpart.
    change (map ?f ?l) with (f <$> l) in Hpart.
    apply list_elem_of_fmap in Hpart as (k & -> & Hk).
    apply stable_dedup_elem, list_elem_of_fmap in Hk as (x & -> & Hx).
    intros Hnil.
    assert (x ∈ filter (fun y => partitioner y = partitioner x) xs) as Hin
      by (apply list_elem_of_filter; split; [reflexivity | exact Hx]).
    rewrite Hnil in Hin. inversion Hin. }
  split.
  { unfold is_nil. destruct (arr res) eqn:Ha; [reflexivity|].
    exfalso. apply N; [discriminate | reflexivity]. }
  intros t Wt. apply F; [exact Wt|].
  intros g Hg. rewrite C0 in Hg. inversion Hg.
Qed.

Lemma PartitionBy_partitions_by_first_occurrence_witness :
  let hT : heap Z := [[1; 2; 3; 4; 5; 6; 7]] in
  let s := mkSlice (Some 0%nat) 0 7 7 in
  let gc := fun _ n : Z => n in
  let partitioner := fun x : Z => x mod 3 in
  exists res hs' hT',
    PartitionBy gc s partitioner ([], hT) = Ok (res, (hs', hT')) /\
    map (content hT') (content hs' res) =
      map (fun k => filter (fun x => partitioner x = k) (content hT s))
          (stable_dedup (partitioner <$> content hT s)) /\
    Forall (fun part => part <> []) (map (content hT') (content hs' res)) /\
    is_nil res = false /\
    (forall t, wf_slice hT t -> content hT' t = content hT t).
Proof.
  intros hT s gc partitioner.
  apply (PartitionBy_partitions_by_first_occurrence gc [] hT s partitioner).
  - intros c n Hn. unfold gc. lia.
  - wf_concrete.
Defined.

Example PartitionBy_mod_three :
  match PartitionBy (fun _ n => n) (mkSlice (Some 0%nat) 0 7 7) (fun x : Z => x mod 3)
          (([] : heap Slice), ([[1; 2; 3; 4; 5; 6; 7]] : heap Z)) with
  | Ok (res, (hs', hT')) =>
      map (content hT') (content hs' res) = [[1; 4; 7]; [2; 5]; [3; 6]]
  | _ => False
  end.
Proof. vm_compute. reflexivity. Qed.

(** X30.  [PartitionBy] and [GroupBy] cut a slice in the same way: there
    are as many partitions as groups, and the partition at position [j]
    holds the same elements as the group of the [j]-th key in order of
    first occurrence. *)
Theorem PartitionBy_agrees_with_GroupBy {T U : Type} `{Zero T} `{Countable U}
    (growcap : Z -> Z -> Z) (hs : heap Slice) (hT : heap T) (in_ : Slice)
    (partitioner : T -> U) :
  growcap_ok growcap -> wf_slice hT in_ ->
  exists res hs' hT1 (groups : gmap U Slice) hT2,
    PartitionBy growcap in_ partitioner (hs, hT) = Ok (res, (hs', hT1)) /\
    GroupBy growcap in_ partitioner hT = Ok (groups, hT2) /\
    length (content hs' res) = size groups /\
    forall j part, content hs' res !! j = Some part ->
      exists k g,
        stable_dedup (partitioner <$> content hT in_) !! j = Some k /\
        groups !! k = Some g /\
        content hT2 g = content hT1 part.
Proof.
  intros Hgc Win. pose proof (content_length hT in_ Win) as Hlen.
  pose proof max_int_pos as Hmp.
  set (res0 := mkSlice (Some (length hs)) 0 0 0).
  set (hs0 := hs ++ [replicate (Z.to_nat 0) (zero : Slice)]).
  assert (wf_slice hs0 res0) as W0 by (apply wf_fresh; cbn [length]; lia).
  assert (content hs0 res0 = []) as C0 by (apply content_nil; reflexivity).
  assert (partitioned hT in_ partitioner [] [] (content hs0 res0) (∅ : gmap U Z)) as Hinv0.
  { rewrite C0. split; [reflexivity|]. split; [apply NoDup_nil_2|].
    split; [intros k idx Hk; rewrite lookup_empty in Hk; discriminate|].
    split; [intros j k Hk; discriminate|].
    split; [intros j k g Hk; discriminate|].
    intros j1 j2 g1 g2 H1; discriminate. }
  destruct (PartitionBy_loop_spec growcap Hgc in_ partitioner (content hT in_)
              (S (Z.to_nat (len in_))) [] [] ∅ res0 hs0 hT Win eq_refl W0 Hinv0 eq_refl
              ltac:(lia))
    as (res & [hs' hT1] & E & W & (seen & Hinv) & _).
  assert (grouped hT in_ partitioner [] (∅ : gmap U Slice)) as Hg0.
  { split; [|split].
    - intros k g Hk. rewrite lookup_empty in Hk. discriminate.
    - intros k _. reflexivity.
    - intros k1 k2 g1 g2 Hk. rewrite lookup_empty in Hk. discriminate. }
  destruct (GroupBy_loop_spec growcap Hgc in_ partitioner (content hT in_)
              (S (Z.to_nat (len in_))) [] ∅ hT Win eq_refl Hg0 ltac:(lia))
    as (groups & hT2 & E2 & (Hsome & Hnone & _) & _).
  cbn [fst snd app] in *.
  exists res, hs', hT1, groups, hT2. split.
  { unfold PartitionBy, bind at 1, on_headers. cbn [fst snd].
    rewrite make_ok by lia. exact E. }
  split; [exact E2|].
  destruct Hinv as (Hl & Hnd & _ & _ & Hgrp & _).
  set (xs := content hT in_) in *. set (keys := stable_dedup (partitioner <$> xs)) in *.
  assert (forall k, k ∈ keys <-> is_Some (groups !! k)) as Hdom.
  { intros k. split.
    - intros Hk. apply stable_dedup_elem, list_elem_of_fmap in Hk as (x & -> & Hx).
      destruct (groups !! partitioner x) as [g|] eqn:Hgk; [eexists; reflexivity|].
      exfalso. pose proof (Hnone _ Hgk) as Hf.
      assert (x ∈ filter (fun y => partitioner y = partitioner x) xs) as Hin
        by (apply list_elem_of_filter; split; [reflexivity | exact Hx]).
      rewrite Hf in Hin. inversion Hin.
    - intros [g Hgk]. destruct (Hsome k g Hgk) as (_ & Cg & _ & _ & Eg).
      destruct (filter (fun y => partitioner y = k) xs) as [|y l] eqn:Hf;
        [rewrite Cg in Eg; contradiction|].
      assert (y ∈ filter (fun y => partitioner y = k) xs) as Hy by (rewrite Hf; left).
      apply list_elem_of_filter in Hy as (<- & Hy).
      apply stable_dedup_elem, list_elem_of_fmap. exists y. split; [reflexivity | exact Hy]. }
  split.
  - rewrite Hl, <- size_dom. unfold size, set_size. cbn.
    apply Permutation_length. apply NoDup_Permutation; [exact Hnd | apply NoDup_elements|].
    intros k. rewrite elem_of_elements, elem_of_dom. apply Hdom.
  - intros j part Hpart.
    assert (exists k, keys !! j = Some k) as (k & Hk)
      by (apply lookup_lt_is_Some_2; apply lookup_lt_Some in Hpart; lia).
    destruct (Hgrp j k part Hk Hpart) as (_ & Cp & _).
    assert (k ∈ keys) as Hin by (apply list_elem_of_lookup_2 in Hk; exact Hk).
    apply Hdom in Hin as [g Hgk].
    destruct (Hsome k g Hgk) as (_ & Cg & _).
    exists k, g. split; [exact Hk|]. split; [exact Hgk|]. congruence.
Qed.

Lemma PartitionBy_agrees_with_GroupBy_witness :
  let hT : heap Z := [[1; 2; 3; 4; 5; 6; 7]] in
  let s := mkSlice (Some 0%nat) 0 7 7 in
  let gc := fun _ n : Z => n in
  let partitioner := fun x : Z => x mod 3 in
  exists res hs' hT1 (groups : gmap Z Slice) hT2,
    PartitionBy gc s partitioner ([], hT) = Ok (res, (hs', hT1)) /\
    GroupBy gc s partitioner hT = Ok (groups, hT2) /\
    length (content hs' res) = size groups /\
    forall j part, content hs' res !! j = Some part ->
      exists k g,
        stable_dedup (partitioner <$> content hT s) !! j = Some k /\
        groups !! k = Some g /\
        content hT2 g = content hT1 part.
Proof.
  intros hT s gc partitioner.
  apply (PartitionBy_agrees_with_GroupBy gc [] hT s partitioner).
  - intros c n Hn. unfold gc. lia.
  - wf_concrete.
Defined.
